(** * Lead ingestion CLI: validator, resilient API client, lead processor

    A shallow embedding of the TypeScript sources
    - the validator (field rules, company normalisation), in its two
      versions: [src/validator.ts] lines 1-79 (module [Validator]) and lines
      80-156 (module [Validator2]);
    - the client, [src/apiClient.ts] (module [ApiClient]): retry wrapper,
      response-shape validation, lookup / create / update;
    - the lead processor (the per-record reconciliation loop), in its two
      versions: the one with [leadsMatch] and the 409 handling, found after
      the CSV parser in [src/csvParser.ts], lines 64-186 (module
      [LeadProcessor]), and the one split into [processOneLead] /
      [handleExistingLead] / [handleNewLead], [unnamed/part_001] (module
      [LeadProcessor2]);
    - the duplicate report [detectDuplicateEmails] of both versions of the
      validator (modules [Duplicates], [Duplicates2]);
    - the CSV reader, in its two versions: [src/csvParser.ts] lines 1-64
      (module [CsvParser]) and [unnamed/part_000] (module [CsvParser2]);
      [fs.readFileSync] and csv-parse are parameters;
    - the sample remote, [src/server.js] (module [Server]), and the client
      talking to it (module [World]);
    - the command line, [unnamed/part_003] (module [Main]);
    followed by the properties of the reconciliation engine and of the
    code around it.

    Conventions of the embedding.
    - A JavaScript string is a sequence of UTF-16 code units; the model keeps
      the code units below 256 (Rocq's [string]), read as Latin-1.  White
      space and case mapping are those of ECMAScript on that range.
    - Promises are run to completion in program order (the code awaits every
      call), so asynchronous code becomes a state-passing function over the
      trace of what has been sent to the remote and of the pauses taken.
    - An exception is a value of [result]: [Throw e]. *)

From Stdlib Require Import Ascii Sorted.
From stdpp Require Import base option list gmap strings pretty.

#[local] Set Warnings "-register-all,-clear-no-such-hyp".
Local Open Scope Z_scope.

(* ===================================================================== *)
(** ** JavaScript strings and values                                      *)
(* ===================================================================== *)

Module Js.

(** ECMAScript [WhiteSpace] and [LineTerminator] code units below 256:
    TAB, LF, VT, FF, CR, SPACE, NBSP.  This is both [\s] and what [trim]
    removes. *)
Definition isWhiteSpace (c : ascii) : bool :=
  let n := Ascii.N_of_ascii c in
  ((9 <=? n) && (n <=? 13) || (n =? 32) || (n =? 160))%N.

Fixpoint trimStart (s : string) : string :=
  match s with
  | EmptyString => EmptyString
  | String c s' => if isWhiteSpace c then trimStart s' else s
  end.

Fixpoint trimEnd (s : string) : string :=
  match s with
  | EmptyString => EmptyString
  | String c s' =>
      match trimEnd s' with
      | EmptyString => if isWhiteSpace c then EmptyString else String c EmptyString
      | t => String c t
      end
  end.

(** [s.trim()] *)
Definition trim (s : string) : string := trimEnd (trimStart s).

(** [s.replace(/\s+/g, ' ')]: every maximal run of white space becomes one
    space.  [inRun] tells that the previous code unit was white space. *)
Fixpoint replaceWhiteSpaceRuns (inRun : bool) (s : string) : string :=
  match s with
  | EmptyString => EmptyString
  | String c s' =>
      if isWhiteSpace c
      then if inRun then replaceWhiteSpaceRuns true s'
           else String " " (replaceWhiteSpaceRuns true s')
      else String c (replaceWhiteSpaceRuns false s')
  end.

(** [s.toLowerCase()] on Latin-1: A-Z and the accented capitals
    U+00C0..U+00DE (without the multiplication sign U+00D7). *)
Definition toLowerChar (c : ascii) : ascii :=
  let n := Ascii.N_of_ascii c in
  if ((65 <=? n) && (n <=? 90)
      || (192 <=? n) && (n <=? 222) && negb (n =? 215))%N
  then Ascii.ascii_of_N (n + 32) else c.

Fixpoint toLowerCase (s : string) : string :=
  match s with
  | EmptyString => EmptyString
  | String c s' => String (toLowerChar c) (toLowerCase s')
  end.

(** [arr.join(sep)] on an array of strings *)
Fixpoint join (sep : string) (l : list string) : string :=
  match l with
  | [] => ""
  | [x] => x
  | x :: rest => x +:+ sep +:+ join sep rest
  end.

(** [arr.includes(x)] on an array of strings *)
Definition includes (l : list string) (x : string) : bool :=
  bool_decide (x ∈ l).

(** [arr.includes(n)] on an array of numbers *)
Definition includesZ (l : list Z) (n : Z) : bool :=
  bool_decide (n ∈ l).

(** Truthiness of a string: only the empty string is falsy. *)
Definition truthy (s : string) : bool :=
  match s with EmptyString => false | _ => true end.

(** *** Regular expressions, as far as [EMAIL_REGEX] needs them

    A pattern between [^] and [$] without flags is matched against the whole
    string; matching is by derivatives. *)
Inductive regex : Type :=
| Void
| Eps
| Class (p : ascii → bool)
| Cat (r1 r2 : regex)
| Alt (r1 r2 : regex)
| Star (r : regex).

Definition Plus (r : regex) : regex := Cat r (Star r).
Definition Chr (c : ascii) : regex := Class (λ x, bool_decide (x = c)).

Fixpoint nullable (r : regex) : bool :=
  match r with
  | Void => false
  | Eps => true
  | Class _ => false
  | Cat r1 r2 => nullable r1 && nullable r2
  | Alt r1 r2 => nullable r1 || nullable r2
  | Star _ => true
  end.

Fixpoint deriv (c : ascii) (r : regex) : regex :=
  match r with
  | Void => Void
  | Eps => Void
  | Class p => if p c then Eps else Void
  | Cat r1 r2 =>
      if nullable r1 then Alt (Cat (deriv c r1) r2) (deriv c r2)
      else Cat (deriv c r1) r2
  | Alt r1 r2 => Alt (deriv c r1) (deriv c r2)
  | Star r1 => Cat (deriv c r1) (Star r1)
  end.

(** [/^r$/.test(s)] *)
Fixpoint test (r : regex) (s : string) : bool :=
  match s with
  | EmptyString => nullable r
  | String c s' => test (deriv c r) s'
  end.

(** *** Values received from the remote: parsed JSON

    A number is kept as the text JavaScript prints for it, which is all the
    client ever asks of a number ([String(n)]).  An object is the list of its
    own properties. *)
Inductive json : Type :=
| JNull
| JBool (b : bool)
| JNum (shown : string)
| JStr (s : string)
| JArr (items : list json)
| JObj (props : list (string * json)).

(** [typeof v === "object"] together with [v] being truthy *)
Definition isObject (v : json) : bool :=
  match v with
  | JArr _ | JObj _ => true
  | _ => false
  end.

Fixpoint assoc (key : string) (props : list (string * json)) : option json :=
  match props with
  | [] => None
  | (k, v) :: rest => if String.eqb k key then Some v else assoc key rest
  end.

(** [v.key] for the keys the client reads ([lead], [found], [name], [email],
    [company], [source]); [None] is [undefined].  Arrays and primitives have
    no such property. *)
Definition prop (key : string) (v : json) : option json :=
  match v with
  | JObj props => assoc key props
  | _ => None
  end.

(** [key in v] for an object or array [v], for the same keys. *)
Definition hasProp (key : string) (v : json) : bool :=
  match prop key v with Some _ => true | None => false end.

(** [String(v)] *)
Fixpoint toStr (v : json) : string :=
  match v with
  | JNull => "null"
  | JBool true => "true"
  | JBool false => "false"
  | JNum shown => shown
  | JStr s => s
  | JArr items =>
      join "," (List.map (λ x, match x with JNull => "" | _ => toStr x end) items)
  | JObj _ => "[object Object]"
  end.

(** [String(v ?? "")] *)
Definition toStrOrEmpty (v : option json) : string :=
  match v with
  | None | Some JNull => ""
  | Some x => toStr x
  end.

(** [String(v)] where [v] may be [undefined] *)
Definition toStrOrUndefined (v : option json) : string :=
  match v with
  | None => "undefined"
  | Some x => toStr x
  end.

(** [v === false] *)
Definition isFalse (v : option json) : bool :=
  match v with
  | Some (JBool false) => true
  | _ => false
  end.

(** [s === v] for a string [s] *)
Definition strictEq (s : string) (v : option json) : bool :=
  match v with
  | Some (JStr s') => bool_decide (s = s')
  | _ => false
  end.

(** *** Thrown values

    A thrown value is known to the program through a handful of
    observations only: [instanceof Error], [.isAxiosError], [.code],
    [.response?.status], [.message] and [String(err)]. *)
Record thrown : Type := Thrown {
  instanceofError : bool;
  isAxiosError : bool;
  code : option string;
  status : option Z;
  message : string;
  shown : string
}.

(** [new Error(msg)] *)
Definition newError (msg : string) : thrown :=
  {| instanceofError := true; isAxiosError := false; code := None;
     status := None; message := msg; shown := "Error: " +:+ msg |}.

(** A [TypeError] raised by the runtime. *)
Definition newTypeError (msg : string) : thrown :=
  {| instanceofError := true; isAxiosError := false; code := None;
     status := None; message := msg; shown := "TypeError: " +:+ msg |}.

(** [err instanceof Error ? err.message : String(err)] *)
Definition messageOf (err : thrown) : string :=
  if instanceofError err then message err else shown err.

Inductive result (A : Type) : Type :=
| Ok (a : A)
| Throw (e : thrown).
Global Arguments Ok {A} a.
Global Arguments Throw {A} e.

Definition rbind {A B} (r : result A) (k : A → result B) : result B :=
  match r with
  | Ok a => k a
  | Throw e => Throw e
  end.

(** [key in v]: a [TypeError] unless [v] is an object (the wording of the
    message is V8's). *)
Definition jsIn (key : string) (v : json) : result bool :=
  if isObject v then Ok (hasProp key v)
  else Throw (newTypeError ("Cannot use 'in' operator to search for '"
                            +:+ key +:+ "' in " +:+ toStr v)).

(** [v.toLowerCase()] and [v.trim()] on a value that was never checked to
    be a string: a [TypeError] unless it is one. *)
Definition callStringMethod (expr method : string) (f : string → string)
    (v : option json) : result string :=
  match v with
  | Some (JStr s) => Ok (f s)
  | None =>
      Throw (newTypeError ("Cannot read properties of undefined (reading '"
                           +:+ method +:+ "')"))
  | Some JNull =>
      Throw (newTypeError ("Cannot read properties of null (reading '"
                           +:+ method +:+ "')"))
  | Some _ =>
      Throw (newTypeError (expr +:+ "." +:+ method +:+ " is not a function"))
  end.

End Js.

(* ===================================================================== *)
(** ** src/validator.ts, lines 1-79                                       *)
(* ===================================================================== *)

Module Validator.
Import Js.

Record Lead : Type := {
  name : string;
  email : string;
  company : string;
  source : string
}.

Record ValidationResult : Type := {
  isValid : bool;
  errors : list string;
  normalizedLead : option Lead
}.

Definition VALID_SOURCES : list string :=
  ["LinkedIn"; "Webinar"; "Website"; "Conference"; "Referral"; "Twitter"].

(** [[^\s@]] *)
Definition notSpaceNorAt (c : ascii) : bool :=
  negb (isWhiteSpace c) && negb (bool_decide (c = "@"%char)).

(** [/^[^\s@]+@[^\s@]+\.[^\s@]+$/] *)
Definition EMAIL_REGEX : regex :=
  Cat (Plus (Class notSpaceNorAt))
    (Cat (Chr "@")
       (Cat (Plus (Class notSpaceNorAt))
          (Cat (Chr ".") (Plus (Class notSpaceNorAt))))).

Definition normalizeCompany (company : string) : string :=
  replaceWhiteSpaceRuns false (trim company).

Definition isEmpty (value : string) : bool :=
  negb (truthy value) || bool_decide (trim value = "").

(** The violation check of each rule, in the order of the source. *)
Definition validateLead (lead : Lead) : ValidationResult :=
  let errors : list string := [] in
  let errors :=
    if isEmpty (name lead) then errors ++ ["Name is required"] else errors in
  let errors :=
    if isEmpty (company lead) then errors ++ ["Company is required"] else errors in
  let errors :=
    if negb (truthy (email lead)) || negb (test EMAIL_REGEX (email lead))
    then errors ++ ["Invalid email format"] else errors in
  let errors :=
    if isEmpty (source lead) then errors ++ ["Source is required"]
    else if negb (includes VALID_SOURCES (source lead))
    then errors ++ ["Source must be one of: " +:+ join ", " VALID_SOURCES]
    else errors in
  let isValid := bool_decide (length errors = 0%nat) in
  {| isValid := isValid;
     errors := errors;
     normalizedLead :=
       if isValid
       then Some {| name := name lead; email := email lead;
                    company := normalizeCompany (company lead);
                    source := source lead |}
       else None |}.

End Validator.

(** The second version of the validator, lines 80-156 of the same file (the
    one the unit tests of the validator exercise): same rules, another order
    and another wording for the source rule. *)
Module Validator2.
Import Js.
Import Validator (Lead, name, email, company, source).

Record ValidationResult : Type := {
  isValid : bool;
  errors : list string
}.

Definition VALID_SOURCES : list string :=
  ["LinkedIn"; "Webinar"; "Conference"; "Referral"; "Twitter"; "Website"].

Definition EMAIL_REGEX : regex := Validator.EMAIL_REGEX.

Definition normalizeCompany (company : string) : string :=
  replaceWhiteSpaceRuns false (trim company).

Definition validateLead (lead : Lead) : ValidationResult :=
  let errors : list string := [] in
  let errors :=
    if negb (truthy (name lead)) || bool_decide (trim (name lead) = "")
    then errors ++ ["Name is required"] else errors in
  let errors :=
    if negb (truthy (email lead)) || negb (test EMAIL_REGEX (email lead))
    then errors ++ ["Invalid email format"] else errors in
  let normalizedCompany := normalizeCompany (company lead) in
  let errors :=
    if bool_decide (normalizedCompany = "")
    then errors ++ ["Company is required"] else errors in
  let errors :=
    if negb (truthy (source lead)) || bool_decide (trim (source lead) = "")
    then errors ++ ["Source is required"]
    else if negb (includes VALID_SOURCES (source lead))
    then errors ++ ["Invalid source"]
    else errors in
  {| isValid := bool_decide (length errors = 0%nat); errors := errors |}.

End Validator2.

(* ===================================================================== *)
(** ** The remote, seen from the client                                   *)
(* ===================================================================== *)

Module Remote.
Import Js.
Import Validator (Lead).

(** What axios is asked to send: [axios.get(url, {params: {email}})] and
    [axios.post(url, lead)]. *)
Inductive request : Type :=
| Get (url : string) (email : string)
| Post (url : string) (body : Lead).

(** What the run leaves behind, in program order: the requests handed to
    axios and the pauses taken between attempts (milliseconds). *)
Inductive event : Type :=
| Sent (r : request)
| Slept (ms : Z).

Definition trace : Type := list event.

(** The promise axios returns either resolves with [response.data] or
    rejects. *)
Inductive reply : Type :=
| Resolved (data : json)
| Rejected (err : thrown).

(** The surroundings of a run: the process environment variables the
    client reads, and the remote, which answers a request knowing everything
    that happened before it. *)
Record Env : Type := {
  API_BASE_URL : option string;
  NODE_ENV : option string;
  axios : trace → request → reply
}.

(** *** State and exceptions *)
Definition M (S A : Type) : Type := S → result A * S.

Definition ret {S A} (a : A) : M S A := λ s, (Ok a, s).

Definition throw {S A} (e : thrown) : M S A := λ s, (Throw e, s).

Definition bind {S A B} (m : M S A) (k : A → M S B) : M S B :=
  λ s, match m s with
       | (Ok a, s') => k a s'
       | (Throw e, s') => (Throw e, s')
       end.

(** [try { m } catch (err) { h err }] *)
Definition tryCatch {S A} (m : M S A) (h : thrown → M S A) : M S A :=
  λ s, match m s with
       | (Ok a, s') => (Ok a, s')
       | (Throw e, s') => h e s'
       end.

(** A computation without effect that may throw. *)
Definition lift {S A} (r : result A) : M S A := λ s, (r, s).

(** [await axios.get(...)] / [await axios.post(...)], giving [response.data] *)
Definition send (env : Env) (r : request) : M trace json :=
  λ t, match axios env t r with
       | Resolved data => (Ok data, t ++ [Sent r])
       | Rejected err => (Throw err, t ++ [Sent r])
       end.

(** [await new Promise((resolve) => setTimeout(resolve, ms))] *)
Definition sleep (ms : Z) : M trace unit := λ t, (Ok (), t ++ [Slept ms]).

End Remote.

Declare Scope js_scope.
Delimit Scope js_scope with js.
Notation "'let!' x ':=' m 'in' k" := (Remote.bind m (λ x, k))
  (at level 10, x pattern, m at level 100, k at level 200) : js_scope.
Local Open Scope js_scope.

(* ===================================================================== *)
(** ** src/apiClient.ts                                                   *)
(* ===================================================================== *)

Module ApiClient.
Import Js Remote.
Import Validator (Lead).

Section WithEnv.
Variable env : Env.

(** [process.env.API_BASE_URL || "http://localhost:3001"] *)
Definition BASE_URL : string :=
  match API_BASE_URL env with
  | Some url => if truthy url then url else "http://localhost:3001"
  | None => "http://localhost:3001"
  end.

Definition MAX_RETRIES : Z := 3.

(** [process.env.NODE_ENV === "test" ? 0 : 1000] *)
Definition BASE_DELAY : Z :=
  if bool_decide (NODE_ENV env = Some "test") then 0 else 1000.

Definition RETRYABLE_STATUS_CODES : list Z := [429; 500; 502; 503; 504].
Definition RETRYABLE_ERROR_CODES : list string := ["ECONNABORTED"; "ETIMEDOUT"].

Definition isRetryable (err : thrown) : bool :=
  if match code err with
     | Some c => truthy c && includes RETRYABLE_ERROR_CODES c
     | None => false
     end
  then true
  else if match status err with
          | Some st => negb (st =? 0) && includesZ RETRYABLE_STATUS_CODES st
          | None => false
          end
  then true
  else false.

(** The error thrown after the loop; [lastError] is [undefined] as long as
    nothing has been caught. *)
Definition exhausted (lastError : option thrown) : thrown :=
  newError ("Max retries exhausted after " +:+ pretty MAX_RETRIES
            +:+ " attempts. Last error: "
            +:+ match lastError with
                | Some e => messageOf e
                | None => "undefined"
                end).

(** The [for] loop of [withRetry], from [attempt] on; [iterations] is the
    number of iterations left, [MAX_RETRIES - attempt + 1].  Leaving the
    loop, by [break] or by its condition, reaches the final [throw]. *)
Fixpoint withRetryFrom {A} (fn : M trace A) (iterations : nat) (attempt : Z)
    (lastError : option thrown) : M trace A :=
  match iterations with
  | O => throw (exhausted lastError)
  | S iterations' =>
      tryCatch fn (λ err,
        let lastError := Some err in
        if negb (isRetryable err) then throw err
        else if attempt =? MAX_RETRIES then throw (exhausted lastError)
        else
          let delay := BASE_DELAY * 2 ^ (attempt - 1) in
          let! _ := (if 0 <? delay then sleep delay else ret ()) in
          withRetryFrom fn iterations' (attempt + 1) lastError)
  end.

Definition withRetry {A} (fn : M trace A) : M trace A :=
  withRetryFrom fn (Z.to_nat MAX_RETRIES) 1 None.

Definition malformed : thrown :=
  newError "Malformed API response: missing expected fields (name, email)".

(** The object literal a [Lead] is at run time. *)
Definition leadObject (l : Lead) : json :=
  JObj [("name", JStr (Validator.name l)); ("email", JStr (Validator.email l));
        ("company", JStr (Validator.company l));
        ("source", JStr (Validator.source l))].

(** [record.lead && typeof record.lead === "object" ? record.lead : data] *)
Definition unwrapLead (data : json) : json :=
  match prop "lead" data with
  | Some l => if isObject l then l else data
  | None => data
  end.

Definition extractLeadFromResponse (data : json) : result Lead :=
  if negb (isObject data) then Throw malformed
  else
    let leadData := unwrapLead data in
    if negb (hasProp "name" leadData) || negb (hasProp "email" leadData)
    then Throw malformed
    else Ok {| Validator.name := toStrOrUndefined (prop "name" leadData);
               Validator.email := toStrOrUndefined (prop "email" leadData);
               Validator.company := toStrOrEmpty (prop "company" leadData);
               Validator.source := toStrOrEmpty (prop "source" leadData) |}.

(** The value returned is what the caller holds as a [Lead]: the object
    built by [extractLeadFromResponse], or the reply itself ([data as Lead])
    when it is flat. *)
Definition validateLeadResponse (data : json) : result json :=
  if negb (isObject data) then Throw malformed
  else if match prop "lead" data with
          | Some l => isObject l
          | None => false
          end
  then match extractLeadFromResponse data with
       | Ok l => Ok (leadObject l)
       | Throw e => Throw e
       end
  else if negb (hasProp "name" data) || negb (hasProp "email" data)
  then Throw malformed
  else Ok data.

Definition lookupUrl : string := BASE_URL +:+ "/api/leads/lookup".
Definition createUrl : string := BASE_URL +:+ "/api/leads/create".
Definition updateUrl : string := BASE_URL +:+ "/api/leads/update".

(** One attempt of [lookupLead]: the function handed to [withRetry]. *)
Definition lookupLeadOnce (email : string) : M trace (option json) :=
  tryCatch
    (let! data := send env (Get lookupUrl email) in
     let! hasFound := lift (jsIn "found" data) in
     if hasFound && isFalse (prop "found" data) then ret None
     else
       let! lead := lift (validateLeadResponse data) in
       ret (Some lead))
    (λ err,
       if isAxiosError err && bool_decide (status err = Some 404)
       then ret None
       else throw err).

(** [null] is [None]. *)
Definition lookupLead (email : string) : M trace (option json) :=
  withRetry (lookupLeadOnce email).

Definition createLeadOnce (lead : Lead) : M trace json :=
  let! data := send env (Post createUrl lead) in
  lift (validateLeadResponse data).

Definition createLead (lead : Lead) : M trace json :=
  withRetry (createLeadOnce lead).

Definition updateLeadOnce (lead : Lead) : M trace json :=
  let! data := send env (Post updateUrl lead) in
  lift (validateLeadResponse data).

Definition updateLead (lead : Lead) : M trace json :=
  withRetry (updateLeadOnce lead).

End WithEnv.
End ApiClient.

(* ===================================================================== *)
(** ** The lead processor: src/csvParser.ts lines 64-186, unnamed/part_001 *)
(* ===================================================================== *)

(** The string literal type ['created' | 'updated' | 'skipped' | 'error']. *)
Module Action.
Inductive t : Type := created | updated | skipped | error.
#[global] Instance eq_dec : EqDecision t.
Proof. solve_decision. Defined.
End Action.

Module LeadProcessor.
Import Js Remote ApiClient.
Import Validator (Lead, validateLead, normalizeCompany).

Record ProcessResult : Type := {
  lead : Lead;
  action : Action.t;
  error : option string
}.

Record ProcessSummary : Type := {
  total : nat;
  created : nat;
  updated : nat;
  skipped : nat;
  errors : nat
}.

Record ProcessOutput : Type := {
  results : list ProcessResult;
  summary : ProcessSummary
}.

(** [existing] is whatever [lookupLead] returned; [&&] evaluates from the
    left and stops at the first [false]. *)
Definition leadsMatch (incoming : Lead) (existing : json) : result bool :=
  if negb (strictEq (Validator.name incoming) (prop "name" existing))
  then Ok false
  else
    rbind (callStringMethod "existing.email" "toLowerCase" toLowerCase
             (prop "email" existing)) (λ existingEmail,
    if negb (bool_decide (toLowerCase (Validator.email incoming) = existingEmail))
    then Ok false
    else
      rbind (callStringMethod "company" "trim" normalizeCompany
               (prop "company" existing)) (λ existingCompany,
      if negb (bool_decide
                 (normalizeCompany (Validator.company incoming) = existingCompany))
      then Ok false
      else Ok (strictEq (Validator.source incoming) (prop "source" existing)))).

(** [results.filter((r) => r.action === a).length] *)
Definition countAction (a : Action.t) (results : list ProcessResult) : nat :=
  length (filter (λ r, action r = a) results).

Definition summarize (results : list ProcessResult) : ProcessSummary :=
  {| total := length results;
     created := countAction Action.created results;
     updated := countAction Action.updated results;
     skipped := countAction Action.skipped results;
     errors := countAction Action.error results |}.

Section WithEnv.
Variable env : Env.

(** Steps 3-7 of the loop body: what stands inside [try]. *)
Definition reconcileTry (lead : Lead) : M trace ProcessResult :=
  let! existing := lookupLead env (Validator.email lead) in
  match existing with
  | Some existing =>
      let! same := lift (leadsMatch lead existing) in
      if negb same then
        let! _ := updateLead env lead in
        ret {| lead := lead; action := Action.updated; error := None |}
      else
        ret {| lead := lead; action := Action.skipped; error := None |}
  | None =>
      let! _ := createLead env lead in
      ret {| lead := lead; action := Action.created; error := None |}
  end.

(** The [catch] block. *)
Definition reconcileCatch (lead : Lead) (err : thrown) : M trace ProcessResult :=
  let message := messageOf err in
  if bool_decide (status err = Some 409)
  then ret {| lead := lead; action := Action.skipped; error := None |}
  else ret {| lead := lead; action := Action.error; error := Some message |}.

Definition reconcile (lead : Lead) : M trace ProcessResult :=
  tryCatch (reconcileTry lead) (reconcileCatch lead).

(** One turn of the [for (const lead of leads)] loop: the set of seen keys
    after the turn, and the result pushed. *)
Definition processLead (seenEmails : gset string) (lead : Lead)
    : M trace (gset string * ProcessResult) :=
  let validation := validateLead lead in
  if negb (Validator.isValid validation) then
    ret (seenEmails,
         {| lead := lead; action := Action.error;
            error := Some (join "; " (Validator.errors validation)) |})
  else
    let emailKey := toLowerCase (Validator.email lead) in
    if bool_decide (emailKey ∈ seenEmails) then
      ret (seenEmails, {| lead := lead; action := Action.skipped; error := None |})
    else
      let seenEmails := {[emailKey]} ∪ seenEmails in
      let! r := reconcile lead in
      ret (seenEmails, r).

Fixpoint forEachLead (leads : list Lead) (seenEmails : gset string)
    (results : list ProcessResult) : M trace (list ProcessResult) :=
  match leads with
  | [] => ret results
  | lead :: rest =>
      let! (seenEmails', r) := processLead seenEmails lead in
      forEachLead rest seenEmails' (results ++ [r])
  end.

Definition processLeads (leads : list Lead) : M trace ProcessOutput :=
  let! results := forEachLead leads ∅ [] in
  ret {| results := results; summary := summarize results |}.

End WithEnv.
End LeadProcessor.

(** The other version of the processor, split into [processOneLead],
    [handleExistingLead] and [handleNewLead].  It calls the client through
    [apiClient.lookup], [apiClient.create] and [apiClient.update]; the set
    of processed e-mails is an object shared between [processLeads] and
    [processOneLead], so it lives in the state next to the trace. *)
Module LeadProcessor2.
Import Js Remote.
Import Validator (Lead, validateLead).

(** The interface of the client this version is written against. *)
Class Client : Type := {
  lookup : string → M trace (option json);
  create : Lead → M trace json;
  update : Lead → M trace json
}.

Record LeadResult : Type := {
  email : string;
  action : Action.t;
  details : option string;
  errors : option (list string);
  lead : Lead
}.

Module ProcessingSummary.
Record t : Type := {
  total : nat;
  created : nat;
  updated : nat;
  skipped : nat;
  errors : nat
}.
End ProcessingSummary.

Record ProcessResult : Type := {
  results : list LeadResult;
  summary : ProcessingSummary.t
}.

Definition state : Type := gset string * trace.

(** A call of the client: it touches the trace only. *)
Definition call {A} (m : M trace A) : M state A :=
  λ '(processedEmails, t),
    let '(r, t') := m t in (r, (processedEmails, t')).

(** [processedEmails.has(key)] *)
Definition has (key : string) : M state bool :=
  λ '(processedEmails, t),
    (Ok (bool_decide (key ∈ processedEmails)), (processedEmails, t)).

(** [processedEmails.add(key)] *)
Definition add (key : string) : M state unit :=
  λ '(processedEmails, t), (Ok (), ({[key]} ∪ processedEmails, t)).

Definition getErrorMessage (error : thrown) : string :=
  if instanceofError error then message error else "Unknown error".

Definition leadsAreIdentical (lead1 : json) (lead2 : Lead) : bool :=
  forallb (λ '(key, field), strictEq (field lead2) (prop key lead1))
    [("name", Validator.name); ("email", Validator.email);
     ("company", Validator.company); ("source", Validator.source)].

Definition createResult (lead : Lead) (action : Action.t) (details : string)
    (errors : option (list string)) : LeadResult :=
  {| email := Validator.email lead;
     action := action;
     details := Some details;
     lead := lead;
     errors := errors |}.

Definition calculateSummary (results : list LeadResult) : ProcessingSummary.t :=
  {| ProcessingSummary.total := length results;
     ProcessingSummary.created :=
       length (filter (λ r, action r = Action.created) results);
     ProcessingSummary.updated :=
       length (filter (λ r, action r = Action.updated) results);
     ProcessingSummary.skipped :=
       length (filter (λ r, action r = Action.skipped) results);
     ProcessingSummary.errors :=
       length (filter (λ r, action r = Action.error) results) |}.

Section WithClient.
Context {client : Client}.

Definition handleExistingLead (lead : Lead) (existingLead : json)
    : M state LeadResult :=
  if leadsAreIdentical existingLead lead then
    ret (createResult lead Action.skipped "Lead data identical" None)
  else
    tryCatch
      (let! _ := call (update lead) in
       ret (createResult lead Action.updated "Lead updated successfully" None))
      (λ error,
         let msg := getErrorMessage error in
         ret (createResult lead Action.error "API update failed" (Some [msg]))).

Definition handleNewLead (lead : Lead) : M state LeadResult :=
  tryCatch
    (let! _ := call (create lead) in
     ret (createResult lead Action.created "Lead created successfully" None))
    (λ error,
       let msg := getErrorMessage error in
       ret (createResult lead Action.error "API create failed" (Some [msg]))).

Definition processOneLead (lead : Lead) : M state LeadResult :=
  let validation := validateLead lead in
  if negb (Validator.isValid validation) then
    ret (createResult lead Action.error "Validation failed"
           (Some (Validator.errors validation)))
  else
    let emailLower := toLowerCase (Validator.email lead) in
    let! seen := has emailLower in
    if seen then
      ret (createResult lead Action.skipped "Duplicate email in batch"
             (Some ["Duplicate email in batch"]))
    else
      let! _ := add emailLower in
      (* [inr] is the [return] inside the [catch] *)
      let! looked :=
        tryCatch
          (let! existingLead := call (lookup (Validator.email lead)) in
           ret (inl existingLead))
          (λ error,
             let msg := getErrorMessage error in
             ret (inr (createResult lead Action.error "API lookup failed"
                         (Some [msg])))) in
      match looked with
      | inr failed => ret failed
      | inl (Some existingLead) => handleExistingLead lead existingLead
      | inl None => handleNewLead lead
      end.

Fixpoint forEachLead (leads : list Lead) (results : list LeadResult)
    : M state (list LeadResult) :=
  match leads with
  | [] => ret results
  | lead :: rest =>
      let! result :=
        tryCatch (processOneLead lead)
          (λ error,
             let msg := getErrorMessage error in
             ret (createResult lead Action.error "Unexpected error" (Some [msg]))) in
      forEachLead rest (results ++ [result])
  end.

Definition processLeads (leads : list Lead) : M trace ProcessResult :=
  λ t,
    match forEachLead leads [] (∅, t) with
    | (r, (_, t')) =>
        (rbind r (λ results,
           Ok {| results := results; summary := calculateSummary results |}), t')
    end.

End WithClient.
End LeadProcessor2.

(* ===================================================================== *)
(** ** Notions the properties are stated with                             *)
(* ===================================================================== *)

Module Props.
Import Js Remote ApiClient.
Import Validator (Lead, validateLead, normalizeCompany).

(** The pause after the failed attempt number [attempt]: the code sleeps
    [BASE_DELAY * 2^(attempt-1)] ms, and does not sleep at all when that
    is 0. *)
Definition pause (env : Env) (attempt : Z) : trace :=
  let delay := BASE_DELAY env * 2 ^ (attempt - 1) in
  if 0 <? delay then [Slept delay] else [].

(** What [n] attempts of the request [r] leave in the trace when the first
    of them is attempt number [attempt]: [n] times the request, and between
    two of them the pause. *)
Fixpoint attempts (env : Env) (r : request) (n : nat) (attempt : Z) : trace :=
  match n with
  | O => []
  | S O => [Sent r]
  | S n' => Sent r :: pause env attempt ++ attempts env r n' (attempt + 1)
  end.

(** An attempt that hands exactly one request to axios. *)
Definition sendsOnce {A} (fn : M trace A) (r : request) : Prop :=
  ∀ t, (fn t).2 = t ++ [Sent r].

(** The failure classes of the retry policy. *)
Definition timeoutClass (e : thrown) : Prop :=
  code e = Some "ECONNABORTED" ∨ code e = Some "ETIMEDOUT".

Definition rateLimited (e : thrown) : Prop := status e = Some 429.

(** The whole 5xx status class. *)
Definition status5xx (e : thrown) : Prop :=
  ∃ st, status e = Some st ∧ 500 ≤ st ≤ 599.

(** The server failures the client's table lists. *)
Definition transientServerFailure (e : thrown) : Prop :=
  status e = Some 500 ∨ status e = Some 502 ∨ status e = Some 503
  ∨ status e = Some 504.

(** The two negative answers to a lookup: a reply that carries
    [found: false], and a rejection by axios with status 404. *)
Definition notFoundSignal (r : reply) : bool :=
  match r with
  | Resolved data => isFalse (prop "found" data)
  | Rejected err => isAxiosError err && bool_decide (status err = Some 404)
  end.

(** A reply exposes [name] and [email], after the optional unwrapping of a
    nested [lead] object. *)
Definition exposesNameAndEmail (data : json) : bool :=
  match data with
  | JObj props =>
      match assoc "lead" props with
      | Some (JObj inner) =>
          bool_decide (is_Some (assoc "name" inner))
          && bool_decide (is_Some (assoc "email" inner))
      | Some (JArr _) => false
      | _ =>
          bool_decide (is_Some (assoc "name" props))
          && bool_decide (is_Some (assoc "email" props))
      end
  | _ => false
  end.

(** The four normalised fields of two leads are equal: name; e-mail without
    regard to case; company after trimming and collapsing white space;
    source. *)
Definition normalizedEqual (incoming existing : Lead) : Prop :=
  Validator.name incoming = Validator.name existing
  ∧ toLowerCase (Validator.email incoming) = toLowerCase (Validator.email existing)
  ∧ normalizeCompany (Validator.company incoming)
    = normalizeCompany (Validator.company existing)
  ∧ Validator.source incoming = Validator.source existing.

(** The record [existing] that a lookup returned carries the four fields of
    [e], as strings (whatever else it carries). *)
Definition represents (existing : json) (e : Lead) : Prop :=
  prop "name" existing = Some (JStr (Validator.name e))
  ∧ prop "email" existing = Some (JStr (Validator.email e))
  ∧ prop "company" existing = Some (JStr (Validator.company e))
  ∧ prop "source" existing = Some (JStr (Validator.source e)).

(** The key under which a lead is remembered within a batch. *)
Definition emailKey (lead : Lead) : string :=
  toLowerCase (Validator.email lead).

Definition valid (lead : Lead) : Prop :=
  Validator.isValid (validateLead lead) = true.

(** The result pushed for a lead that fails validation: action ["error"]
    with all the messages of the validator, joined. *)
Definition rejected (lead : Lead) : LeadProcessor.ProcessResult :=
  {| LeadProcessor.lead := lead;
     LeadProcessor.action := Action.error;
     LeadProcessor.error :=
       Some (join "; " (Validator.errors (validateLead lead))) |}.

(** The result pushed for a lead that is skipped. *)
Definition skippedResult (lead : Lead) : LeadProcessor.ProcessResult :=
  {| LeadProcessor.lead := lead;
     LeadProcessor.action := Action.skipped;
     LeadProcessor.error := None |}.





(** The run of [processLeads], turn by turn: for each record the result
    pushed and what the turn appended to the trace. *)
Fixpoint turns (env : Env) (leads : list Lead) (seenEmails : gset string)
    (t : trace) : list (LeadProcessor.ProcessResult * trace) :=
  match leads with
  | [] => []
  | lead :: rest =>
      match LeadProcessor.processLead env seenEmails lead t with
      | (Ok (seenEmails', r), t') =>
          (r, drop (length t) t') :: turns env rest seenEmails' t'
      | (Throw _, _) => []
      end
  end.

End Props.

(* ===================================================================== *)
(** ** The shape of strings                                               *)
(* ===================================================================== *)

Module Text.
Import Js.

(** Every code unit of [s] satisfies [p]. *)
Fixpoint forallChars (p : ascii → bool) (s : string) : bool :=
  match s with
  | EmptyString => true
  | String c s' => p c && forallChars p s'
  end.

(** The number of occurrences of [c] in [s]. *)
Fixpoint occurrences (c : ascii) (s : string) : nat :=
  match s with
  | EmptyString => 0
  | String d s' => (if bool_decide (d = c) then 1 else 0) + occurrences c s'
  end.

(** [s] does not begin with white space. *)
Definition startsClean (s : string) : Prop :=
  match s with
  | EmptyString => True
  | String c _ => isWhiteSpace c = false
  end.

(** [s] does not end with white space. *)
Fixpoint endsClean (s : string) : Prop :=
  match s with
  | EmptyString => True
  | String c EmptyString => isWhiteSpace c = false
  | String _ s' => endsClean s'
  end.

(** [s] begins with a code unit that is not white space. *)
Definition startsWithInk (s : string) : Prop :=
  match s with
  | EmptyString => False
  | String c _ => isWhiteSpace c = false
  end.

(** Every white space of [s] is one space standing before a code unit
    that is not white space. *)
Fixpoint singleSpaced (s : string) : Prop :=
  match s with
  | EmptyString => True
  | String c s' =>
      (isWhiteSpace c = true → c = " "%char ∧ startsWithInk s')
      ∧ singleSpaced s'
  end.

(** The strings a pattern denotes. *)
Inductive matches : regex → string → Prop :=
| matches_eps : matches Eps ""
| matches_class p c : p c = true → matches (Class p) (String c "")
| matches_cat r1 r2 s1 s2 :
    matches r1 s1 → matches r2 s2 → matches (Cat r1 r2) (s1 +:+ s2)
| matches_alt_l r1 r2 s : matches r1 s → matches (Alt r1 r2) s
| matches_alt_r r1 r2 s : matches r2 s → matches (Alt r1 r2) s
| matches_star_nil r : matches (Star r) ""
| matches_star_app r s1 s2 :
    matches r s1 → matches (Star r) s2 → matches (Star r) (s1 +:+ s2).

End Text.

(* ===================================================================== *)
(** ** src/validator.ts: detectDuplicateEmails                            *)
(* ===================================================================== *)

(** A [Map<string, number[]>]: its entries in insertion order, each key
    once. *)
Module IndexMap.

Definition t : Type := list (string * list nat).

(** [m.get(key)]; [None] is [undefined]. *)
Fixpoint get (key : string) (m : t) : option (list nat) :=
  match m with
  | [] => None
  | (k, v) :: rest => if decide (k = key) then Some v else get key rest
  end.

(** [m.set(key, v)]: the value of a key the map holds is replaced where it
    stands, a new key goes to the end. *)
Fixpoint set (key : string) (v : list nat) (m : t) : t :=
  match m with
  | [] => [(key, v)]
  | (k, v0) :: rest =>
      if decide (k = key) then (k, v) :: rest else (k, v0) :: set key v rest
  end.

(** [m.get(key).push(index)] for a key the map holds: the array is changed
    where it is stored. *)
Fixpoint push (key : string) (index : nat) (m : t) : t :=
  match m with
  | [] => []
  | (k, v) :: rest =>
      if decide (k = key) then (k, v ++ [index]) :: rest
      else (k, v) :: push key index rest
  end.

End IndexMap.

(** Lines 64-79. *)
Module Duplicates.
Import Js.
Import Validator (Lead).

(** The callback of [leads.forEach]. *)
Definition collect (emailIndices : IndexMap.t) (lead : Lead) (index : nat)
    : IndexMap.t :=
  let email := toLowerCase (Validator.email lead) in
  let indices := default [] (IndexMap.get email emailIndices) in
  let indices := indices ++ [index] in
  IndexMap.set email indices emailIndices.

(** [leads.forEach((lead, index) => ...)], from [index] on. *)
Fixpoint forEach (leads : list Lead) (index : nat) (emailIndices : IndexMap.t)
    : IndexMap.t :=
  match leads with
  | [] => emailIndices
  | lead :: rest => forEach rest (S index) (collect emailIndices lead index)
  end.

Definition detectDuplicateEmails (leads : list Lead) : IndexMap.t :=
  let emailIndices := forEach leads 0%nat [] in
  List.filter (λ '(_, indices), (1 <? length indices)%nat) emailIndices.

End Duplicates.

(** Lines 135-156. *)
Module Duplicates2.
Import Js.
Import Validator (Lead).

Definition collect (emailIndices : IndexMap.t) (lead : Lead) (index : nat)
    : IndexMap.t :=
  let email := toLowerCase (Validator.email lead) in
  match IndexMap.get email emailIndices with
  | Some _ => IndexMap.push email index emailIndices
  | None => IndexMap.set email [index] emailIndices
  end.

Fixpoint forEach (leads : list Lead) (index : nat) (emailIndices : IndexMap.t)
    : IndexMap.t :=
  match leads with
  | [] => emailIndices
  | lead :: rest => forEach rest (S index) (collect emailIndices lead index)
  end.

(** [for (const [email, indices] of emailIndices) ...] *)
Fixpoint keepDuplicates (entries : IndexMap.t) (duplicates : IndexMap.t)
    : IndexMap.t :=
  match entries with
  | [] => duplicates
  | (email, indices) :: rest =>
      keepDuplicates rest
        (if (1 <? length indices)%nat
         then IndexMap.set email indices duplicates
         else duplicates)
  end.

Definition detectDuplicateEmails (leads : list Lead) : IndexMap.t :=
  let emailIndices := forEach leads 0%nat [] in
  keepDuplicates emailIndices [].

End Duplicates2.

(** The positions of a batch, from [index] on, whose lead has the key
    [key]. *)
Module Batch.
Import Js.
Import Validator (Lead).

Fixpoint positions (key : string) (leads : list Lead) (index : nat) : list nat :=
  match leads with
  | [] => []
  | lead :: rest =>
      (if decide (toLowerCase (Validator.email lead) = key) then [index] else [])
      ++ positions key rest (S index)
  end.

(** A lead whose four fields bear no white space at either end, as every
    lead read from a file does. *)
Definition trimmed (lead : Lead) : Prop :=
  trim (Validator.name lead) = Validator.name lead
  ∧ trim (Validator.email lead) = Validator.email lead
  ∧ trim (Validator.company lead) = Validator.company lead
  ∧ trim (Validator.source lead) = Validator.source lead.

End Batch.

(* ===================================================================== *)
(** ** The CSV reader: src/csvParser.ts lines 1-64, unnamed/part_000      *)
(* ===================================================================== *)

(** What both versions of the reader use of JavaScript and of the record
    type of csv-parse. *)
Module Csv.
Import Js.
Import Validator (Lead).

(** [s.split(sep)] for a separator of one code unit: the pieces between
    the separators, of which there is always at least one. *)
Fixpoint split (sep : ascii) (s : string) : list string :=
  match s with
  | EmptyString => [""]
  | String c s' =>
      if decide (c = sep) then "" :: split sep s'
      else match split sep s' with
           | piece :: rest => String c piece :: rest
           | [] => [String c ""]
           end
  end.

(** The line feed, and the double quote of the messages. *)
Definition LF : ascii := Ascii.ascii_of_N 10.
Definition quote : string := String (Ascii.ascii_of_N 34) "".

(** A record as [parse] returns it with [columns: true]: an object from
    column names to strings. *)
Definition CsvRecord : Type := gmap string string.

Definition REQUIRED_HEADERS : list string := ["Name"; "Email"; "Company"; "Source"].

(** A pattern without anchors, searched anywhere in the string:
    [/word/i.test(s)]. *)
Definition Any : regex := Class (λ _, true).

Fixpoint WordIgnoringCase (word : string) : regex :=
  match word with
  | EmptyString => Eps
  | String c word' =>
      Cat (Class (λ x, bool_decide (toLowerChar x = toLowerChar c)))
        (WordIgnoringCase word')
  end.

Definition search (r : regex) (s : string) : bool :=
  test (Cat (Star Any) (Cat r (Star Any))) s.

(** The text of a file given by its lines: [lines.join("\n")]. *)
Definition text (lines : list string) : string := join (String LF "") lines.

End Csv.

(** src/csvParser.ts, lines 1-64. *)
Module CsvParser.
Import Js Csv.
Import Validator (Lead).

Section WithFs.
(** [fs.readFileSync(filePath, "utf-8")] and [parse(content, {columns: true,
    skip_empty_lines: true, trim: true, relax_column_count: false})]. *)
Variable readFileSync : string → result string.
Variable parse : string → result (list CsvRecord).

(** The [for (const required of REQUIRED_HEADERS)] loop. *)
Fixpoint checkHeaders (required : list string) (headers : list string)
    : result unit :=
  match required with
  | [] => Ok ()
  | h :: rest =>
      if negb (includes headers h)
      then Throw (newError ("Invalid CSV: missing required headers. Expected: "
                            +:+ join ", " REQUIRED_HEADERS +:+ ". Got: "
                            +:+ join ", " headers))
      else checkHeaders rest headers
  end.

Definition toLead (record : CsvRecord) : Lead :=
  {| Validator.name := trim (default "" (record !! "Name"));
     Validator.email := trim (default "" (record !! "Email"));
     Validator.company := trim (default "" (record !! "Company"));
     Validator.source := trim (default "" (record !! "Source")) |}.

Definition parseCSVFile (filePath : string) : result (list Lead) :=
  rbind
    (match readFileSync filePath with
     | Ok content => Ok content
     | Throw err =>
         if bool_decide (code err = Some "ENOENT")
         then Throw (newError ("File not found: " +:+ filePath))
         else if bool_decide (code err = Some "EACCES")
         then Throw (newError ("Permission denied: " +:+ filePath))
         else Throw err
     end) (λ content,
  let lines := split LF (trim content) in
  if bool_decide (length lines = 0%nat)
     || bool_decide (trim (default "" (head lines)) = "")
  then Throw (newError "Invalid CSV: missing required headers")
  else
    let headers := trim <$> split "," (default "" (head lines)) in
    rbind (checkHeaders REQUIRED_HEADERS headers) (λ _,
    rbind
      (match parse content with
       | Ok records => Ok records
       | Throw parseError =>
           if search (WordIgnoringCase "column") (message parseError)
              || search (WordIgnoringCase "field") (message parseError)
           then Throw (newError ("Malformed CSV: column count mismatch. "
                                 +:+ message parseError))
           else Throw (newError ("Malformed CSV: " +:+ message parseError))
       end) (λ records,
    Ok (toLead <$> records)))).

End WithFs.
End CsvParser.

(** src/unnamed/part_000. *)
Module CsvParser2.
Import Js Csv.
Import Validator (Lead).

(** The names every object inherits: a failure whose code is one of them
    finds something in [errorMessages] that is neither [null] nor
    [undefined]. *)
Definition inheritedKeys : list string :=
  ["constructor"; "hasOwnProperty"; "isPrototypeOf"; "propertyIsEnumerable";
   "toLocaleString"; "toString"; "valueOf"; "__proto__";
   "__defineGetter__"; "__defineSetter__"; "__lookupGetter__";
   "__lookupSetter__"].

Section WithFs.
(** [readFileSync(filePath, 'utf-8')], [parse(content, {columns: true,
    skip_empty_lines: true, trim: true})], and [String(({})[key])] for an
    inherited key. *)
Variable readFileSync : string → result string.
Variable parse : string → result (list CsvRecord).
Variable shownInherited : string → string.

(** [errorMessages[error.code] ?? error.message] *)
Definition errorMessage (filePath : string) (error : thrown) : string :=
  match code error with
  | Some c =>
      if bool_decide (c = "ENOENT") then "File not found: " +:+ filePath
      else if bool_decide (c = "EACCES") then "Permission denied: " +:+ filePath
      else if includes inheritedKeys c then shownInherited c
      else message error
  | None => message error
  end.

Definition readFile (filePath : string) : result string :=
  match readFileSync filePath with
  | Ok content => Ok content
  | Throw error => Throw (newError (errorMessage filePath error))
  end.

Definition validateHeaders (content : string) : result unit :=
  let headerLine := default "" (head (split LF content)) in
  let headers := trim <$> split "," headerLine in
  match List.find (λ h, negb (includes headers h)) REQUIRED_HEADERS with
  | Some missing =>
      if truthy missing
      then Throw (newError ("Invalid CSV: missing required header " +:+ quote
                            +:+ missing +:+ quote))
      else Ok ()
  | None => Ok ()
  end.

(** The [for] loop of [validateRows], from [i] on. *)
Fixpoint checkRows (lines : list string) (i : nat) : result unit :=
  match lines with
  | [] => Ok ()
  | line :: rest =>
      if bool_decide (trim line = "") then checkRows rest (S i)
      else
        let columnCount := length (split "," line) in
        if negb (bool_decide (columnCount = length REQUIRED_HEADERS))
        then Throw (newError ("Malformed row " +:+ pretty (i + 2)%nat
                              +:+ ": expected " +:+ pretty (length REQUIRED_HEADERS)
                              +:+ " columns, got " +:+ pretty columnCount))
        else checkRows rest (S i)
  end.

Definition validateRows (content : string) : result unit :=
  let lines := drop 1 (split LF (trim content)) in
  checkRows lines 0.

Definition mapToLead (record : CsvRecord) : Lead :=
  {| Validator.name := default "" (trim <$> record !! "Name");
     Validator.email := default "" (trim <$> record !! "Email");
     Validator.company := default "" (trim <$> record !! "Company");
     Validator.source := default "" (trim <$> record !! "Source") |}.

Definition parseCSVFile (filePath : string) : result (list Lead) :=
  rbind (readFile filePath) (λ content,
  rbind (validateHeaders content) (λ _,
  rbind (validateRows content) (λ _,
  match parse content with
  | Ok records => Ok (mapToLead <$> records)
  | Throw error => Throw (newError ("Malformed CSV row: " +:+ message error))
  end))).

End WithFs.
End CsvParser2.

(* ===================================================================== *)
(** ** What a run costs                                                   *)
(* ===================================================================== *)

Module Effort.
Import Remote.

(** The number of requests handed to axios in a trace. *)
Fixpoint requests (t : trace) : nat :=
  match t with
  | [] => 0
  | Sent _ :: t' => S (requests t')
  | Slept _ :: t' => requests t'
  end.

(** The milliseconds slept in a trace. *)
Fixpoint slept (t : trace) : Z :=
  match t with
  | [] => 0
  | Sent _ :: t' => slept t'
  | Slept ms :: t' => ms + slept t'
  end.

(** The requests handed to axios in a trace, in order. *)
Fixpoint sent (t : trace) : list request :=
  match t with
  | [] => []
  | Sent r :: t' => r :: sent t'
  | Slept _ :: t' => sent t'
  end.

End Effort.

(* ===================================================================== *)
(** ** The outcomes of the split version of the processor                 *)
(* ===================================================================== *)

Module Outcomes.

(** The pairs of action and details that [processOneLead] and its helpers
    build. *)
Definition table : list (Action.t * option string) :=
  [(Action.error, Some "Validation failed");
   (Action.skipped, Some "Duplicate email in batch");
   (Action.error, Some "API lookup failed");
   (Action.skipped, Some "Lead data identical");
   (Action.updated, Some "Lead updated successfully");
   (Action.error, Some "API update failed");
   (Action.created, Some "Lead created successfully");
   (Action.error, Some "API create failed")].

(** A result is one of those, for its lead: the e-mail is that of the
    lead, and messages come with errors and duplicates only. *)
Definition listed (r : LeadProcessor2.LeadResult) : Prop :=
  (LeadProcessor2.action r, LeadProcessor2.details r) ∈ table
  ∧ LeadProcessor2.email r = Validator.email (LeadProcessor2.lead r)
  ∧ (LeadProcessor2.action r = Action.error
     → is_Some (LeadProcessor2.errors r))
  ∧ (LeadProcessor2.action r = Action.created
     ∨ LeadProcessor2.action r = Action.updated
     → LeadProcessor2.errors r = None).

End Outcomes.

(* ===================================================================== *)
(** ** src/server.js: the sample remote                                   *)
(* ===================================================================== *)

(** The three routes under /api/leads.  What a handler draws at random and
    reads from the clock is handed to it: [rateLimit] and [serverError] are
    the outcomes of [shouldSimulateRateLimit()] and
    [shouldSimulateServerError()], [now] is [new Date().toISOString()].  The
    artificial delay changes no answer and is left out.  A body is an object
    whose four fields, where present, are strings, as every client written
    against [Lead] sends it. *)
Module Server.
Import Js.

Record StoredLead : Type := {
  id : string;
  name : string;
  email : string;
  company : string;
  source : string;
  createdAt : string;
  updatedAt : option string
}.

(** [leads] and [nextId]. *)
Record State : Type := {
  leads : gmap string StoredLead;
  nextId : Z
}.

Definition sampleLeads : list StoredLead :=
  [ {| id := "1"; name := "Alice Johnson"; email := "alice@example.com";
       company := "Acme Inc"; source := "LinkedIn";
       createdAt := "2024-01-01T00:00:00Z"; updatedAt := None |};
    {| id := "2"; name := "Bob Smith"; email := "bob@startup.com";
       company := "Startup Co"; source := "Webinar";
       createdAt := "2024-01-02T00:00:00Z"; updatedAt := None |} ].

(** [parseInt(s)] for a decimal numeral, as the ids of the sample data
    are. *)
Definition digit (c : ascii) : option Z :=
  let n := Z.of_N (Ascii.N_of_ascii c) in
  if (48 <=? n) && (n <=? 57) then Some (n - 48) else None.

Fixpoint parseDigits (acc : Z) (s : string) : Z :=
  match s with
  | EmptyString => acc
  | String c s' =>
      match digit c with
      | Some d => parseDigits (10 * acc + d) s'
      | None => acc
      end
  end.

Definition parseInt (s : string) : Z := parseDigits 0 s.

(** The store once the module is loaded: [sampleLeads.forEach(...)]. *)
Definition initial : State :=
  foldl (λ st lead,
           {| leads := <[email lead := lead]> (leads st);
              nextId := Z.max (nextId st) (parseInt (id lead) + 1) |})
    {| leads := ∅; nextId := 1 |} sampleLeads.

Definition validateEmail (email : string) : bool :=
  test Validator.EMAIL_REGEX email.

(** [req.body] *)
Record Body : Type := {
  bodyName : option string;
  bodyEmail : option string;
  bodyCompany : option string;
  bodySource : option string
}.

(** [!field || field.trim().length === 0] *)
Definition missing (field : option string) : bool :=
  match field with
  | None => true
  | Some s => negb (truthy s) || (String.length (trim s) =? 0)%nat
  end.

(** The object [errors]: a message or nothing under each of its four
    keys. *)
Record Errors : Type := {
  errName : option string;
  errEmail : option string;
  errCompany : option string;
  errSource : option string
}.

Definition validSources : list string :=
  ["LinkedIn"; "Webinar"; "Conference"; "Referral"; "Twitter"; "Website"].

Definition validateLeadData (data : Body) : bool * Errors :=
  let errName :=
    if missing (bodyName data) then Some "Name is required" else None in
  let errEmail :=
    if match bodyEmail data with
       | None => true
       | Some e => negb (truthy e) || negb (validateEmail e)
       end
    then Some "Valid email is required" else None in
  let errCompany :=
    if missing (bodyCompany data) then Some "Company is required" else None in
  let errSource :=
    if missing (bodySource data) then Some "Source is required" else None in
  let errSource :=
    match bodySource data with
    | Some s =>
        if truthy s && negb (includes validSources s)
        then Some ("Source must be one of: " +:+ join ", " validSources)
        else errSource
    | None => errSource
    end in
  (* [Object.keys(errors).length === 0] *)
  (match errName, errEmail, errCompany, errSource with
   | None, None, None, None => true
   | _, _, _, _ => false
   end,
   {| errName := errName; errEmail := errEmail; errCompany := errCompany;
      errSource := errSource |}).

(** What [res.status(...).json(...)] sends. *)
Record Response : Type := {
  status : Z;
  body : json
}.

(** The JSON text of a stored lead, read back. *)
Definition leadJson (lead : StoredLead) : json :=
  JObj ([("id", JStr (id lead)); ("name", JStr (name lead));
         ("email", JStr (email lead)); ("company", JStr (company lead));
         ("source", JStr (source lead)); ("createdAt", JStr (createdAt lead))]
        ++ match updatedAt lead with
           | Some u => [("updatedAt", JStr u)]
           | None => []
           end).

Definition errorsJson (errors : Errors) : json :=
  JObj (match errName errors with Some m => [("name", JStr m)] | None => [] end
        ++ match errEmail errors with Some m => [("email", JStr m)] | None => [] end
        ++ match errCompany errors with Some m => [("company", JStr m)] | None => [] end
        ++ match errSource errors with Some m => [("source", JStr m)] | None => [] end).

Record Chance : Type := {
  rateLimit : bool;
  serverError : bool;
  now : string
}.

(** The two simulated failures every handler begins with. *)
Definition simulated (chance : Chance) : option Response :=
  if rateLimit chance
  then Some {| status := 429;
               body := JObj [("error", JStr "Rate limit exceeded");
                             ("retryAfter", JNum "5")] |}
  else if serverError chance
  then Some {| status := 500;
               body := JObj [("error", JStr "Internal server error")] |}
  else None.

(** [app.get('/api/leads/lookup', ...)]; [email] is [req.query.email]. *)
Definition lookup (st : State) (chance : Chance) (email : option string)
    : Response * State :=
  match simulated chance with
  | Some failure => (failure, st)
  | None =>
      match email with
      | Some email =>
          if negb (truthy email)
          then ({| status := 400;
                   body := JObj [("error", JStr "Email parameter is required")] |},
                st)
          else if negb (validateEmail email)
          then ({| status := 400;
                   body := JObj [("error", JStr "Invalid email format")] |}, st)
          else
            match leads st !! toLowerCase email with
            | Some lead =>
                ({| status := 200;
                    body := JObj [("found", JBool true); ("lead", leadJson lead)] |},
                 st)
            | None =>
                ({| status := 200; body := JObj [("found", JBool false)] |}, st)
            end
      | None =>
          ({| status := 400;
              body := JObj [("error", JStr "Email parameter is required")] |},
           st)
      end
  end.

(** [app.post('/api/leads/create', ...)] *)
Definition create (st : State) (chance : Chance) (leadData : Body)
    : Response * State :=
  match simulated chance with
  | Some failure => (failure, st)
  | None =>
      let validation := validateLeadData leadData in
      if negb validation.1
      then ({| status := 400;
               body := JObj [("error", JStr "Validation failed");
                             ("details", errorsJson validation.2)] |}, st)
      else
        let email := toLowerCase (default "" (bodyEmail leadData)) in
        if bool_decide (is_Some (leads st !! email))
        then ({| status := 409;
                 body := JObj [("error", JStr "Lead already exists");
                               ("message",
                                JStr "A lead with this email address already exists")] |},
              st)
        else
          let newLead :=
            {| id := pretty (nextId st);
               name := trim (default "" (bodyName leadData));
               email := email;
               company := trim (default "" (bodyCompany leadData));
               source := default "" (bodySource leadData);
               createdAt := now chance;
               updatedAt := None |} in
          ({| status := 201;
              body := JObj [("success", JBool true); ("lead", leadJson newLead)] |},
           {| leads := <[email := newLead]> (leads st);
              nextId := nextId st + 1 |})
  end.

(** [app.post('/api/leads/update', ...)] *)
Definition update (st : State) (chance : Chance) (updateData : Body)
    : Response * State :=
  match simulated chance with
  | Some failure => (failure, st)
  | None =>
      if match bodyEmail updateData with
         | None => true
         | Some e => negb (truthy e) || negb (validateEmail e)
         end
      then ({| status := 400;
               body := JObj [("error", JStr "Valid email is required")] |}, st)
      else
        let key := toLowerCase (default "" (bodyEmail updateData)) in
        match leads st !! key with
        | None =>
            ({| status := 404;
                body := JObj [("error", JStr "Lead not found");
                              ("message",
                               JStr "No lead found with the provided email address")] |},
             st)
        | Some existingLead =>
            let fieldsToValidate :=
              {| bodyName := bodyName updateData;
                 bodyCompany := bodyCompany updateData;
                 bodySource := bodySource updateData;
                 bodyEmail := bodyEmail updateData |} in
            let validation := validateLeadData fieldsToValidate in
            if negb validation.1
            then ({| status := 400;
                     body := JObj [("error", JStr "Validation failed");
                                   ("details", errorsJson validation.2)] |}, st)
            else
              let updatedLead :=
                {| id := id existingLead;
                   name := match bodyName updateData with
                           | Some n => trim n
                           | None => name existingLead
                           end;
                   email := email existingLead;
                   company := match bodyCompany updateData with
                              | Some c => trim c
                              | None => company existingLead
                              end;
                   source := match bodySource updateData with
                             | Some s => s
                             | None => source existingLead
                             end;
                   createdAt := createdAt existingLead;
                   updatedAt := Some (now chance) |} in
              ({| status := 200;
                  body := JObj [("success", JBool true);
                                ("lead", leadJson updatedLead)] |},
               {| leads := <[key := updatedLead]> (leads st);
                  nextId := nextId st |})
        end
  end.

(** A request to one of the three routes. *)
Inductive Call : Type :=
| Lookup (email : option string)
| Create (leadData : Body)
| Update (updateData : Body).

Definition handle (st : State) (chance : Chance) (call : Call)
    : Response * State :=
  match call with
  | Lookup email => lookup st chance email
  | Create leadData => create st chance leadData
  | Update updateData => update st chance updateData
  end.

(** The store after a sequence of requests. *)
Fixpoint run (st : State) (calls : list (Chance * Call)) : State :=
  match calls with
  | [] => st
  | (chance, call) :: rest => run (handle st chance call).2 rest
  end.

(** [leads.size], which [app.get('/api/health', ...)] reports as
    [leadsCount] and [app.get('/api/leads', ...)] as [count]. *)
Definition leadsCount (st : State) : Z := Z.of_nat (size (leads st)).

(** [app.get('/api/health', ...)]; this route simulates no failure. *)
Definition health (st : State) (chance : Chance) : Response :=
  {| status := 200;
     body := JObj [("status", JStr "healthy");
                   ("timestamp", JStr (now chance));
                   ("leadsCount", JNum (pretty (leadsCount st)))] |}.

(** What the store keeps true: a lead is stored under its own e-mail, which
    is in lower case and matches the pattern; its name and company are
    trimmed and not empty; its source is a listed one; its id is the numeral
    of a number below [nextId]; and no two leads share an id. *)
Definition consistent (st : State) : Prop :=
  1 ≤ nextId st
  ∧ (∀ key lead,
     leads st !! key = Some lead →
     email lead = key
     ∧ toLowerCase key = key
     ∧ validateEmail key = true
     ∧ trim (name lead) = name lead ∧ name lead ≠ ""
     ∧ trim (company lead) = company lead ∧ company lead ≠ ""
     ∧ source lead ∈ validSources
     ∧ ∃ n, id lead = pretty n ∧ 1 ≤ n < nextId st)
  ∧ (∀ key1 key2 lead1 lead2,
       leads st !! key1 = Some lead1 → leads st !! key2 = Some lead2 →
       id lead1 = id lead2 → key1 = key2).

(** Nothing is simulated; the clock shows [now]. *)
Definition quiet (now : string) : Chance :=
  {| rateLimit := false; serverError := false; now := now |}.

(** The body a client sends when it posts a [Lead]. *)
Definition bodyOf (lead : Validator.Lead) : Body :=
  {| bodyName := Some (Validator.name lead);
     bodyEmail := Some (Validator.email lead);
     bodyCompany := Some (Validator.company lead);
     bodySource := Some (Validator.source lead) |}.

(** The four fields of a stored lead that make a [Lead]. *)
Definition asLead (lead : StoredLead) : Validator.Lead :=
  {| Validator.name := name lead; Validator.email := email lead;
     Validator.company := company lead; Validator.source := source lead |}.

(** A lead as the store keeps it after [create]. *)
Definition stored (nextId : Z) (now : string) (lead : Validator.Lead)
    : StoredLead :=
  {| id := pretty nextId;
     name := trim (Validator.name lead);
     email := toLowerCase (Validator.email lead);
     company := trim (Validator.company lead);
     source := Validator.source lead;
     createdAt := now;
     updatedAt := None |}.

(** A stored lead after [update] with the fields of [lead]. *)
Definition revised (existing : StoredLead) (now : string)
    (lead : Validator.Lead) : StoredLead :=
  {| id := id existing;
     name := trim (Validator.name lead);
     email := email existing;
     company := trim (Validator.company lead);
     source := Validator.source lead;
     createdAt := createdAt existing;
     updatedAt := Some now |}.

End Server.

(* ===================================================================== *)
(** ** The client talking to the sample server                            *)
(* ===================================================================== *)

(** The remote of a run is the sample server: it listens at [base], which
    is also the value of [API_BASE_URL]; [chances n] is what it draws for
    the [n]-th request it serves; its store is [st0] when the trace is
    empty.  axios hands the query parameter and the body over as they are,
    resolves with the body of a response whose status lies in 200..299 and
    rejects with [rejection response] otherwise.  [elsewhere] is what is
    answered at other paths, which never touch the store. *)
Module World.
Import Js Remote.
Import Validator (Lead).

Section WithServer.
Variable base : string.
Variable nodeEnv : option string.
Variable chances : nat → Server.Chance.
Variable rejection : Server.Response → thrown.
Variable elsewhere : request → Server.Response.

Definition route (r : request) : option Server.Call :=
  match r with
  | Get url email =>
      if bool_decide (url = base +:+ "/api/leads/lookup")
      then Some (Server.Lookup (Some email))
      else None
  | Post url lead =>
      if bool_decide (url = base +:+ "/api/leads/create")
      then Some (Server.Create (Server.bodyOf lead))
      else if bool_decide (url = base +:+ "/api/leads/update")
      then Some (Server.Update (Server.bodyOf lead))
      else None
  end.

(** The response to the [n]-th request, and the store after it. *)
Definition serve (st : Server.State) (n : nat) (r : request)
    : Server.Response * Server.State :=
  match route r with
  | Some call => Server.handle st (chances n) call
  | None => (elsewhere r, st)
  end.

(** The store after the requests of a trace, and their number. *)
Fixpoint after (t : trace) (st : Server.State) (n : nat) : Server.State * nat :=
  match t with
  | [] => (st, n)
  | Sent r :: t' => after t' (serve st n r).2 (S n)
  | Slept _ :: t' => after t' st n
  end.

Definition answer (st0 : Server.State) (t : trace) (r : request) : reply :=
  match after t st0 0 with
  | (st, n) =>
      let response := (serve st n r).1 in
      if (200 <=? Server.status response) && (Server.status response <? 300)
      then Resolved (Server.body response)
      else Rejected (rejection response)
  end.

Definition env (st0 : Server.State) : Env :=
  {| API_BASE_URL := Some base; NODE_ENV := nodeEnv; axios := answer st0 |}.

End WithServer.

(** The store holds [lead] as [create] and [update] leave it: under its
    lower-cased e-mail, with name and company trimmed. *)
Definition holds (st : Server.State) (lead : Lead) : Prop :=
  ∃ existing,
    Server.leads st !! toLowerCase (Validator.email lead) = Some existing
    ∧ Server.name existing = trim (Validator.name lead)
    ∧ toLowerCase (Server.email existing) = toLowerCase (Validator.email lead)
    ∧ Server.company existing = trim (Validator.company lead)
    ∧ Server.source existing = Validator.source lead.

End World.

(* ===================================================================== *)
(** ** src/unnamed/part_003: the command line                             *)
(* ===================================================================== *)

(** [main()], as far as its exit code goes: what is logged and printed is
    left out.  [parseCSVFile] is the reader; [env] is the environment of the
    client, which read [API_BASE_URL] when its module was loaded, before
    [main] assigns to it. *)
Module Main.
Import Js Remote.
Import Validator (Lead).

Section WithReader.
Variable parseCSVFile : string → result (list Lead).
Variable env : Env.

(** The value is the code handed to [process.exit]. *)
Definition main (file : string) : M trace Z :=
  tryCatch
    (let! leads := lift (parseCSVFile file) in
     let! out := LeadProcessor.processLeads env leads in
     if (0 <? LeadProcessor.errors (LeadProcessor.summary out))%nat
     then ret 1
     else ret 0)
    (λ err, ret 1).

End WithReader.
End Main.

(* ===================================================================== *)
(** ** Leads and remotes for the examples                                 *)
(* ===================================================================== *)

Module Fixtures.
Import Js Remote.
Import Validator (Lead).

Definition jane : Lead :=
  {| Validator.name := "Jane Doe"; Validator.email := "jane@example.com";
     Validator.company := "Acme Corp"; Validator.source := "LinkedIn" |}.

(** The same person, written with capitals in the e-mail. *)
Definition janeShouting : Lead :=
  {| Validator.name := "Jane Doe"; Validator.email := "JANE@Example.com";
     Validator.company := "Acme Corp"; Validator.source := "LinkedIn" |}.

(** A row with Jane's e-mail and no name. *)
Definition nameless : Lead :=
  {| Validator.name := ""; Validator.email := "jane@example.com";
     Validator.company := "Acme Corp"; Validator.source := "LinkedIn" |}.

(** The invalid lead of the unit tests, with a second violation. *)
Definition bademail : Lead :=
  {| Validator.name := "Jane Doe"; Validator.email := "bademail";
     Validator.company := "Acme Corp"; Validator.source := "TikTok" |}.

(** Jane as the remote knows her. *)
Definition janeOld : Lead :=
  {| Validator.name := "Jane Doe"; Validator.email := "jane@example.com";
     Validator.company := "Old Corp"; Validator.source := "LinkedIn" |}.

(** What axios rejects with on a response whose status is [st]. *)
Definition axiosError (st : Z) : thrown :=
  {| instanceofError := true; isAxiosError := true; code := None;
     status := Some st;
     message := "Request failed with status code " +:+ pretty st;
     shown := "AxiosError: Request failed with status code " +:+ pretty st |}.

(** The client of [apiClient.ts] behind the interface the split version of
    the processor is written against. *)
Definition clientOf (env : Env) : LeadProcessor2.Client :=
  {| LeadProcessor2.lookup := ApiClient.lookupLead env;
     LeadProcessor2.create := ApiClient.createLead env;
     LeadProcessor2.update := ApiClient.updateLead env |}.

(** A remote that is down: every request is answered with status 500. *)
Definition down : Env :=
  {| API_BASE_URL := None; NODE_ENV := None;
     axios := λ _ _, Rejected (axiosError 500) |}.

(** A remote that knows nobody and accepts every creation. *)
Definition empty : Env :=
  {| API_BASE_URL := None; NODE_ENV := Some "test";
     axios := λ _ r,
       match r with
       | Get _ _ => Resolved (JObj [("found", JBool false)])
       | Post _ body =>
           Resolved (JObj [("success", JBool true);
                           ("lead", ApiClient.leadObject body)])
       end |}.

(** A remote that answers every lookup with status 404. *)
Definition unknown404 : Env :=
  {| API_BASE_URL := None; NODE_ENV := Some "test";
     axios := λ _ _, Rejected (axiosError 404) |}.

(** A remote whose replies carry no lead: an object without name and
    e-mail to a lookup, [null] to a mutation. *)
Definition garbled : Env :=
  {| API_BASE_URL := None; NODE_ENV := Some "test";
     axios := λ _ r,
       match r with
       | Get _ _ => Resolved (JObj [("foo", JStr "bar")])
       | Post _ _ => Resolved JNull
       end |}.

(** A remote that holds Jane without company and source. *)
Definition sparse : Env :=
  {| API_BASE_URL := None; NODE_ENV := Some "test";
     axios := λ _ _,
       Resolved (JObj [("found", JBool true);
                       ("lead", JObj [("name", JStr "Jane Doe");
                                      ("email", JStr "jane@example.com")])]) |}.

(** A remote that holds the leads of [store] under their lower-cased
    e-mails, as the sample server does, and accepts every mutation. *)
Definition holding (store : list Lead) : Env :=
  {| API_BASE_URL := None; NODE_ENV := Some "test";
     axios := λ _ r,
       match r with
       | Get _ email =>
           match List.find (λ l, bool_decide (Validator.email l = toLowerCase email))
                   store with
           | Some l =>
               Resolved (JObj [("found", JBool true);
                               ("lead", ApiClient.leadObject l)])
           | None => Resolved (JObj [("found", JBool false)])
           end
       | Post _ body =>
           Resolved (JObj [("success", JBool true);
                           ("lead", ApiClient.leadObject body)])
       end |}.

(** A remote that answers the requests it receives, in order, with the
    replies of [script], and with [afterwards] once the script is used up. *)
Definition scripted (script : list reply) (afterwards : reply) : Env :=
  {| API_BASE_URL := None; NODE_ENV := Some "test";
     axios := λ t _,
       nth (length (List.filter
                      (λ e, match e with Sent _ => true | Slept _ => false end) t))
         script afterwards |}.

(** A timeout of the connection, as axios reports it. *)
Definition timeout (code : string) : thrown :=
  {| instanceofError := true; isAxiosError := true; code := Some code;
     status := None; message := "timeout of 0ms exceeded";
     shown := "AxiosError: timeout of 0ms exceeded" |}.

Definition withEmail (email : string) (l : Lead) : Lead :=
  {| Validator.name := Validator.name l; Validator.email := email;
     Validator.company := Validator.company l;
     Validator.source := Validator.source l |}.

Definition withName (name : string) (l : Lead) : Lead :=
  {| Validator.name := name; Validator.email := Validator.email l;
     Validator.company := Validator.company l;
     Validator.source := Validator.source l |}.

Definition withCompany (company : string) (l : Lead) : Lead :=
  {| Validator.name := Validator.name l; Validator.email := Validator.email l;
     Validator.company := company;
     Validator.source := Validator.source l |}.

Definition withSource (source : string) (l : Lead) : Lead :=
  {| Validator.name := Validator.name l; Validator.email := Validator.email l;
     Validator.company := Validator.company l;
     Validator.source := source |}.

(** A remote that holds [existing] under every e-mail and answers every
    mutation with status [st]. *)
Definition refusing (existing : Lead) (st : Z) : Env :=
  {| API_BASE_URL := None; NODE_ENV := Some "test";
     axios := λ _ r,
       match r with
       | Get _ _ =>
           Resolved (JObj [("found", JBool true);
                           ("lead", ApiClient.leadObject existing)])
       | Post _ _ => Rejected (axiosError st)
       end |}.

End Fixtures.

(* ===================================================================== *)
(** ** Properties                                                         *)
(* ===================================================================== *)

Import Js Remote ApiClient Props.
Import Validator (Lead, validateLead, normalizeCompany).

(** *** The retry loop *)

Section RetryFacts.
Variable env : Env.
Context {A : Type}.
Variable fn : M trace A.

Lemma withRetryFrom_ok n k last t a t' :
  fn t = (Ok a, t') →
  withRetryFrom env fn (S n) k last t = (Ok a, t').
Proof. intros H. simpl. unfold tryCatch. by rewrite H. Qed.

Lemma withRetryFrom_fatal n k last t e t' :
  fn t = (Throw e, t') → isRetryable e = false →
  withRetryFrom env fn (S n) k last t = (Throw e, t').
Proof. intros H He. simpl. unfold tryCatch. by rewrite H, He. Qed.

Lemma withRetryFrom_break n last t e t' :
  fn t = (Throw e, t') → isRetryable e = true →
  withRetryFrom env fn (S n) MAX_RETRIES last t
  = (Throw (exhausted (Some e)), t').
Proof. intros H He. simpl. unfold tryCatch. by rewrite H, He. Qed.

Lemma withRetryFrom_again n k last t e t' :
  fn t = (Throw e, t') → isRetryable e = true → k ≠ MAX_RETRIES →
  withRetryFrom env fn (S n) k last t
  = withRetryFrom env fn n (k + 1) (Some e) (t' ++ pause env k).
Proof.
  intros H He Hk. simpl. unfold tryCatch. rewrite H, He. simpl.
  destruct (Z.eqb_spec k MAX_RETRIES) as [|_]; [done|].
  unfold bind, pause, sleep, ret.
  destruct (0 <? BASE_DELAY env * 2 ^ (k - 1)); [done|].
  by rewrite app_nil_r.
Qed.

Lemma attempts_S r n k :
  attempts env r (S (S n)) k
  = [Sent r] ++ pause env k ++ attempts env r (S n) (k + 1).
Proof. done. Qed.

Lemma withRetryFrom_trace r iterations k last t :
  sendsOnce fn r → (1 ≤ iterations)%nat → k + Z.of_nat iterations = MAX_RETRIES + 1 →
  ∃ n, (1 ≤ n ≤ iterations)%nat
       ∧ (withRetryFrom env fn iterations k last t).2 = t ++ attempts env r n k.
Proof.
  intros Hone. revert k last t.
  induction iterations as [|m IH]; intros k last t Hm Hk; [lia|].
  specialize (Hone t) as Ht.
  destruct (fn t) as [[a|e] t'] eqn:Hfn; simpl in Ht; subst t'.
  - exists 1%nat. split; [lia|]. by erewrite withRetryFrom_ok.
  - destruct (isRetryable e) eqn:He.
    + destruct (decide (k = MAX_RETRIES)) as [->|Hne].
      * exists 1%nat. split; [lia|]. by erewrite withRetryFrom_break.
      * erewrite withRetryFrom_again by done.
        destruct (IH (k + 1) (Some e) ((t ++ [Sent r]) ++ pause env k))
          as (n & Hn & ->); [lia..|].
        exists (S n). split; [lia|].
        destruct n as [|n]; [lia|].
        rewrite attempts_S. by rewrite <- !app_assoc.
    + exists 1%nat. split; [lia|]. by erewrite withRetryFrom_fatal.
Qed.

Lemma withRetry_trace r t :
  sendsOnce fn r →
  ∃ n, (1 ≤ n ≤ 3)%nat ∧ (withRetry env fn t).2 = t ++ attempts env r n 1.
Proof.
  intros Hone. unfold withRetry.
  apply (withRetryFrom_trace r (Z.to_nat MAX_RETRIES) 1 None t Hone);
    unfold MAX_RETRIES; lia.
Qed.

(** A result comes from an attempt; a failure is either the failure of an
    attempt or the aggregate error. *)
Lemma withRetryFrom_ok_inv iterations k last t a t' :
  withRetryFrom env fn iterations k last t = (Ok a, t') →
  ∃ t0, fn t0 = (Ok a, t').
Proof.
  revert k last t. induction iterations as [|m IH]; intros k last t; [done|].
  simpl. unfold tryCatch.
  destruct (fn t) as [[a0|e] t0] eqn:Hfn.
  - intros [= -> ->]. by exists t.
  - destruct (isRetryable e); simpl; [|done].
    destruct (k =? MAX_RETRIES); [done|].
    unfold bind.
    destruct (0 <? BASE_DELAY env * 2 ^ (k - 1)); simpl; apply IH.
Qed.

End RetryFacts.

(** *** The three operations of the client *)

Section ClientFacts.
Variable env : Env.

Lemma send_trace r t : (send env r t).2 = t ++ [Sent r].
Proof. unfold send. by destruct (axios env t r). Qed.

Lemma lookupLeadOnce_sendsOnce email :
  sendsOnce (lookupLeadOnce env email) (Get (lookupUrl env) email).
Proof.
  intros t. unfold lookupLeadOnce, tryCatch, bind, send, lift, ret, throw.
  destruct (axios env t _) as [data|err]; simpl.
  - destruct (jsIn "found" data) as [b|e]; simpl.
    + destruct (b && isFalse (prop "found" data)); simpl; [done|].
      destruct (validateLeadResponse data) as [l|e]; simpl; [done|].
      by destruct (isAxiosError e && bool_decide (status e = Some 404)).
    + by destruct (isAxiosError e && bool_decide (status e = Some 404)).
  - by destruct (isAxiosError err && bool_decide (status err = Some 404)).
Qed.

Lemma createLeadOnce_sendsOnce lead :
  sendsOnce (createLeadOnce env lead) (Post (createUrl env) lead).
Proof.
  intros t. unfold createLeadOnce, bind, send, lift.
  destruct (axios env t _) as [data|err]; simpl; [|done].
  by destruct (validateLeadResponse data).
Qed.

Lemma updateLeadOnce_sendsOnce lead :
  sendsOnce (updateLeadOnce env lead) (Post (updateUrl env) lead).
Proof.
  intros t. unfold updateLeadOnce, bind, send, lift.
  destruct (axios env t _) as [data|err]; simpl; [|done].
  by destruct (validateLeadResponse data).
Qed.

Lemma lookupLead_trace email t :
  ∃ n, (1 ≤ n ≤ 3)%nat
       ∧ (lookupLead env email t).2
         = t ++ attempts env (Get (lookupUrl env) email) n 1.
Proof. apply withRetry_trace, lookupLeadOnce_sendsOnce. Qed.

Lemma createLead_trace lead t :
  ∃ n, (1 ≤ n ≤ 3)%nat
       ∧ (createLead env lead t).2
         = t ++ attempts env (Post (createUrl env) lead) n 1.
Proof. apply withRetry_trace, createLeadOnce_sendsOnce. Qed.

Lemma updateLead_trace lead t :
  ∃ n, (1 ≤ n ≤ 3)%nat
       ∧ (updateLead env lead t).2
         = t ++ attempts env (Post (updateUrl env) lead) n 1.
Proof. apply withRetry_trace, updateLeadOnce_sendsOnce. Qed.

Lemma attempts_head r n k :
  (1 ≤ n)%nat → ∃ rest, attempts env r n k = Sent r :: rest.
Proof. destruct n as [|[|n]]; [lia|by eexists..]. Qed.

Lemma pause_spec k :
  1 ≤ k →
  pause env k
  = if bool_decide (BASE_DELAY env = 0) then []
    else [Slept (BASE_DELAY env * 2 ^ (k - 1))].
Proof.
  intros Hk. unfold pause, BASE_DELAY.
  destruct (bool_decide (NODE_ENV env = Some "test")); simpl; [done|].
  destruct (Z.ltb_spec 0 (1000 * 2 ^ (k - 1))) as [|Hle]; [done|].
  assert (0 < 2 ^ (k - 1)) by (apply Z.pow_pos_nonneg; lia). lia.
Qed.

End ClientFacts.

(** *** Retry policy *)



(** C6, as the specification words it, fails on a 501: it lies in the 5xx
    class and is not retried. *)
Lemma status_501_is_not_retryable :
  ¬ (∀ e, isRetryable e = true
          ↔ timeoutClass e ∨ rateLimited e ∨ status5xx e).
Proof.
  intros H. specialize (H (Fixtures.axiosError 501)).
  destruct H as [_ H]. discriminate H.
  right. right. exists 501. split; [done|lia].
Qed.

Lemma includes_error_codes c :
  truthy c && includes RETRYABLE_ERROR_CODES c = true
  ↔ c = "ECONNABORTED" ∨ c = "ETIMEDOUT".
Proof.
  unfold includes, RETRYABLE_ERROR_CODES.
  rewrite andb_true_iff, bool_decide_eq_true, !elem_of_cons, elem_of_nil.
  split; [naive_solver|].
  intros [-> | ->]; split; auto.
Qed.

Lemma includes_status_codes st :
  negb (st =? 0) && includesZ RETRYABLE_STATUS_CODES st = true
  ↔ st = 429 ∨ st = 500 ∨ st = 502 ∨ st = 503 ∨ st = 504.
Proof.
  unfold includesZ, RETRYABLE_STATUS_CODES.
  rewrite andb_true_iff, bool_decide_eq_true, !elem_of_cons, elem_of_nil.
  split; [naive_solver|].
  intros Hst. split; [|naive_solver].
  destruct Hst as [-> | [-> | [-> | [-> | ->]]]]; done.
Qed.

Lemma isRetryable_spec e :
  isRetryable e = true
  ↔ timeoutClass e ∨ rateLimited e ∨ transientServerFailure e.
Proof.
  destruct e as [ie ia c st m sh].
  unfold isRetryable, timeoutClass, rateLimited, transientServerFailure. simpl.
  assert (match c with
          | Some c0 => truthy c0 && includes RETRYABLE_ERROR_CODES c0
          | None => false
          end = true ↔ c = Some "ECONNABORTED" ∨ c = Some "ETIMEDOUT") as Hc.
  { destruct c as [c|]; [|naive_solver].
    rewrite includes_error_codes. naive_solver. }
  assert (match st with
          | Some s => negb (s =? 0) && includesZ RETRYABLE_STATUS_CODES s
          | None => false
          end = true
          ↔ st = Some 429 ∨ st = Some 500 ∨ st = Some 502 ∨ st = Some 503
            ∨ st = Some 504) as Hs.
  { destruct st as [st|]; [|naive_solver].
    rewrite includes_status_codes. naive_solver. }
  destruct (match c with Some _ => _ | None => _ end);
    destruct (match st with Some _ => _ | None => _ end);
    naive_solver.
Qed.

(** C6, amended.  A failure is retryable exactly when its code is
    ECONNABORTED or ETIMEDOUT, or its status is 429, or its status is one of
    500, 502, 503, 504.  An attempt that fails with any other failure ends
    the call: the failure itself is thrown and the trace is the one that
    single attempt left, without a pause. *)
Theorem retryable_iff_listed_else_thrown_at_once (env : Env) :
  (∀ e, isRetryable e = true
        ↔ timeoutClass e ∨ rateLimited e ∨ transientServerFailure e)
  ∧ (∀ A (fn : M trace A) t e t',
       fn t = (Throw e, t') → isRetryable e = false →
       withRetry env fn t = (Throw e, t')).
Proof.
  split; [apply isRetryable_spec|].
  intros A fn t e t' Hfn He. by apply withRetryFrom_fatal.
Qed.

(** C6 at a creation the remote answers with status 400. *)
Lemma retryable_iff_listed_else_thrown_at_once_witness :
  createLead (Fixtures.refusing Fixtures.jane 400) Fixtures.jane []
  = (Throw (Fixtures.axiosError 400),
     [Sent (Post "http://localhost:3001/api/leads/create" Fixtures.jane)]).
Proof.
  apply (proj2 (retryable_iff_listed_else_thrown_at_once
                  (Fixtures.refusing Fixtures.jane 400)));
    reflexivity.
Defined.

(** *** The shape of a reply *)

Lemma validateLeadResponse_malformed data :
  exposesNameAndEmail data = false → validateLeadResponse data = Throw malformed.
Proof.
  destruct data as [| | | |items|props]; try done.
  unfold exposesNameAndEmail, validateLeadResponse, extractLeadFromResponse,
    unwrapLead, hasProp. simpl.
  destruct (assoc "lead" props) as [[| | | |inner|inner]|]; simpl;
    try (destruct (assoc "name" props), (assoc "email" props); done).
  destruct (assoc "name" inner), (assoc "email" inner); done.
Qed.

Lemma validateLeadResponse_nested props inner n e :
  assoc "lead" props = Some (JObj inner) →
  assoc "name" inner = Some n → assoc "email" inner = Some e →
  validateLeadResponse (JObj props)
  = Ok (leadObject
          {| Validator.name := toStr n;
             Validator.email := toStr e;
             Validator.company := toStrOrEmpty (assoc "company" inner);
             Validator.source := toStrOrEmpty (assoc "source" inner) |}).
Proof.
  intros Hl Hn He.
  unfold validateLeadResponse, extractLeadFromResponse, unwrapLead, hasProp.
  simpl. rewrite Hl. simpl. by rewrite Hn, He.
Qed.

Lemma validateLeadResponse_flat props :
  match assoc "lead" props with
  | Some l => isObject l = false
  | None => True
  end →
  is_Some (assoc "name" props) → is_Some (assoc "email" props) →
  validateLeadResponse (JObj props) = Ok (JObj props).
Proof.
  intros Hl [n Hn] [e He]. unfold validateLeadResponse, hasProp. simpl.
  rewrite Hn, He. simpl.
  destruct (assoc "lead" props) as [l|]; [by rewrite Hl|done].
Qed.

Lemma validateLeadResponse_accepted data :
  exposesNameAndEmail data = true → ∃ lead, validateLeadResponse data = Ok lead.
Proof.
  destruct data as [| | | |items|props]; try done.
  unfold exposesNameAndEmail.
  destruct (assoc "lead" props) as [l|] eqn:Hl.
  - destruct l as [| | | |inner|inner]; try done;
      try (intros [Hn He]%andb_prop;
           apply bool_decide_eq_true in Hn, He;
           eexists; apply validateLeadResponse_flat; by rewrite ?Hl).
    intros [Hn He]%andb_prop. apply bool_decide_eq_true in Hn as [n Hn].
    apply bool_decide_eq_true in He as [e He].
    eexists. by eapply validateLeadResponse_nested.
  - intros [Hn He]%andb_prop. apply bool_decide_eq_true in Hn, He.
    eexists. apply validateLeadResponse_flat; by rewrite ?Hl.
Qed.

Lemma validateLeadResponse_throws data e :
  validateLeadResponse data = Throw e → e = malformed.
Proof.
  destruct (exposesNameAndEmail data) eqn:Hx.
  - apply validateLeadResponse_accepted in Hx as [l ->]. done.
  - rewrite validateLeadResponse_malformed by done. by intros [= <-].
Qed.

Lemma malformed_not_retryable : isRetryable malformed = false.
Proof. reflexivity. Qed.

(** *** Lookup *)

Section LookupFacts.
Variable env : Env.
Variable email : string.

Lemma lookupLeadOnce_notFound t :
  notFoundSignal (axios env t (Get (lookupUrl env) email)) = true →
  lookupLeadOnce env email t = (Ok None, t ++ [Sent (Get (lookupUrl env) email)]).
Proof.
  unfold lookupLeadOnce, tryCatch, bind, send, notFoundSignal.
  destruct (axios env t _) as [data|err]; simpl.
  - intros Hf. destruct data as [| | | |items|props]; try done.
    unfold lift, jsIn, hasProp. simpl in *. rewrite Hf.
    by destruct (assoc "found" props).
  - by intros ->.
Qed.

Lemma lookupLeadOnce_notFound_inv t t' :
  lookupLeadOnce env email t = (Ok None, t') →
  t' = t ++ [Sent (Get (lookupUrl env) email)]
  ∧ notFoundSignal (axios env t (Get (lookupUrl env) email)) = true.
Proof.
  unfold lookupLeadOnce, tryCatch, bind, send, notFoundSignal, lift, ret, throw.
  destruct (axios env t _) as [data|err]; simpl.
  - destruct (jsIn "found" data) as [b|e] eqn:Hin; simpl.
    + destruct (b && isFalse (prop "found" data)) eqn:Hb; simpl.
      * apply andb_prop in Hb as [_ Hb]. by intros [= <-].
      * destruct (validateLeadResponse data) as [l|e] eqn:Hv; simpl; [done|].
        apply validateLeadResponse_throws in Hv as ->. done.
    + unfold jsIn in Hin. destruct (isObject data); [done|].
      injection Hin as <-. done.
  - destruct (isAxiosError err && bool_decide (status err = Some 404));
      [by intros [= <-]|done].
Qed.

Lemma lookupLeadOnce_rejected t err :
  axios env t (Get (lookupUrl env) email) = Rejected err →
  notFoundSignal (Rejected err) = false →
  lookupLeadOnce env email t
  = (Throw err, t ++ [Sent (Get (lookupUrl env) email)]).
Proof.
  unfold lookupLeadOnce, tryCatch, bind, send, notFoundSignal.
  intros -> Hs. simpl. by rewrite Hs.
Qed.

(** What an attempt makes of a reply that is neither a negative answer nor
    a reply that exposes name and e-mail. *)
Lemma lookupLeadOnce_malformed t data :
  axios env t (Get (lookupUrl env) email) = Resolved data →
  notFoundSignal (Resolved data) = false →
  exposesNameAndEmail data = false →
  ∃ e, lookupLeadOnce env email t
       = (Throw e, t ++ [Sent (Get (lookupUrl env) email)])
       ∧ isRetryable e = false ∧ instanceofError e = true
       ∧ isAxiosError e = false ∧ status e = None
       ∧ (isObject data = true → e = malformed).
Proof.
  unfold lookupLeadOnce, tryCatch, bind, send, notFoundSignal, lift, jsIn.
  intros -> Hs Hx. simpl.
  destruct (isObject data); simpl.
  - rewrite Hs, andb_false_r, validateLeadResponse_malformed by done. simpl.
    by exists malformed.
  - by eexists.
Qed.

End LookupFacts.

(** *** One turn of the loop *)

Section EngineFacts.
Import LeadProcessor.
Variable env : Env.

Lemma reconcileCatch_total lead e t :
  ∃ r, reconcileCatch lead e t = (Ok r, t) ∧ LeadProcessor.lead r = lead.
Proof.
  unfold reconcileCatch.
  destruct (bool_decide (status e = Some 409)); by eexists.
Qed.

Lemma reconcileTry_trace lead t :
  ∃ added,
    (reconcileTry env lead t).2
    = t ++ Sent (Get (lookupUrl env) (Validator.email lead)) :: added.
Proof.
  unfold reconcileTry, bind.
  destruct (lookupLead_trace env (Validator.email lead) t) as (n & Hn & Ht).
  destruct (attempts_head env (Get (lookupUrl env) (Validator.email lead)) n 1)
    as [rest Hrest]; [lia|].
  rewrite Hrest in Ht.
  destruct (lookupLead env (Validator.email lead) t) as [[[existing|]|e] t1];
    simpl in Ht; subst t1; simpl.
  - unfold lift. destruct (leadsMatch lead existing) as [[]|e]; simpl;
      try by eexists.
    destruct (updateLead_trace env lead
                (t ++ Sent (Get (lookupUrl env) (Validator.email lead)) :: rest))
      as (m & _ & Hu).
    destruct (updateLead env lead _) as [[u|e] t2]; simpl in *; subst t2;
      rewrite <- app_assoc; by eexists.
  - destruct (createLead_trace env lead
                (t ++ Sent (Get (lookupUrl env) (Validator.email lead)) :: rest))
      as (m & _ & Hc).
    destruct (createLead env lead _) as [[u|e] t2]; simpl in *; subst t2;
      rewrite <- app_assoc; by eexists.
  - by eexists.
Qed.

Lemma reconcileTry_lead lead t r t' :
  reconcileTry env lead t = (Ok r, t') → LeadProcessor.lead r = lead.
Proof.
  unfold reconcileTry, bind, lift, ret.
  destruct (lookupLead env _ t) as [[[existing|]|e] t1]; [| |done].
  - destruct (leadsMatch lead existing) as [[]|e]; simpl; [by intros [= <-]| |done].
    destruct (updateLead env lead t1) as [[u|e] t2]; [by intros [= <-]|done].
  - destruct (createLead env lead t1) as [[u|e] t2]; [by intros [= <-]|done].
Qed.

Lemma reconcile_total lead t :
  ∃ r added,
    reconcile env lead t
    = (Ok r, t ++ Sent (Get (lookupUrl env) (Validator.email lead)) :: added)
    ∧ LeadProcessor.lead r = lead.
Proof.
  unfold reconcile, tryCatch.
  destruct (reconcileTry_trace lead t) as [added Ht].
  destruct (reconcileTry env lead t) as [[r|e] t1] eqn:Htry;
    simpl in Ht; subst t1.
  - exists r, added. split; [done|]. by eapply reconcileTry_lead.
  - destruct (reconcileCatch_total lead e
                (t ++ Sent (Get (lookupUrl env) (Validator.email lead)) :: added))
      as (r & -> & Hr).
    by exists r, added.
Qed.

Lemma processLead_invalid seenEmails lead t :
  ¬ valid lead →
  processLead env seenEmails lead t
  = (Ok (seenEmails,
         {| lead := lead; action := Action.error;
            error := Some (join "; " (Validator.errors (validateLead lead))) |}),
     t).
Proof.
  unfold valid, processLead. intros Hv.
  by destruct (Validator.isValid (validateLead lead)).
Qed.

Lemma processLead_duplicate seenEmails lead t :
  valid lead → emailKey lead ∈ seenEmails →
  processLead env seenEmails lead t
  = (Ok (seenEmails, {| lead := lead; action := Action.skipped; error := None |}),
     t).
Proof.
  unfold valid, processLead, emailKey. intros -> Hin. simpl.
  by rewrite bool_decide_eq_true_2.
Qed.

Lemma processLead_fresh seenEmails lead t r t' :
  valid lead → emailKey lead ∉ seenEmails →
  reconcile env lead t = (Ok r, t') →
  processLead env seenEmails lead t
  = (Ok ({[emailKey lead]} ∪ seenEmails, r), t').
Proof.
  unfold valid, processLead, emailKey. intros -> Hin Hr. simpl.
  rewrite bool_decide_eq_false_2 by done. unfold bind. by rewrite Hr.
Qed.

Lemma processLead_total seenEmails lead t :
  ∃ seenEmails' r added,
    processLead env seenEmails lead t = (Ok (seenEmails', r), t ++ added)
    ∧ LeadProcessor.lead r = lead.
Proof.
  destruct (decide (valid lead)) as [Hv|Hv].
  - destruct (decide (emailKey lead ∈ seenEmails)) as [Hin|Hin].
    + rewrite processLead_duplicate by done.
      eexists _, _, []. by rewrite app_nil_r.
    + destruct (reconcile_total lead t) as (r & added & Hrec & Hr).
      erewrite processLead_fresh by done.
      by eexists _, _, _.
  - rewrite processLead_invalid by done.
    eexists _, _, []. by rewrite app_nil_r.
Qed.

Lemma forEachLead_turns leads seenEmails results t :
  forEachLead env leads seenEmails results t
  = (Ok (results ++ (turns env leads seenEmails t).*1),
     t ++ concat (turns env leads seenEmails t).*2)
  ∧ LeadProcessor.lead <$> (turns env leads seenEmails t).*1 = leads.
Proof.
  revert seenEmails results t.
  induction leads as [|lead rest IH]; intros seenEmails results t;
    cbn [forEachLead turns].
  - by rewrite !app_nil_r.
  - unfold bind.
    destruct (processLead_total seenEmails lead t)
      as (seenEmails' & r & added & -> & Hr).
    destruct (IH seenEmails' (results ++ [r]) (t ++ added)) as [-> Hl].
    rewrite drop_app_length, !fmap_cons, Hl. cbn [fst snd concat].
    by rewrite Hr, <- !app_assoc.
Qed.

Lemma processLead_seen seenEmails lead t seenEmails' r t' :
  processLead env seenEmails lead t = (Ok (seenEmails', r), t') →
  ∀ key, key ∈ seenEmails'
         ↔ key ∈ seenEmails ∨ (valid lead ∧ key = emailKey lead).
Proof.
  intros Hp key.
  destruct (decide (valid lead)) as [Hv|Hv].
  - destruct (decide (emailKey lead ∈ seenEmails)) as [Hin|Hin].
    + rewrite processLead_duplicate in Hp by done.
      injection Hp as <- _ _. naive_solver.
    + destruct (reconcile_total lead t) as (r0 & added & Hrec & _).
      erewrite processLead_fresh in Hp by done.
      injection Hp as <- _ _. set_solver.
  - rewrite processLead_invalid in Hp by done.
    injection Hp as <- _ _. naive_solver.
Qed.

(** The [i]-th turn, by what came before it. *)
Lemma turns_lookup leads seenEmails t i lead r added :
  leads !! i = Some lead →
  turns env leads seenEmails t !! i = Some (r, added) →
  (¬ valid lead → r = rejected lead ∧ added = [])
  ∧ (valid lead →
     (emailKey lead ∈ seenEmails
      ∨ ∃ j earlier, (j < i)%nat ∧ leads !! j = Some earlier
                     ∧ valid earlier ∧ emailKey earlier = emailKey lead) →
     r = skippedResult lead ∧ added = [])
  ∧ (valid lead → emailKey lead ∉ seenEmails →
     (∀ j earlier, (j < i)%nat → leads !! j = Some earlier →
                   valid earlier → emailKey earlier ≠ emailKey lead) →
     ∃ rest, added = Sent (Get (lookupUrl env) (Validator.email lead)) :: rest).
Proof.
  revert seenEmails t i.
  induction leads as [|first others IH]; intros seenEmails t i; [done|].
  cbn [turns].
  destruct (processLead_total seenEmails first t)
    as (seenEmails' & r0 & added0 & Hp & Hr0).
  rewrite Hp, drop_app_length.
  destruct i as [|i]; simpl.
  - intros [= ->] [= -> ->]. split_and!.
    + intros Hv. rewrite processLead_invalid in Hp by done.
      injection Hp as _ <- Ht.
      split; [done|]. by eapply app_inv_head; rewrite app_nil_r.
    + intros Hv [Hin|(j & ? & ? & _)]; [|lia].
      rewrite processLead_duplicate in Hp by done.
      injection Hp as _ <- Ht.
      split; [done|]. by eapply app_inv_head; rewrite app_nil_r.
    + intros Hv Hin _.
      destruct (reconcile_total lead t) as (r1 & rest & Hrec & _).
      erewrite processLead_fresh in Hp by done.
      injection Hp as _ _ Ht. apply app_inv_head in Ht. by exists rest.
  - intros Hl Ht.
    pose proof (processLead_seen _ _ _ _ _ _ Hp) as Hseen.
    destruct (IH seenEmails' (t ++ added0) i Hl Ht) as (I1 & I2 & I3).
    split_and!; [done|..].
    + intros Hv [Hin|(j & earlier & Hj & Hearlier & Hve & Hk)]; apply I2;
        try done.
      * left. apply Hseen. by left.
      * destruct j as [|j]; simpl in Hearlier.
        -- injection Hearlier as ->. left. apply Hseen. by right.
        -- right. exists j, earlier. split_and!; [lia|done..].
    + intros Hv Hin Hnone. apply I3; [done|..].
      * rewrite Hseen. intros [?|[Hvf Hk]]; [done|].
        by apply (Hnone 0%nat first); [lia|..].
      * intros j earlier Hj Hearlier. apply (Hnone (S j)); [lia|done].
Qed.

End EngineFacts.

(** *** The summary *)






(** *** The split version of the processor *)

Section Engine2Facts.
Import LeadProcessor2.
Context {client : Client}.



Lemma processOneLead_invalid lead s :
  ¬ valid lead →
  processOneLead lead s
  = (Ok (createResult lead Action.error "Validation failed"
           (Some (Validator.errors (validateLead lead)))), s).
Proof.
  unfold valid, processOneLead. intros Hv.
  by destruct (Validator.isValid (validateLead lead)).
Qed.

Lemma processOneLead_duplicate lead processedEmails t :
  valid lead → emailKey lead ∈ processedEmails →
  processOneLead lead (processedEmails, t)
  = (Ok (createResult lead Action.skipped "Duplicate email in batch"
           (Some ["Duplicate email in batch"])), (processedEmails, t)).
Proof.
  unfold valid, processOneLead, emailKey. intros -> Hin. simpl.
  unfold bind, has. by rewrite bool_decide_eq_true_2.
Qed.

Lemma processOneLead_fresh lead processedEmails t :
  valid lead → emailKey lead ∉ processedEmails →
  processOneLead lead (processedEmails, t)
  = match lookup (Validator.email lead) t with
    | (Ok (Some existingLead), t1) =>
        handleExistingLead lead existingLead
          ({[emailKey lead]} ∪ processedEmails, t1)
    | (Ok None, t1) =>
        handleNewLead lead ({[emailKey lead]} ∪ processedEmails, t1)
    | (Throw e, t1) =>
        (Ok (createResult lead Action.error "API lookup failed"
               (Some [getErrorMessage e])),
         ({[emailKey lead]} ∪ processedEmails, t1))
    end.
Proof.
  unfold valid, processOneLead, emailKey. intros -> Hin. simpl.
  unfold bind, has, add, tryCatch, call.
  rewrite bool_decide_eq_false_2 by done.
  by destruct (lookup (Validator.email lead) t) as [[[existing|]|e] t1].
Qed.



End Engine2Facts.


(** *** Validation *)

Lemma validateLead_errors lead :
  let errs := Validator.errors (validateLead lead) in
  ("Name is required" ∈ errs ↔ Validator.isEmpty (Validator.name lead) = true)
  ∧ ("Company is required" ∈ errs
     ↔ Validator.isEmpty (Validator.company lead) = true)
  ∧ ("Invalid email format" ∈ errs
     ↔ negb (truthy (Validator.email lead))
       || negb (test Validator.EMAIL_REGEX (Validator.email lead)) = true)
  ∧ ("Source is required" ∈ errs
     ↔ Validator.isEmpty (Validator.source lead) = true)
  ∧ ("Source must be one of: LinkedIn, Webinar, Website, Conference, Referral, Twitter"
       ∈ errs
     ↔ Validator.isEmpty (Validator.source lead) = false
       ∧ includes Validator.VALID_SOURCES (Validator.source lead) = false).
Proof.
  unfold validateLead. cbn [Validator.errors].
  change ("Source must be one of: " +:+ join ", " Validator.VALID_SOURCES)
    with "Source must be one of: LinkedIn, Webinar, Website, Conference, Referral, Twitter".
  destruct (Validator.isEmpty (Validator.name lead));
    destruct (Validator.isEmpty (Validator.company lead));
    destruct (negb (truthy (Validator.email lead))
              || negb (test Validator.EMAIL_REGEX (Validator.email lead)));
    destruct (Validator.isEmpty (Validator.source lead));
    destruct (includes Validator.VALID_SOURCES (Validator.source lead));
    cbn [negb app];
    rewrite ?elem_of_cons, ?elem_of_nil;
    split_and!; split; intros; naive_solver.
Qed.

Lemma validateLead_invalid_has_message lead :
  ¬ valid lead → Validator.errors (validateLead lead) ≠ [].
Proof.
  unfold valid, validateLead. cbn [Validator.isValid Validator.errors].
  intros Hv Hnil. apply Hv. by rewrite Hnil.
Qed.

(** *** Validation gate and duplicates within a batch *)

(** C2.  A lead that fails validation is answered without touching the
    remote: the turn leaves the trace (and the set of seen keys) as they
    were and pushes a result with action "error" whose message joins all
    the messages of the validator; and the validator reports a message for
    each rule that is violated, not only for the first one. *)
Theorem invalid_lead_rejected_with_all_messages (env : Env) (lead : Lead) :
  ¬ valid lead →
  (∀ seenEmails t,
     LeadProcessor.processLead env seenEmails lead t
     = (Ok (seenEmails, rejected lead), t))
  ∧ (∀ leads t i r added,
       leads !! i = Some lead →
       turns env leads ∅ t !! i = Some (r, added) →
       r = rejected lead ∧ added = [])
  ∧ LeadProcessor.action (rejected lead) = Action.error
  ∧ LeadProcessor.error (rejected lead)
    = Some (join "; " (Validator.errors (validateLead lead)))
  ∧ Validator.errors (validateLead lead) ≠ []
  ∧ ("Name is required" ∈ Validator.errors (validateLead lead)
     ↔ Validator.isEmpty (Validator.name lead) = true)
  ∧ ("Company is required" ∈ Validator.errors (validateLead lead)
     ↔ Validator.isEmpty (Validator.company lead) = true)
  ∧ ("Invalid email format" ∈ Validator.errors (validateLead lead)
     ↔ negb (truthy (Validator.email lead))
       || negb (test Validator.EMAIL_REGEX (Validator.email lead)) = true)
  ∧ ("Source is required" ∈ Validator.errors (validateLead lead)
     ↔ Validator.isEmpty (Validator.source lead) = true)
  ∧ ("Source must be one of: LinkedIn, Webinar, Website, Conference, Referral, Twitter"
       ∈ Validator.errors (validateLead lead)
     ↔ Validator.isEmpty (Validator.source lead) = false
       ∧ includes Validator.VALID_SOURCES (Validator.source lead) = false).
Proof.
  intros Hv. split_and!; try done.
  - intros seenEmails t. by apply processLead_invalid.
  - intros leads t i r added Hl Ht.
    by apply (turns_lookup env leads ∅ t i lead r added Hl Ht).
  - by apply validateLead_invalid_has_message.
  - apply validateLead_errors.
  - apply validateLead_errors.
  - apply validateLead_errors.
  - apply validateLead_errors.
  - apply validateLead_errors.
Qed.

(** C2 at the lead with the e-mail "bademail" and an unknown source. *)
Lemma invalid_lead_rejected_with_all_messages_witness :
  LeadProcessor.processLead Fixtures.empty ∅ Fixtures.bademail []
  = (Ok (∅, rejected Fixtures.bademail), [])
  ∧ LeadProcessor.error (rejected Fixtures.bademail)
    = Some "Invalid email format; Source must be one of: LinkedIn, Webinar, Website, Conference, Referral, Twitter"
  ∧ (turns Fixtures.empty [Fixtures.jane; Fixtures.bademail] ∅ []).*2 !! 1%nat
    = Some [].
Proof.
  assert (¬ valid Fixtures.bademail) as Hv by (vm_compute; discriminate).
  destruct (invalid_lead_rejected_with_all_messages Fixtures.empty
              Fixtures.bademail Hv) as (Hstep & Hbatch & _ & Herr & _).
  split_and!; [apply Hstep|by rewrite Herr|].
  destruct (turns Fixtures.empty [Fixtures.jane; Fixtures.bademail] ∅ [] !! 1%nat)
    as [[r added]|] eqn:Hturn; [|by vm_compute in Hturn].
  destruct (Hbatch [Fixtures.jane; Fixtures.bademail] [] 1%nat r added eq_refl Hturn)
    as [_ ->].
  by rewrite list_lookup_fmap, Hturn.
Defined.

(** C1, as the specification words it, fails when the first occurrence of
    a key is a row that fails validation: that row is answered without a
    lookup and the key is not remembered, so the second occurrence is
    not skipped; it is the one that reaches the remote. *)
Lemma rejected_first_occurrence_is_not_remembered :
  emailKey Fixtures.nameless = emailKey Fixtures.jane
  ∧ turns Fixtures.empty [Fixtures.nameless; Fixtures.jane] ∅ []
    = [({| LeadProcessor.lead := Fixtures.nameless;
           LeadProcessor.action := Action.error;
           LeadProcessor.error := Some "Name is required" |}, []);
       ({| LeadProcessor.lead := Fixtures.jane;
           LeadProcessor.action := Action.created;
           LeadProcessor.error := None |},
        [Sent (Get "http://localhost:3001/api/leads/lookup" "jane@example.com");
         Sent (Post "http://localhost:3001/api/leads/create" Fixtures.jane)])]
  ∧ (LeadProcessor.processLeads Fixtures.empty
       [Fixtures.nameless; Fixtures.jane] []).2
    = [Sent (Get "http://localhost:3001/api/leads/lookup" "jane@example.com");
       Sent (Post "http://localhost:3001/api/leads/create" Fixtures.jane)].
Proof. split_and!; by vm_compute. Qed.

(** C1, amended.  Within a batch, turn by turn: a lead that fails
    validation is rejected without any request; a valid lead whose key
    (the lower-cased e-mail) is the key of an earlier valid lead of the
    batch is skipped without any request, whatever became of that earlier
    lead; and a valid lead with no earlier valid lead of the same key starts
    its turn with the lookup request.  The results and the trace of
    [processLeads] are those of the turns, in order.  In the split version
    of the processor a turn does the same with the shared set. *)
Theorem first_valid_occurrence_reaches_remote_later_ones_skipped
    (env : Env) (client : LeadProcessor2.Client)
    (leads : list Lead) (t : trace) (i : nat) (lead : Lead)
    (r : LeadProcessor.ProcessResult) (added : trace) :
  leads !! i = Some lead →
  turns env leads ∅ t !! i = Some (r, added) →
  LeadProcessor.processLeads env leads t
  = (Ok {| LeadProcessor.results := (turns env leads ∅ t).*1;
           LeadProcessor.summary :=
             LeadProcessor.summarize (turns env leads ∅ t).*1 |},
     t ++ concat (turns env leads ∅ t).*2)
  ∧ (¬ valid lead → r = rejected lead ∧ added = [])
  ∧ (valid lead →
     (∃ j earlier, (j < i)%nat ∧ leads !! j = Some earlier
                   ∧ valid earlier ∧ emailKey earlier = emailKey lead) →
     r = skippedResult lead ∧ added = [])
  ∧ (valid lead →
     (∀ j earlier, (j < i)%nat → leads !! j = Some earlier →
                   valid earlier → emailKey earlier ≠ emailKey lead) →
     ∃ rest, added = Sent (Get (lookupUrl env) (Validator.email lead)) :: rest)
  ∧ (∀ s, ¬ valid lead →
          LeadProcessor2.processOneLead lead s
          = (Ok (LeadProcessor2.createResult lead Action.error
                   "Validation failed"
                   (Some (Validator.errors (validateLead lead)))), s))
  ∧ (∀ processedEmails t0,
       valid lead → emailKey lead ∈ processedEmails →
       LeadProcessor2.processOneLead lead (processedEmails, t0)
       = (Ok (LeadProcessor2.createResult lead Action.skipped
                "Duplicate email in batch" (Some ["Duplicate email in batch"])),
          (processedEmails, t0)))
  ∧ (∀ processedEmails t0,
       valid lead → emailKey lead ∉ processedEmails →
       LeadProcessor2.processOneLead lead (processedEmails, t0)
       = match LeadProcessor2.lookup (Validator.email lead) t0 with
         | (Ok (Some existingLead), t1) =>
             LeadProcessor2.handleExistingLead lead existingLead
               ({[emailKey lead]} ∪ processedEmails, t1)
         | (Ok None, t1) =>
             LeadProcessor2.handleNewLead lead
               ({[emailKey lead]} ∪ processedEmails, t1)
         | (Throw e, t1) =>
             (Ok (LeadProcessor2.createResult lead Action.error
                    "API lookup failed"
                    (Some [LeadProcessor2.getErrorMessage e])),
              ({[emailKey lead]} ∪ processedEmails, t1))
         end).
Proof.
  intros Hl Ht.
  destruct (turns_lookup env leads ∅ t i lead r added Hl Ht) as (T1 & T2 & T3).
  split_and!.
  - unfold LeadProcessor.processLeads, bind.
    destruct (forEachLead_turns env leads ∅ [] t) as [-> _].
    by rewrite app_nil_l.
  - done.
  - intros Hv Hearlier. apply T2; [done|by right].
  - intros Hv Hnone. apply T3; [done|set_solver|done].
  - intros s Hv. by apply processOneLead_invalid.
  - intros processedEmails t0 Hv Hin. by apply processOneLead_duplicate.
  - intros processedEmails t0 Hv Hin. by apply processOneLead_fresh.
Qed.

(** C1 at the batch [jane; JANE]: the second row is skipped without a
    request; so is it in the split version once the key is in the set. *)
Lemma first_valid_occurrence_reaches_remote_later_ones_skipped_witness :
  turns Fixtures.empty [Fixtures.jane; Fixtures.janeShouting] ∅ [] !! 1%nat
  = Some (skippedResult Fixtures.janeShouting, [])
  ∧ (turns Fixtures.empty [Fixtures.jane; Fixtures.janeShouting] ∅ []).*2
    = [[Sent (Get "http://localhost:3001/api/leads/lookup" "jane@example.com");
        Sent (Post "http://localhost:3001/api/leads/create" Fixtures.jane)];
       []]
  ∧ (∃ rest,
       [Sent (Get "http://localhost:3001/api/leads/lookup" "jane@example.com");
        Sent (Post "http://localhost:3001/api/leads/create" Fixtures.jane)]
       = Sent (Get (lookupUrl Fixtures.empty) "jane@example.com") :: rest)
  ∧ turns Fixtures.empty [Fixtures.nameless; Fixtures.jane] ∅ [] !! 0%nat
    = Some (rejected Fixtures.nameless, [])
  ∧ LeadProcessor2.processOneLead (client := Fixtures.clientOf Fixtures.empty)
      Fixtures.nameless (∅, [])
    = (Ok (LeadProcessor2.createResult Fixtures.nameless Action.error
             "Validation failed" (Some ["Name is required"])), (∅, []))
  ∧ LeadProcessor2.processOneLead (client := Fixtures.clientOf Fixtures.empty)
      Fixtures.janeShouting ({["jane@example.com"]}, [])
    = (Ok (LeadProcessor2.createResult Fixtures.janeShouting Action.skipped
             "Duplicate email in batch" (Some ["Duplicate email in batch"])),
       ({["jane@example.com"]}, []))
  ∧ LeadProcessor2.processOneLead (client := Fixtures.clientOf Fixtures.empty)
      Fixtures.jane (∅, [])
    = LeadProcessor2.handleNewLead (client := Fixtures.clientOf Fixtures.empty)
        Fixtures.jane
        ({["jane@example.com"]} ∪ ∅,
         [Sent (Get "http://localhost:3001/api/leads/lookup" "jane@example.com")]).
Proof.
  assert (valid Fixtures.jane) as Hjane by reflexivity.
  assert (valid Fixtures.janeShouting) as Hv by reflexivity.
  assert (¬ valid Fixtures.nameless) as Hnameless by (vm_compute; discriminate).
  destruct (first_valid_occurrence_reaches_remote_later_ones_skipped
              Fixtures.empty (Fixtures.clientOf Fixtures.empty)
              [Fixtures.jane; Fixtures.janeShouting] [] 1
              Fixtures.janeShouting (skippedResult Fixtures.janeShouting) []
              eq_refl eq_refl)
    as (_ & _ & Hskip & _ & _ & Hsplit & _).
  destruct (first_valid_occurrence_reaches_remote_later_ones_skipped
              Fixtures.empty (Fixtures.clientOf Fixtures.empty)
              [Fixtures.jane; Fixtures.janeShouting] [] 0
              Fixtures.jane
              {| LeadProcessor.lead := Fixtures.jane;
                 LeadProcessor.action := Action.created;
                 LeadProcessor.error := None |}
              [Sent (Get "http://localhost:3001/api/leads/lookup" "jane@example.com");
               Sent (Post "http://localhost:3001/api/leads/create" Fixtures.jane)]
              eq_refl eq_refl)
    as (_ & _ & _ & Hfirst & _ & _ & Hfresh).
  destruct (turns Fixtures.empty [Fixtures.nameless; Fixtures.jane] ∅ [] !! 0%nat)
    as [[r0 added0]|] eqn:Hturn; [|by vm_compute in Hturn].
  destruct (first_valid_occurrence_reaches_remote_later_ones_skipped
              Fixtures.empty (Fixtures.clientOf Fixtures.empty)
              [Fixtures.nameless; Fixtures.jane] [] 0
              Fixtures.nameless r0 added0 eq_refl Hturn)
    as (_ & Hrejected & _ & _ & Hinvalid & _).
  destruct (Hskip Hv) as [_ _].
  { exists 0%nat, Fixtures.jane. split_and!; [lia|reflexivity|done|reflexivity]. }
  split_and!.
  - reflexivity.
  - reflexivity.
  - apply (Hfirst Hjane). intros j earlier Hj. lia.
  - by destruct (Hrejected Hnameless) as [-> ->].
  - by apply Hinvalid.
  - apply Hsplit; [done|]. apply elem_of_singleton. reflexivity.
  - by apply Hfresh; [|apply not_elem_of_empty].
Defined.

(** *** A record the remote already holds *)

Lemma leadObject_represents e : represents (leadObject e) e.
Proof. by repeat split. Qed.

Lemma leadsMatch_equal incoming existing e :
  represents existing e → normalizedEqual incoming e →
  LeadProcessor.leadsMatch incoming existing = Ok true.
Proof.
  intros (Rn & Re & Rc & Rs) (Hn & He & Hc & Hs).
  unfold LeadProcessor.leadsMatch, strictEq, callStringMethod, rbind.
  rewrite Rn, Re, Rc, Rs, Hn, He, Hc, Hs, !bool_decide_eq_true_2 by done. done.
Qed.

Lemma leadsMatch_differs incoming existing e :
  represents existing e → ¬ normalizedEqual incoming e →
  LeadProcessor.leadsMatch incoming existing = Ok false.
Proof.
  intros (Rn & Re & Rc & Rs) Hne.
  unfold LeadProcessor.leadsMatch, strictEq, callStringMethod, rbind.
  rewrite Rn, Re, Rc, Rs.
  repeat (case_bool_decide; cbn [negb]; try done).
  by destruct Hne.
Qed.

(** The split version compares the four fields as they are. *)
Lemma leadsAreIdentical_raw existing e incoming :
  represents existing e →
  LeadProcessor2.leadsAreIdentical existing incoming = true ↔ incoming = e.
Proof.
  intros (Rn & Re & Rc & Rs).
  unfold LeadProcessor2.leadsAreIdentical, strictEq. cbn [forallb].
  rewrite Rn, Re, Rc, Rs, !andb_true_iff, !bool_decide_eq_true.
  destruct incoming, e; simpl. naive_solver.
Qed.

Section FoundFacts.
Import LeadProcessor.
Variable env : Env.

Lemma reconcile_identical lead existing t t1 :
  lookupLead env (Validator.email lead) t = (Ok (Some existing), t1) →
  leadsMatch lead existing = Ok true →
  reconcile env lead t = (Ok (skippedResult lead), t1).
Proof.
  intros Hl Hm. unfold reconcile, tryCatch, reconcileTry, bind, lift.
  by rewrite Hl, Hm.
Qed.

Lemma reconcile_updated lead existing t t1 u t2 :
  lookupLead env (Validator.email lead) t = (Ok (Some existing), t1) →
  leadsMatch lead existing = Ok false →
  updateLead env lead t1 = (Ok u, t2) →
  reconcile env lead t
  = (Ok {| lead := lead; action := Action.updated; error := None |}, t2).
Proof.
  intros Hl Hm Hu. unfold reconcile, tryCatch, reconcileTry, bind, lift.
  by rewrite Hl, Hm; simpl; rewrite Hu.
Qed.

Lemma reconcile_update_failed lead existing t t1 e t2 :
  lookupLead env (Validator.email lead) t = (Ok (Some existing), t1) →
  leadsMatch lead existing = Ok false →
  updateLead env lead t1 = (Throw e, t2) →
  reconcile env lead t
  = (Ok (if bool_decide (status e = Some 409) then skippedResult lead
         else {| lead := lead; action := Action.error;
                 error := Some (messageOf e) |}), t2).
Proof.
  intros Hl Hm Hu.
  unfold reconcile, tryCatch, reconcileTry, reconcileCatch, bind, lift.
  rewrite Hl, Hm; simpl; rewrite Hu.
  by destruct (bool_decide (status e = Some 409)).
Qed.

Lemma reconcile_create_failed lead t t1 e t2 :
  lookupLead env (Validator.email lead) t = (Ok None, t1) →
  createLead env lead t1 = (Throw e, t2) →
  reconcile env lead t
  = (Ok (if bool_decide (status e = Some 409) then skippedResult lead
         else {| lead := lead; action := Action.error;
                 error := Some (messageOf e) |}), t2).
Proof.
  intros Hl Hc.
  unfold reconcile, tryCatch, reconcileTry, reconcileCatch, bind, lift.
  rewrite Hl, Hc.
  by destruct (bool_decide (status e = Some 409)).
Qed.

Lemma reconcile_lookup_failed lead t e t1 :
  lookupLead env (Validator.email lead) t = (Throw e, t1) →
  reconcile env lead t
  = (Ok (if bool_decide (status e = Some 409) then skippedResult lead
         else {| lead := lead; action := Action.error;
                 error := Some (messageOf e) |}), t1).
Proof.
  intros Hl.
  unfold reconcile, tryCatch, reconcileTry, reconcileCatch, bind, lift.
  rewrite Hl.
  by destruct (bool_decide (status e = Some 409)).
Qed.

End FoundFacts.

Section Found2Facts.
Import LeadProcessor2.
Context {client : Client}.

Lemma processOneLead_identical lead existing processedEmails t t1 :
  valid lead → emailKey lead ∉ processedEmails →
  lookup (Validator.email lead) t = (Ok (Some existing), t1) →
  leadsAreIdentical existing lead = true →
  processOneLead lead (processedEmails, t)
  = (Ok (createResult lead Action.skipped "Lead data identical" None),
     ({[emailKey lead]} ∪ processedEmails, t1)).
Proof.
  intros Hv Hin Hl Hsame. rewrite processOneLead_fresh, Hl by done.
  unfold handleExistingLead. by rewrite Hsame.
Qed.

Lemma processOneLead_updated lead existing processedEmails t t1 u t2 :
  valid lead → emailKey lead ∉ processedEmails →
  lookup (Validator.email lead) t = (Ok (Some existing), t1) →
  leadsAreIdentical existing lead = false →
  update lead t1 = (Ok u, t2) →
  processOneLead lead (processedEmails, t)
  = (Ok (createResult lead Action.updated "Lead updated successfully" None),
     ({[emailKey lead]} ∪ processedEmails, t2)).
Proof.
  intros Hv Hin Hl Hsame Hu. rewrite processOneLead_fresh, Hl by done.
  unfold handleExistingLead, tryCatch, bind, call. by rewrite Hsame, Hu.
Qed.

Lemma processOneLead_update_failed lead existing processedEmails t t1 e t2 :
  valid lead → emailKey lead ∉ processedEmails →
  lookup (Validator.email lead) t = (Ok (Some existing), t1) →
  leadsAreIdentical existing lead = false →
  update lead t1 = (Throw e, t2) →
  processOneLead lead (processedEmails, t)
  = (Ok (createResult lead Action.error "API update failed"
           (Some [getErrorMessage e])),
     ({[emailKey lead]} ∪ processedEmails, t2)).
Proof.
  intros Hv Hin Hl Hsame Hu. rewrite processOneLead_fresh, Hl by done.
  unfold handleExistingLead, tryCatch, bind, call. by rewrite Hsame, Hu.
Qed.

End Found2Facts.

(** C3, as the specification words it, fails in three ways.  When the
    update call fails: the remote holds Jane with another company and
    answers the update with status 400; the result is an error, not an
    update.  When the record found does not carry the four fields: the
    remote answers the lookup with Jane's record without a company (a flat
    reply, which is returned as it is); the comparison throws, the result is
    an error and no update is sent.  And in the split version of the
    processor, which compares the fields as they are: the remote holds Jane,
    the incoming row spells her e-mail with capitals, the normalised fields
    are equal and an update is sent. *)
Lemma found_record_not_updated_when_update_fails_or_compared_raw :
  (valid Fixtures.jane
   ∧ lookupLead (Fixtures.refusing Fixtures.janeOld 400) "jane@example.com" []
     = (Ok (Some (leadObject Fixtures.janeOld)),
        [Sent (Get "http://localhost:3001/api/leads/lookup" "jane@example.com")])
   ∧ ¬ normalizedEqual Fixtures.jane Fixtures.janeOld
   ∧ LeadProcessor.processLeads (Fixtures.refusing Fixtures.janeOld 400)
       [Fixtures.jane] []
     = (Ok {| LeadProcessor.results :=
                [{| LeadProcessor.lead := Fixtures.jane;
                    LeadProcessor.action := Action.error;
                    LeadProcessor.error :=
                      Some "Request failed with status code 400" |}];
              LeadProcessor.summary :=
                {| LeadProcessor.total := 1; LeadProcessor.created := 0;
                   LeadProcessor.updated := 0; LeadProcessor.skipped := 0;
                   LeadProcessor.errors := 1 |} |},
        [Sent (Get "http://localhost:3001/api/leads/lookup" "jane@example.com");
         Sent (Post "http://localhost:3001/api/leads/update" Fixtures.jane)]))
  ∧ (valid Fixtures.jane
     ∧ lookupLead
         (Fixtures.scripted []
            (Resolved (JObj [("name", JStr "Jane Doe");
                             ("email", JStr "jane@example.com");
                             ("source", JStr "LinkedIn")])))
         "jane@example.com" []
       = (Ok (Some (JObj [("name", JStr "Jane Doe");
                          ("email", JStr "jane@example.com");
                          ("source", JStr "LinkedIn")])),
          [Sent (Get "http://localhost:3001/api/leads/lookup" "jane@example.com")])
     ∧ LeadProcessor.processLeads
         (Fixtures.scripted []
            (Resolved (JObj [("name", JStr "Jane Doe");
                             ("email", JStr "jane@example.com");
                             ("source", JStr "LinkedIn")])))
         [Fixtures.jane] []
       = (Ok {| LeadProcessor.results :=
                  [{| LeadProcessor.lead := Fixtures.jane;
                      LeadProcessor.action := Action.error;
                      LeadProcessor.error :=
                        Some "Cannot read properties of undefined (reading 'trim')" |}];
                LeadProcessor.summary :=
                  {| LeadProcessor.total := 1; LeadProcessor.created := 0;
                     LeadProcessor.updated := 0; LeadProcessor.skipped := 0;
                     LeadProcessor.errors := 1 |} |},
          [Sent (Get "http://localhost:3001/api/leads/lookup" "jane@example.com")]))
  ∧ (valid Fixtures.janeShouting
     ∧ normalizedEqual Fixtures.janeShouting Fixtures.jane
     ∧ LeadProcessor2.processOneLead
         (client := Fixtures.clientOf (Fixtures.holding [Fixtures.jane]))
         Fixtures.janeShouting (∅, [])
       = (Ok (LeadProcessor2.createResult Fixtures.janeShouting Action.updated
                "Lead updated successfully" None),
          ({["jane@example.com"]} ∪ ∅,
           [Sent (Get "http://localhost:3001/api/leads/lookup" "JANE@Example.com");
            Sent (Post "http://localhost:3001/api/leads/update"
                    Fixtures.janeShouting)]))).
Proof.
  split_and!; try by vm_compute.
  intros (_ & _ & Hc & _). vm_compute in Hc. discriminate.
Qed.

(** C3, amended.  For a valid lead whose key has not been seen and whose
    lookup returns a record of the remote that carries the four fields as
    strings: the lookup has left one to three lookup requests in the trace;
    if the four normalised fields are equal the lead is skipped and nothing
    more is sent; if one of them differs, what follows in the trace is one
    to three update requests for the lead, the result is "updated" when the
    update call succeeds and, when it fails, an error with the message of
    the failure (or "skipped" when its status is 409).  The split version of
    the processor does the same with the four fields compared as they are:
    skipped when they are equal, and otherwise the update is called after
    the lookup, with the result "updated" when it succeeds and the error
    "API update failed" when it fails, whatever the status. *)
Theorem found_record_skipped_if_equal_else_update_after_lookup
    (env : Env) (client : LeadProcessor2.Client) (seenEmails : gset string)
    (lead : Lead) (existing : json) (held : Lead) (t t1 : trace) :
  valid lead → emailKey lead ∉ seenEmails → represents existing held →
  (lookupLead env (Validator.email lead) t = (Ok (Some existing), t1) →
   (∃ n, (1 ≤ n ≤ 3)%nat
         ∧ t1 = t ++ attempts env (Get (lookupUrl env) (Validator.email lead)) n 1)
   ∧ (normalizedEqual lead held →
      LeadProcessor.processLead env seenEmails lead t
      = (Ok ({[emailKey lead]} ∪ seenEmails, skippedResult lead), t1))
   ∧ (¬ normalizedEqual lead held →
      (∃ m, (1 ≤ m ≤ 3)%nat
            ∧ (LeadProcessor.processLead env seenEmails lead t).2
              = t1 ++ attempts env (Post (updateUrl env) lead) m 1)
      ∧ (∀ u t2, updateLead env lead t1 = (Ok u, t2) →
           LeadProcessor.processLead env seenEmails lead t
           = (Ok ({[emailKey lead]} ∪ seenEmails,
                  {| LeadProcessor.lead := lead;
                     LeadProcessor.action := Action.updated;
                     LeadProcessor.error := None |}), t2))
      ∧ (∀ e t2, updateLead env lead t1 = (Throw e, t2) →
           LeadProcessor.processLead env seenEmails lead t
           = (Ok ({[emailKey lead]} ∪ seenEmails,
                  if bool_decide (status e = Some 409) then skippedResult lead
                  else {| LeadProcessor.lead := lead;
                          LeadProcessor.action := Action.error;
                          LeadProcessor.error := Some (messageOf e) |}), t2))))
  ∧ (LeadProcessor2.lookup (Validator.email lead) t = (Ok (Some existing), t1) →
     (lead = held →
      LeadProcessor2.processOneLead lead (seenEmails, t)
      = (Ok (LeadProcessor2.createResult lead Action.skipped
               "Lead data identical" None),
         ({[emailKey lead]} ∪ seenEmails, t1)))
     ∧ (lead ≠ held →
        (∀ u t2, LeadProcessor2.update lead t1 = (Ok u, t2) →
           LeadProcessor2.processOneLead lead (seenEmails, t)
           = (Ok (LeadProcessor2.createResult lead Action.updated
                    "Lead updated successfully" None),
              ({[emailKey lead]} ∪ seenEmails, t2)))
        ∧ (∀ e t2, LeadProcessor2.update lead t1 = (Throw e, t2) →
             LeadProcessor2.processOneLead lead (seenEmails, t)
             = (Ok (LeadProcessor2.createResult lead Action.error
                      "API update failed"
                      (Some [LeadProcessor2.getErrorMessage e])),
                ({[emailKey lead]} ∪ seenEmails, t2))))).
Proof.
  intros Hv Hin Hrep. split.
  - intros Hl. split_and!.
    + destruct (lookupLead_trace env (Validator.email lead) t) as (n & Hn & Ht).
      rewrite Hl in Ht. by exists n.
    + intros Heq. eapply processLead_fresh; [done..|].
      eapply reconcile_identical; [done|]. by eapply leadsMatch_equal.
    + intros Hne. eapply leadsMatch_differs in Hne; [|done]. split_and!.
      * destruct (updateLead_trace env lead t1) as (m & Hm & Ht).
        exists m. split; [done|].
        destruct (updateLead env lead t1) as [[u|e] t2] eqn:Hu; simpl in Ht;
          subst t2.
        -- erewrite processLead_fresh; [done..|].
           by eapply reconcile_updated.
        -- erewrite processLead_fresh; [done..|].
           by eapply reconcile_update_failed.
      * intros u t2 Hu. eapply processLead_fresh; [done..|].
        by eapply reconcile_updated.
      * intros e t2 Hu. eapply processLead_fresh; [done..|].
        by eapply reconcile_update_failed.
  - intros Hl.
    assert (lead ≠ held → LeadProcessor2.leadsAreIdentical existing lead = false)
      as Hraw.
    { intros Hne. apply not_true_is_false.
      by rewrite (leadsAreIdentical_raw _ _ _ Hrep). }
    split_and!.
    + intros Heq. eapply processOneLead_identical; [done..|].
      by eapply leadsAreIdentical_raw.
    + intros Hne. split.
      * intros u t2 Hu.
        eapply processOneLead_updated; [done..|by apply Hraw|done].
      * intros e t2 Hu.
        eapply processOneLead_update_failed; [done..|by apply Hraw|done].
Qed.

(** C3 at Jane written with capitals, whom the remote holds as she is; at
    Jane, whom the remote holds with another company, with an update that
    succeeds and with one the remote answers with status 400; and in the
    split version, at Jane, whom the remote holds as she is, and at Jane
    held with another company, again with both answers to the update. *)
Lemma found_record_skipped_if_equal_else_update_after_lookup_witness :
  LeadProcessor.processLead (Fixtures.refusing Fixtures.jane 400) ∅
    Fixtures.janeShouting []
  = (Ok ({["jane@example.com"]} ∪ ∅, skippedResult Fixtures.janeShouting),
     [Sent (Get "http://localhost:3001/api/leads/lookup" "JANE@Example.com")])
  ∧ (∃ m, (1 ≤ m ≤ 3)%nat
          ∧ (LeadProcessor.processLead (Fixtures.refusing Fixtures.janeOld 400) ∅
               Fixtures.jane []).2
            = [Sent (Get "http://localhost:3001/api/leads/lookup" "jane@example.com")]
              ++ attempts (Fixtures.refusing Fixtures.janeOld 400)
                   (Post "http://localhost:3001/api/leads/update" Fixtures.jane)
                   m 1)
  ∧ LeadProcessor.processLead (Fixtures.holding [Fixtures.janeOld]) ∅
      Fixtures.jane []
    = (Ok ({["jane@example.com"]} ∪ ∅,
           {| LeadProcessor.lead := Fixtures.jane;
              LeadProcessor.action := Action.updated;
              LeadProcessor.error := None |}),
       [Sent (Get "http://localhost:3001/api/leads/lookup" "jane@example.com");
        Sent (Post "http://localhost:3001/api/leads/update" Fixtures.jane)])
  ∧ LeadProcessor.processLead (Fixtures.refusing Fixtures.janeOld 400) ∅
      Fixtures.jane []
    = (Ok ({["jane@example.com"]} ∪ ∅,
           {| LeadProcessor.lead := Fixtures.jane;
              LeadProcessor.action := Action.error;
              LeadProcessor.error :=
                Some "Request failed with status code 400" |}),
       [Sent (Get "http://localhost:3001/api/leads/lookup" "jane@example.com");
        Sent (Post "http://localhost:3001/api/leads/update" Fixtures.jane)])
  ∧ LeadProcessor2.processOneLead
      (client := Fixtures.clientOf (Fixtures.holding [Fixtures.jane]))
      Fixtures.jane (∅, [])
    = (Ok (LeadProcessor2.createResult Fixtures.jane Action.skipped
             "Lead data identical" None),
       ({["jane@example.com"]} ∪ ∅,
        [Sent (Get "http://localhost:3001/api/leads/lookup" "jane@example.com")]))
  ∧ LeadProcessor2.processOneLead
      (client := Fixtures.clientOf (Fixtures.holding [Fixtures.janeOld]))
      Fixtures.jane (∅, [])
    = (Ok (LeadProcessor2.createResult Fixtures.jane Action.updated
             "Lead updated successfully" None),
       ({["jane@example.com"]} ∪ ∅,
        [Sent (Get "http://localhost:3001/api/leads/lookup" "jane@example.com");
         Sent (Post "http://localhost:3001/api/leads/update" Fixtures.jane)]))
  ∧ LeadProcessor2.processOneLead
      (client := Fixtures.clientOf (Fixtures.refusing Fixtures.janeOld 400))
      Fixtures.jane (∅, [])
    = (Ok (LeadProcessor2.createResult Fixtures.jane Action.error
             "API update failed"
             (Some ["Request failed with status code 400"])),
       ({["jane@example.com"]} ∪ ∅,
        [Sent (Get "http://localhost:3001/api/leads/lookup" "jane@example.com");
         Sent (Post "http://localhost:3001/api/leads/update" Fixtures.jane)])).
Proof.
  assert (¬ normalizedEqual Fixtures.jane Fixtures.janeOld) as Hne.
  { intros (_ & _ & Hc & _). vm_compute in Hc. discriminate. }
  split_and!.
  - apply (found_record_skipped_if_equal_else_update_after_lookup
             (Fixtures.refusing Fixtures.jane 400)
             (Fixtures.clientOf (Fixtures.refusing Fixtures.jane 400)) ∅
             Fixtures.janeShouting (leadObject Fixtures.jane) Fixtures.jane []
             [Sent (Get "http://localhost:3001/api/leads/lookup" "JANE@Example.com")]);
      [reflexivity|apply not_elem_of_empty|apply leadObject_represents
      |reflexivity|].
    repeat split; reflexivity.
  - apply (found_record_skipped_if_equal_else_update_after_lookup
             (Fixtures.refusing Fixtures.janeOld 400)
             (Fixtures.clientOf (Fixtures.refusing Fixtures.janeOld 400)) ∅
             Fixtures.jane (leadObject Fixtures.janeOld) Fixtures.janeOld []
             [Sent (Get "http://localhost:3001/api/leads/lookup" "jane@example.com")]);
      [reflexivity|apply not_elem_of_empty|apply leadObject_represents
      |reflexivity|exact Hne].
  - apply (found_record_skipped_if_equal_else_update_after_lookup
             (Fixtures.holding [Fixtures.janeOld])
             (Fixtures.clientOf (Fixtures.holding [Fixtures.janeOld])) ∅
             Fixtures.jane (leadObject Fixtures.janeOld) Fixtures.janeOld []
             [Sent (Get "http://localhost:3001/api/leads/lookup" "jane@example.com")])
      with (u := leadObject Fixtures.jane);
      [reflexivity|apply not_elem_of_empty|apply leadObject_represents
      |reflexivity|exact Hne|reflexivity].
  - refine (proj2 (proj2 (proj2 (proj2 (proj1
              (found_record_skipped_if_equal_else_update_after_lookup
                 (Fixtures.refusing Fixtures.janeOld 400)
                 (Fixtures.clientOf (Fixtures.refusing Fixtures.janeOld 400)) ∅
                 Fixtures.jane (leadObject Fixtures.janeOld) Fixtures.janeOld []
                 [Sent (Get "http://localhost:3001/api/leads/lookup"
                          "jane@example.com")] _ _ _) _)) Hne))
              (Fixtures.axiosError 400) _ _);
      [reflexivity|apply not_elem_of_empty|apply leadObject_represents
      |reflexivity|reflexivity].
  - apply (found_record_skipped_if_equal_else_update_after_lookup
             (Fixtures.holding [Fixtures.jane])
             (Fixtures.clientOf (Fixtures.holding [Fixtures.jane])) ∅
             Fixtures.jane (leadObject Fixtures.jane) Fixtures.jane []
             [Sent (Get "http://localhost:3001/api/leads/lookup" "jane@example.com")]);
      [reflexivity|apply not_elem_of_empty|apply leadObject_represents
      |reflexivity|reflexivity].
  - apply (found_record_skipped_if_equal_else_update_after_lookup
             (Fixtures.holding [Fixtures.janeOld])
             (Fixtures.clientOf (Fixtures.holding [Fixtures.janeOld])) ∅
             Fixtures.jane (leadObject Fixtures.janeOld) Fixtures.janeOld []
             [Sent (Get "http://localhost:3001/api/leads/lookup" "jane@example.com")])
      with (u := leadObject Fixtures.jane);
      [reflexivity|apply not_elem_of_empty|apply leadObject_represents
      |reflexivity|discriminate|reflexivity].
  - refine (proj2 (proj2 (proj2
              (found_record_skipped_if_equal_else_update_after_lookup
                 (Fixtures.refusing Fixtures.janeOld 400)
                 (Fixtures.clientOf (Fixtures.refusing Fixtures.janeOld 400)) ∅
                 Fixtures.jane (leadObject Fixtures.janeOld) Fixtures.janeOld []
                 [Sent (Get "http://localhost:3001/api/leads/lookup"
                          "jane@example.com")] _ _ _) _) _)
              (Fixtures.axiosError 400) _ _);
      [reflexivity|apply not_elem_of_empty|apply leadObject_represents
      |reflexivity|discriminate|reflexivity].
Defined.

(** *** Failures of a mutation *)

Section MutationFacts.
Variable env : Env.

Lemma updateLeadOnce_rejected lead t err :
  axios env t (Post (updateUrl env) lead) = Rejected err →
  updateLeadOnce env lead t = (Throw err, t ++ [Sent (Post (updateUrl env) lead)]).
Proof. intros H. unfold updateLeadOnce, bind, send. by rewrite H. Qed.

Lemma createLeadOnce_rejected lead t err :
  axios env t (Post (createUrl env) lead) = Rejected err →
  createLeadOnce env lead t = (Throw err, t ++ [Sent (Post (createUrl env) lead)]).
Proof. intros H. unfold createLeadOnce, bind, send. by rewrite H. Qed.

Lemma updateLeadOnce_malformed lead t data :
  axios env t (Post (updateUrl env) lead) = Resolved data →
  exposesNameAndEmail data = false →
  updateLeadOnce env lead t
  = (Throw malformed, t ++ [Sent (Post (updateUrl env) lead)]).
Proof.
  intros H Hx. unfold updateLeadOnce, bind, send, lift. rewrite H.
  by rewrite validateLeadResponse_malformed.
Qed.

Lemma createLeadOnce_malformed lead t data :
  axios env t (Post (createUrl env) lead) = Resolved data →
  exposesNameAndEmail data = false →
  createLeadOnce env lead t
  = (Throw malformed, t ++ [Sent (Post (createUrl env) lead)]).
Proof.
  intros H Hx. unfold createLeadOnce, bind, send, lift. rewrite H.
  by rewrite validateLeadResponse_malformed.
Qed.

Lemma conflict_not_retryable err :
  status err = Some 409 → ¬ timeoutClass err → isRetryable err = false.
Proof.
  intros Hs Ht. apply not_true_is_false. rewrite isRetryable_spec.
  unfold rateLimited, transientServerFailure. rewrite Hs. naive_solver.
Qed.

End MutationFacts.

(** C4.  For a valid lead whose key has not been seen, whose lookup
    returns a record and whose comparison with it says "differs": when the
    update call fails, the result is an error carrying the message of the
    failure, unless the failure carries the response status 409, in which
    case the result is "skipped", as for a duplicate.  A 409 with which the
    remote answers the update request is thrown by [updateLead] as it is,
    after that one request. *)
Theorem failed_update_is_error_unless_conflict
    (env : Env) (seenEmails : gset string) (lead : Lead) (existing : json)
    (t t1 t2 : trace) (e : thrown) :
  valid lead → emailKey lead ∉ seenEmails →
  lookupLead env (Validator.email lead) t = (Ok (Some existing), t1) →
  LeadProcessor.leadsMatch lead existing = Ok false →
  updateLead env lead t1 = (Throw e, t2) →
  LeadProcessor.processLead env seenEmails lead t
  = (Ok ({[emailKey lead]} ∪ seenEmails,
         if bool_decide (status e = Some 409) then skippedResult lead
         else {| LeadProcessor.lead := lead;
                 LeadProcessor.action := Action.error;
                 LeadProcessor.error := Some (messageOf e) |}), t2)
  ∧ (∀ err,
       axios env t1 (Post (updateUrl env) lead) = Rejected err →
       status err = Some 409 → ¬ timeoutClass err →
       e = err ∧ t2 = t1 ++ [Sent (Post (updateUrl env) lead)]).
Proof.
  intros Hv Hin Hl Hm Hu. split.
  - eapply processLead_fresh; [done..|]. by eapply reconcile_update_failed.
  - intros err Hax Hs Ht.
    unfold updateLead, withRetry in Hu.
    change (Z.to_nat MAX_RETRIES) with 3%nat in Hu.
    erewrite withRetryFrom_fatal in Hu;
      [|by apply updateLeadOnce_rejected|by apply conflict_not_retryable].
    by injection Hu as <- <-.
Qed.

(** C4 at Jane, whom the remote holds with another company, the update
    being answered with status 409, and then with status 400. *)
Lemma failed_update_is_error_unless_conflict_witness :
  LeadProcessor.processLead (Fixtures.refusing Fixtures.janeOld 409) ∅
    Fixtures.jane []
  = (Ok ({["jane@example.com"]} ∪ ∅, skippedResult Fixtures.jane),
     [Sent (Get "http://localhost:3001/api/leads/lookup" "jane@example.com");
      Sent (Post "http://localhost:3001/api/leads/update" Fixtures.jane)])
  ∧ LeadProcessor.processLead (Fixtures.refusing Fixtures.janeOld 400) ∅
      Fixtures.jane []
    = (Ok ({["jane@example.com"]} ∪ ∅,
           {| LeadProcessor.lead := Fixtures.jane;
              LeadProcessor.action := Action.error;
              LeadProcessor.error := Some "Request failed with status code 400" |}),
       [Sent (Get "http://localhost:3001/api/leads/lookup" "jane@example.com");
        Sent (Post "http://localhost:3001/api/leads/update" Fixtures.jane)])
  ∧ (updateLead (Fixtures.refusing Fixtures.janeOld 409) Fixtures.jane
       [Sent (Get "http://localhost:3001/api/leads/lookup" "jane@example.com")]).2
    = [Sent (Get "http://localhost:3001/api/leads/lookup" "jane@example.com")]
      ++ [Sent (Post (updateUrl (Fixtures.refusing Fixtures.janeOld 409))
                  Fixtures.jane)].
Proof.
  destruct (failed_update_is_error_unless_conflict
              (Fixtures.refusing Fixtures.janeOld 409) ∅ Fixtures.jane
              (leadObject Fixtures.janeOld) []
              [Sent (Get "http://localhost:3001/api/leads/lookup" "jane@example.com")]
              _ _ eq_refl (not_elem_of_empty _) eq_refl eq_refl eq_refl)
    as [Hconflict Hthrown].
  destruct (failed_update_is_error_unless_conflict
              (Fixtures.refusing Fixtures.janeOld 400) ∅ Fixtures.jane
              (leadObject Fixtures.janeOld) []
              [Sent (Get "http://localhost:3001/api/leads/lookup" "jane@example.com")]
              _ _ eq_refl (not_elem_of_empty _) eq_refl eq_refl eq_refl)
    as [Herror _].
  split_and!; [exact Hconflict|exact Herror|].
  refine (proj2 (Hthrown (Fixtures.axiosError 409) eq_refl eq_refl _)).
  intros [Hc|Hc]; discriminate Hc.
Defined.

(** *** Negative answers to a lookup *)

(** C8.  A reply that carries [found: false] and a rejection by axios with
    status 404 give the same outcome of [lookupLead]: [null], after that
    one request.  [lookupLead] returns [null] in no other case: the last
    request it sent was answered by one of the two.  Any other rejection is
    thrown by the attempt as it is. *)
Theorem lookup_not_found_is_one_outcome (env : Env) (email : string) :
  (∀ t, notFoundSignal (axios env t (Get (lookupUrl env) email)) = true →
        lookupLead env email t
        = (Ok None, t ++ [Sent (Get (lookupUrl env) email)]))
  ∧ (∀ t t', lookupLead env email t = (Ok None, t') →
        ∃ t0, t' = t0 ++ [Sent (Get (lookupUrl env) email)]
              ∧ notFoundSignal (axios env t0 (Get (lookupUrl env) email)) = true)
  ∧ (∀ t err,
       axios env t (Get (lookupUrl env) email) = Rejected err →
       notFoundSignal (Rejected err) = false →
       lookupLeadOnce env email t
       = (Throw err, t ++ [Sent (Get (lookupUrl env) email)])).
Proof.
  split_and!.
  - intros t Hs. apply withRetryFrom_ok. by apply lookupLeadOnce_notFound.
  - intros t t' Hl.
    apply withRetryFrom_ok_inv in Hl as [t0 Ht0].
    exists t0. by apply lookupLeadOnce_notFound_inv.
  - intros t err. apply lookupLeadOnce_rejected.
Qed.

(** C8 at a remote that answers [found: false], at one that answers 404,
    and at one that answers 500. *)
Lemma lookup_not_found_is_one_outcome_witness :
  lookupLead Fixtures.empty "jane@example.com" []
  = (Ok None,
     [] ++ [Sent (Get (lookupUrl Fixtures.empty) "jane@example.com")])
  ∧ lookupLead Fixtures.unknown404 "jane@example.com" []
    = (Ok None,
       [] ++ [Sent (Get (lookupUrl Fixtures.unknown404) "jane@example.com")])
  ∧ (∃ t0,
       [Sent (Get "http://localhost:3001/api/leads/lookup" "jane@example.com")]
       = t0 ++ [Sent (Get (lookupUrl Fixtures.unknown404) "jane@example.com")]
       ∧ notFoundSignal
           (axios Fixtures.unknown404 t0
              (Get (lookupUrl Fixtures.unknown404) "jane@example.com")) = true)
  ∧ lookupLeadOnce Fixtures.down "jane@example.com" []
    = (Throw (Fixtures.axiosError 500),
       [] ++ [Sent (Get (lookupUrl Fixtures.down) "jane@example.com")]).
Proof.
  split_and!.
  - by apply (lookup_not_found_is_one_outcome Fixtures.empty "jane@example.com").
  - by apply (lookup_not_found_is_one_outcome
                Fixtures.unknown404 "jane@example.com").
  - by apply (proj1 (proj2 (lookup_not_found_is_one_outcome
                              Fixtures.unknown404 "jane@example.com")) []).
  - by apply (lookup_not_found_is_one_outcome Fixtures.down "jane@example.com").
Defined.

(** *** Replies that carry no lead *)

(** Where the shape of a reply is checked.  [validateLeadResponse] accepts
    a reply exactly when, after the
    optional unwrapping of a nested [lead] object, it exposes [name] and
    [email]; otherwise it throws the malformed-response error, which is not
    retryable.  Whatever the attempt at which such a reply arrives, the
    call ends there: create and update throw the malformed-response
    error after that one request; lookup (unless the reply is the negative
    answer) throws an error that is not retryable, is an [Error] and not an
    axios error, and is the malformed-response error whenever the reply is
    an object.  The record then gets the action "error" with the message of
    that error. *)
Theorem malformed_reply_is_thrown_once_and_becomes_record_error (env : Env) :
  (∀ data, exposesNameAndEmail data = false →
           validateLeadResponse data = Throw malformed)
  ∧ (∀ data, exposesNameAndEmail data = true →
             ∃ lead, validateLeadResponse data = Ok lead)
  ∧ isRetryable malformed = false
  ∧ (∀ lead t data n k last,
       axios env t (Post (createUrl env) lead) = Resolved data →
       exposesNameAndEmail data = false →
       withRetryFrom env (createLeadOnce env lead) (S n) k last t
       = (Throw malformed, t ++ [Sent (Post (createUrl env) lead)]))
  ∧ (∀ lead t data n k last,
       axios env t (Post (updateUrl env) lead) = Resolved data →
       exposesNameAndEmail data = false →
       withRetryFrom env (updateLeadOnce env lead) (S n) k last t
       = (Throw malformed, t ++ [Sent (Post (updateUrl env) lead)]))
  ∧ (∀ email t data n k last,
       axios env t (Get (lookupUrl env) email) = Resolved data →
       notFoundSignal (Resolved data) = false →
       exposesNameAndEmail data = false →
       ∃ e, withRetryFrom env (lookupLeadOnce env email) (S n) k last t
            = (Throw e, t ++ [Sent (Get (lookupUrl env) email)])
            ∧ isRetryable e = false ∧ instanceofError e = true
            ∧ isAxiosError e = false ∧ status e = None
            ∧ (isObject data = true → e = malformed))
  ∧ (∀ seenEmails lead t data,
       valid lead → emailKey lead ∉ seenEmails →
       axios env t (Get (lookupUrl env) (Validator.email lead)) = Resolved data →
       notFoundSignal (Resolved data) = false →
       exposesNameAndEmail data = false →
       ∃ e, LeadProcessor.processLead env seenEmails lead t
            = (Ok ({[emailKey lead]} ∪ seenEmails,
                   {| LeadProcessor.lead := lead;
                      LeadProcessor.action := Action.error;
                      LeadProcessor.error := Some (message e) |}),
               t ++ [Sent (Get (lookupUrl env) (Validator.email lead))])
            ∧ (isObject data = true → e = malformed))
  ∧ (∀ seenEmails lead t t1 data,
       valid lead → emailKey lead ∉ seenEmails →
       lookupLead env (Validator.email lead) t = (Ok None, t1) →
       axios env t1 (Post (createUrl env) lead) = Resolved data →
       exposesNameAndEmail data = false →
       LeadProcessor.processLead env seenEmails lead t
       = (Ok ({[emailKey lead]} ∪ seenEmails,
              {| LeadProcessor.lead := lead;
                 LeadProcessor.action := Action.error;
                 LeadProcessor.error := Some (message malformed) |}),
          t1 ++ [Sent (Post (createUrl env) lead)]))
  ∧ (∀ seenEmails lead existing t t1 data,
       valid lead → emailKey lead ∉ seenEmails →
       lookupLead env (Validator.email lead) t = (Ok (Some existing), t1) →
       LeadProcessor.leadsMatch lead existing = Ok false →
       axios env t1 (Post (updateUrl env) lead) = Resolved data →
       exposesNameAndEmail data = false →
       LeadProcessor.processLead env seenEmails lead t
       = (Ok ({[emailKey lead]} ∪ seenEmails,
              {| LeadProcessor.lead := lead;
                 LeadProcessor.action := Action.error;
                 LeadProcessor.error := Some (message malformed) |}),
          t1 ++ [Sent (Post (updateUrl env) lead)])).
Proof.
  split_and!.
  - apply validateLeadResponse_malformed.
  - apply validateLeadResponse_accepted.
  - done.
  - intros lead t data n k last Hax Hx.
    apply withRetryFrom_fatal; [by eapply createLeadOnce_malformed|done].
  - intros lead t data n k last Hax Hx.
    apply withRetryFrom_fatal; [by eapply updateLeadOnce_malformed|done].
  - intros email t data n k last Hax Hs Hx.
    destruct (lookupLeadOnce_malformed env email t data Hax Hs Hx)
      as (e & He & Hr & Hrest).
    exists e. split; [|done]. by apply withRetryFrom_fatal.
  - intros seenEmails lead t data Hv Hin Hax Hs Hx.
    destruct (lookupLeadOnce_malformed env _ t data Hax Hs Hx)
      as (e & He & Hr & Hie & _ & Hst & Hobj).
    exists e. split; [|done].
    eapply processLead_fresh; [done..|].
    erewrite reconcile_lookup_failed; [|by apply withRetryFrom_fatal].
    rewrite Hst. simpl. unfold messageOf. by rewrite Hie.
  - intros seenEmails lead t t1 data Hv Hin Hl Hax Hx.
    eapply processLead_fresh; [done..|].
    rewrite (reconcile_create_failed env lead t t1 malformed
               (t1 ++ [Sent (Post (createUrl env) lead)])); [done|done|].
    apply withRetryFrom_fatal; [by eapply createLeadOnce_malformed|done].
  - intros seenEmails lead existing t t1 data Hv Hin Hl Hm Hax Hx.
    eapply processLead_fresh; [done..|].
    rewrite (reconcile_update_failed env lead existing t t1 malformed
               (t1 ++ [Sent (Post (updateUrl env) lead)])); [done|done|done|].
    apply withRetryFrom_fatal; [by eapply updateLeadOnce_malformed|done].
Qed.

(** The same at a remote whose replies carry no lead. *)
Lemma malformed_reply_is_thrown_once_and_becomes_record_error_witness :
  validateLeadResponse (JObj [("foo", JStr "bar")]) = Throw malformed
  ∧ (∃ lead, validateLeadResponse (leadObject Fixtures.jane) = Ok lead)
  ∧ createLead Fixtures.garbled Fixtures.jane []
    = (Throw malformed,
       [] ++ [Sent (Post (createUrl Fixtures.garbled) Fixtures.jane)])
  ∧ updateLead Fixtures.garbled Fixtures.jane []
    = (Throw malformed,
       [] ++ [Sent (Post (updateUrl Fixtures.garbled) Fixtures.jane)])
  ∧ (∃ e, lookupLead Fixtures.garbled "jane@example.com" []
          = (Throw e,
             [] ++ [Sent (Get (lookupUrl Fixtures.garbled) "jane@example.com")])
          ∧ isRetryable e = false ∧ instanceofError e = true
          ∧ isAxiosError e = false ∧ status e = None
          ∧ (isObject (JObj [("foo", JStr "bar")]) = true → e = malformed))
  ∧ (∃ e, LeadProcessor.processLead Fixtures.garbled ∅ Fixtures.jane []
          = (Ok ({[emailKey Fixtures.jane]} ∪ ∅,
                 {| LeadProcessor.lead := Fixtures.jane;
                    LeadProcessor.action := Action.error;
                    LeadProcessor.error := Some (message e) |}),
             [] ++ [Sent (Get (lookupUrl Fixtures.garbled) "jane@example.com")])
          ∧ (isObject (JObj [("foo", JStr "bar")]) = true → e = malformed))
  ∧ LeadProcessor.processLead
      (Fixtures.scripted [Resolved (JObj [("found", JBool false)])]
         (Resolved JNull)) ∅ Fixtures.jane []
    = (Ok ({[emailKey Fixtures.jane]} ∪ ∅,
           {| LeadProcessor.lead := Fixtures.jane;
              LeadProcessor.action := Action.error;
              LeadProcessor.error := Some (message malformed) |}),
       [Sent (Get "http://localhost:3001/api/leads/lookup" "jane@example.com")]
       ++ [Sent (Post "http://localhost:3001/api/leads/create" Fixtures.jane)])
  ∧ LeadProcessor.processLead
      (Fixtures.scripted [Resolved (leadObject Fixtures.janeOld)]
         (Resolved JNull)) ∅ Fixtures.jane []
    = (Ok ({[emailKey Fixtures.jane]} ∪ ∅,
           {| LeadProcessor.lead := Fixtures.jane;
              LeadProcessor.action := Action.error;
              LeadProcessor.error := Some (message malformed) |}),
       [Sent (Get "http://localhost:3001/api/leads/lookup" "jane@example.com")]
       ++ [Sent (Post "http://localhost:3001/api/leads/update" Fixtures.jane)]).
Proof.
  destruct (malformed_reply_is_thrown_once_and_becomes_record_error
              Fixtures.garbled)
    as (Hshape & Haccepted & _ & Hcreate & Hupdate & Hlookup & Hrecord & _).
  destruct (malformed_reply_is_thrown_once_and_becomes_record_error
              (Fixtures.scripted [Resolved (JObj [("found", JBool false)])]
                 (Resolved JNull)))
    as (_ & _ & _ & _ & _ & _ & _ & Hcreated & _).
  destruct (malformed_reply_is_thrown_once_and_becomes_record_error
              (Fixtures.scripted [Resolved (leadObject Fixtures.janeOld)]
                 (Resolved JNull)))
    as (_ & _ & _ & _ & _ & _ & _ & _ & Hupdated).
  split_and!.
  - by apply Hshape.
  - by apply Haccepted.
  - by apply (Hcreate Fixtures.jane [] JNull 2%nat 1 None).
  - by apply (Hupdate Fixtures.jane [] JNull 2%nat 1 None).
  - by apply (Hlookup "jane@example.com" [] (JObj [("foo", JStr "bar")])
                2%nat 1 None).
  - apply (Hrecord ∅ Fixtures.jane [] (JObj [("foo", JStr "bar")]));
      [reflexivity|apply not_elem_of_empty|reflexivity..].
  - apply (Hcreated ∅ Fixtures.jane [] _ JNull);
      [reflexivity|apply not_elem_of_empty|reflexivity..].
  - apply (Hupdated ∅ Fixtures.jane (leadObject Fixtures.janeOld) [] _ JNull);
      [reflexivity|apply not_elem_of_empty|reflexivity..].
Defined.

(** C7, at a lookup the remote answers with [null], or with an empty body,
    which axios hands over as the empty string.  Neither reply exposes a
    name or an e-mail.  [validateLeadResponse] throws the malformed-response
    error on both, and so do create and update when they receive them.
    The lookup does not: it evaluates ["found" in data] before it checks the
    shape, and that throws the [TypeError] of the runtime.  The lookup ends
    after the one request, and the record gets the action "error" with the
    message of the [TypeError], not that of the malformed-response error. *)
Theorem lookup_reply_that_is_no_object_throws_type_error_not_malformed :
  exposesNameAndEmail JNull = false
  ∧ exposesNameAndEmail (JStr "") = false
  ∧ validateLeadResponse JNull = Throw malformed
  ∧ validateLeadResponse (JStr "") = Throw malformed
  ∧ message malformed
    = "Malformed API response: missing expected fields (name, email)"
  ∧ createLead (Fixtures.scripted [] (Resolved JNull)) Fixtures.jane []
    = (Throw malformed,
       [Sent (Post "http://localhost:3001/api/leads/create" Fixtures.jane)])
  ∧ updateLead (Fixtures.scripted [] (Resolved JNull)) Fixtures.jane []
    = (Throw malformed,
       [Sent (Post "http://localhost:3001/api/leads/update" Fixtures.jane)])
  ∧ lookupLead (Fixtures.scripted [] (Resolved JNull)) "jane@example.com" []
    = (Throw (newTypeError
                "Cannot use 'in' operator to search for 'found' in null"),
       [Sent (Get "http://localhost:3001/api/leads/lookup" "jane@example.com")])
  ∧ lookupLead (Fixtures.scripted [] (Resolved (JStr ""))) "jane@example.com" []
    = (Throw (newTypeError
                "Cannot use 'in' operator to search for 'found' in "),
       [Sent (Get "http://localhost:3001/api/leads/lookup" "jane@example.com")])
  ∧ newTypeError "Cannot use 'in' operator to search for 'found' in null"
    ≠ malformed
  ∧ LeadProcessor.processLeads (Fixtures.scripted [] (Resolved JNull))
      [Fixtures.jane] []
    = (Ok {| LeadProcessor.results :=
               [{| LeadProcessor.lead := Fixtures.jane;
                   LeadProcessor.action := Action.error;
                   LeadProcessor.error :=
                     Some "Cannot use 'in' operator to search for 'found' in null" |}];
             LeadProcessor.summary :=
               {| LeadProcessor.total := 1; LeadProcessor.created := 0;
                  LeadProcessor.updated := 0; LeadProcessor.skipped := 0;
                  LeadProcessor.errors := 1 |} |},
       [Sent (Get "http://localhost:3001/api/leads/lookup" "jane@example.com")]).
Proof. split_and!; try by vm_compute. Qed.

(** *** Replies without company or source *)

Lemma replaceWhiteSpaceRuns_nonempty s :
  s ≠ "" → replaceWhiteSpaceRuns false s ≠ "".
Proof. destruct s as [|c s]; [done|]. simpl. by destruct (isWhiteSpace c). Qed.

Lemma valid_company lead :
  valid lead → normalizeCompany (Validator.company lead) ≠ "".
Proof.
  intros Hv.
  destruct (validateLead_errors lead) as (_ & Hc & _).
  unfold valid, validateLead in Hv. cbn [Validator.isValid] in Hv.
  apply bool_decide_eq_true, nil_length_inv in Hv.
  unfold validateLead in Hc. cbn [Validator.errors] in Hc. rewrite Hv in Hc.
  unfold normalizeCompany. apply replaceWhiteSpaceRuns_nonempty.
  intros Htrim. apply (not_elem_of_nil "Company is required"), Hc.
  unfold Validator.isEmpty. rewrite Htrim. apply orb_true_r.
Qed.

Lemma lookupLeadOnce_found email env t data lead :
  axios env t (Get (lookupUrl env) email) = Resolved data →
  notFoundSignal (Resolved data) = false →
  validateLeadResponse data = Ok lead →
  lookupLeadOnce env email t
  = (Ok (Some lead), t ++ [Sent (Get (lookupUrl env) email)]).
Proof.
  unfold lookupLeadOnce, tryCatch, bind, send, notFoundSignal, lift, jsIn.
  intros -> Hs Hv. simpl.
  destruct (isObject data) eqn:Hobj.
  - simpl. by rewrite Hs, andb_false_r, Hv.
  - unfold validateLeadResponse in Hv. by rewrite Hobj in Hv.
Qed.

(** C10.  A reply is accepted as soon as it exposes name and e-mail; company
    and source are not asked for.  From a reply with a nested [lead] object
    the client builds a lead in which a missing (or null) company or source
    is the empty string; a flat reply is returned as it is.  A record found
    by a lookup whose nested [lead] has no company is therefore compared
    with company [""]: it matches the incoming lead exactly when name,
    lower-cased e-mail and source agree and the normalised company of the
    incoming lead is [""], which no valid lead satisfies. *)
Theorem reply_without_company_or_source_is_accepted (env : Env) :
  (∀ data, exposesNameAndEmail data = true →
           ∃ lead, validateLeadResponse data = Ok lead)
  ∧ (∀ props inner n e,
       assoc "lead" props = Some (JObj inner) →
       assoc "name" inner = Some n → assoc "email" inner = Some e →
       validateLeadResponse (JObj props)
       = Ok (leadObject
               {| Validator.name := toStr n;
                  Validator.email := toStr e;
                  Validator.company := toStrOrEmpty (assoc "company" inner);
                  Validator.source := toStrOrEmpty (assoc "source" inner) |})
       ∧ (assoc "company" inner = None →
          toStrOrEmpty (assoc "company" inner) = "")
       ∧ (assoc "source" inner = None →
          toStrOrEmpty (assoc "source" inner) = ""))
  ∧ (∀ props,
       match assoc "lead" props with
       | Some l => isObject l = false
       | None => True
       end →
       is_Some (assoc "name" props) → is_Some (assoc "email" props) →
       validateLeadResponse (JObj props) = Ok (JObj props))
  ∧ (∀ email t props inner n e,
       axios env t (Get (lookupUrl env) email) = Resolved (JObj props) →
       notFoundSignal (Resolved (JObj props)) = false →
       assoc "lead" props = Some (JObj inner) →
       assoc "name" inner = Some n → assoc "email" inner = Some e →
       assoc "company" inner = None →
       let existing :=
         {| Validator.name := toStr n;
            Validator.email := toStr e;
            Validator.company := "";
            Validator.source := toStrOrEmpty (assoc "source" inner) |} in
       lookupLead env email t
       = (Ok (Some (leadObject existing)),
          t ++ [Sent (Get (lookupUrl env) email)])
       ∧ (∀ incoming,
            LeadProcessor.leadsMatch incoming (leadObject existing) = Ok true
            ↔ Validator.name incoming = toStr n
              ∧ toLowerCase (Validator.email incoming) = toLowerCase (toStr e)
              ∧ normalizeCompany (Validator.company incoming) = ""
              ∧ Validator.source incoming = toStrOrEmpty (assoc "source" inner))
       ∧ (∀ incoming, valid incoming →
            LeadProcessor.leadsMatch incoming (leadObject existing) = Ok false)).
Proof.
  split_and!.
  - apply validateLeadResponse_accepted.
  - intros props inner n e Hl Hn He. split_and!.
    + by apply validateLeadResponse_nested.
    + by intros ->.
    + by intros ->.
  - apply validateLeadResponse_flat.
  - intros email t props inner n e Hax Hs Hl Hn He Hc existing.
    assert (∀ incoming,
              normalizedEqual incoming existing
              ↔ Validator.name incoming = toStr n
                ∧ toLowerCase (Validator.email incoming) = toLowerCase (toStr e)
                ∧ normalizeCompany (Validator.company incoming) = ""
                ∧ Validator.source incoming = toStrOrEmpty (assoc "source" inner))
      as Heq by done.
    split_and!.
    + apply withRetryFrom_ok. eapply lookupLeadOnce_found; [done..|].
      erewrite validateLeadResponse_nested by done. by rewrite Hc.
    + intros incoming. rewrite <- Heq. split.
      * intros Hm. destruct (decide (normalizedEqual incoming existing)) as [|Hne];
          [done|].
        eapply leadsMatch_differs in Hne; [|apply leadObject_represents].
        congruence.
      * apply leadsMatch_equal, leadObject_represents.
    + intros incoming Hv. eapply leadsMatch_differs; [apply leadObject_represents|].
      rewrite Heq. intros (_ & _ & Hcompany & _).
      by apply (valid_company incoming).
Qed.

(** C10 at a remote that holds Jane without company and source. *)
Lemma reply_without_company_or_source_is_accepted_witness :
  lookupLead Fixtures.sparse "jane@example.com" []
  = (Ok (Some (leadObject
                 {| Validator.name := "Jane Doe";
                    Validator.email := "jane@example.com";
                    Validator.company := "";
                    Validator.source := "" |})),
     [] ++ [Sent (Get (lookupUrl Fixtures.sparse) "jane@example.com")])
  ∧ LeadProcessor.leadsMatch Fixtures.jane
      (leadObject
         {| Validator.name := "Jane Doe";
            Validator.email := "jane@example.com";
            Validator.company := "";
            Validator.source := "" |}) = Ok false
  ∧ LeadProcessor.leadsMatch
      {| Validator.name := "Jane Doe"; Validator.email := "JANE@example.com";
         Validator.company := "  "; Validator.source := "" |}
      (leadObject
         {| Validator.name := "Jane Doe";
            Validator.email := "jane@example.com";
            Validator.company := "";
            Validator.source := "" |}) = Ok true
  ∧ validateLeadResponse
      (JObj [("name", JStr "Jane Doe"); ("email", JStr "jane@example.com")])
    = Ok (JObj [("name", JStr "Jane Doe"); ("email", JStr "jane@example.com")])
  ∧ (∃ lead,
       validateLeadResponse
         (JObj [("name", JStr "Jane Doe"); ("email", JStr "jane@example.com")])
       = Ok lead)
  ∧ validateLeadResponse
      (JObj [("success", JBool true);
             ("lead", JObj [("name", JStr "Jane Doe");
                            ("email", JStr "jane@example.com");
                            ("company", JNull)])])
    = Ok (leadObject
            {| Validator.name := "Jane Doe";
               Validator.email := "jane@example.com";
               Validator.company := "";
               Validator.source := "" |}).
Proof.
  destruct (reply_without_company_or_source_is_accepted Fixtures.sparse)
    as (Haccepted & Hnested & Hflat & Hfound).
  destruct (Hfound "jane@example.com" []
              [("found", JBool true);
               ("lead", JObj [("name", JStr "Jane Doe");
                              ("email", JStr "jane@example.com")])]
              [("name", JStr "Jane Doe"); ("email", JStr "jane@example.com")]
              (JStr "Jane Doe") (JStr "jane@example.com")
              eq_refl eq_refl eq_refl eq_refl eq_refl eq_refl)
    as (Hlookup & Hiff & Hvalid).
  split_and!.
  - exact Hlookup.
  - apply Hvalid. reflexivity.
  - apply Hiff. repeat split; reflexivity.
  - apply Hflat; [exact I|by eexists..].
  - by apply Haccepted.
  - by apply (Hnested
                [("success", JBool true);
                 ("lead", JObj [("name", JStr "Jane Doe");
                                ("email", JStr "jane@example.com");
                                ("company", JNull)])]
                [("name", JStr "Jane Doe"); ("email", JStr "jane@example.com");
                 ("company", JNull)]
                (JStr "Jane Doe") (JStr "jane@example.com")).
Defined.

(** *** The two versions of the validator *)

Lemma company_rule_versions_agree c :
  bool_decide (Validator2.normalizeCompany c = "") = Validator.isEmpty c.
Proof.
  unfold Validator2.normalizeCompany, Validator.isEmpty.
  destruct c as [|a c]; [done|]. cbn [truthy negb orb].
  apply bool_decide_ext. split.
  - intros H. destruct (trim (String a c)) as [|b s]; [done|].
    by apply replaceWhiteSpaceRuns_nonempty in H.
  - by intros ->.
Qed.

Lemma sources_versions_agree s :
  includes Validator2.VALID_SOURCES s = includes Validator.VALID_SOURCES s.
Proof.
  unfold includes, Validator2.VALID_SOURCES, Validator.VALID_SOURCES.
  apply bool_decide_ext. rewrite !elem_of_cons, !elem_of_nil. naive_solver.
Qed.

(** Both versions accept the same leads. *)
Lemma validateLead_versions_agree lead :
  Validator2.isValid (Validator2.validateLead lead)
  = Validator.isValid (validateLead lead).
Proof.
  unfold Validator2.validateLead, validateLead.
  cbn [Validator2.isValid Validator.isValid].
  rewrite company_rule_versions_agree, sources_versions_agree.
  unfold Validator2.EMAIL_REGEX.
  change (negb (truthy (Validator.name lead))
          || bool_decide (trim (Validator.name lead) = ""))
    with (Validator.isEmpty (Validator.name lead)).
  change (negb (truthy (Validator.source lead))
          || bool_decide (trim (Validator.source lead) = ""))
    with (Validator.isEmpty (Validator.source lead)).
  destruct (Validator.isEmpty (Validator.name lead));
    destruct (Validator.isEmpty (Validator.company lead));
    destruct (negb (truthy (Validator.email lead))
              || negb (test Validator.EMAIL_REGEX (Validator.email lead)));
    destruct (Validator.isEmpty (Validator.source lead));
    destruct (includes Validator.VALID_SOURCES (Validator.source lead));
    reflexivity.
Qed.

(** *** What an unchecked reply does to the comparison *)

(** A flat reply without company passes [validateLeadResponse] as it is;
    [leadsMatch] then calls [trim] on [undefined], and the record ends as an
    error. *)
Example flat_reply_without_company_breaks_comparison :
  LeadProcessor.leadsMatch Fixtures.jane
    (JObj [("name", JStr "Jane Doe"); ("email", JStr "jane@example.com")])
  = Throw (newTypeError "Cannot read properties of undefined (reading 'trim')").
Proof. reflexivity. Qed.

(** The split version sends an update where the other one skips: the
    e-mails differ by case only. *)
Example raw_comparison_differs_on_case :
  LeadProcessor.leadsMatch Fixtures.janeShouting (leadObject Fixtures.jane)
  = Ok true
  ∧ LeadProcessor2.leadsAreIdentical (leadObject Fixtures.jane)
      Fixtures.janeShouting = false.
Proof. split; reflexivity. Qed.

(** *** The unit tests of the repository, run on the model *)

Module Tests.
Import Fixtures.

(** tests/validator.test.ts *)

Example valid_lead :
  validateLead jane
  = {| Validator.isValid := true; Validator.errors := [];
       Validator.normalizedLead := Some jane |}
  ∧ Validator2.validateLead jane
    = {| Validator2.isValid := true; Validator2.errors := [] |}.
Proof. split; reflexivity. Qed.

Example email_without_at :
  Validator2.errors (Validator2.validateLead (withEmail "janeatexample.com" jane))
  = ["Invalid email format"].
Proof. reflexivity. Qed.

Example email_with_spaces :
  Validator2.errors (Validator2.validateLead (withEmail "jane @example.com" jane))
  = ["Invalid email format"]
  ∧ Validator2.errors (Validator2.validateLead (withEmail " jane@example.com" jane))
    = ["Invalid email format"]
  ∧ Validator2.errors (Validator2.validateLead (withEmail "jane@example.com " jane))
    = ["Invalid email format"].
Proof. split_and!; reflexivity. Qed.

Example required_fields :
  Validator2.errors (Validator2.validateLead (withName "" jane))
  = ["Name is required"]
  ∧ Validator2.errors (Validator2.validateLead (withName "   " jane))
    = ["Name is required"]
  ∧ Validator2.errors (Validator2.validateLead (withCompany "" jane))
    = ["Company is required"]
  ∧ Validator2.errors (Validator2.validateLead (withCompany "    " jane))
    = ["Company is required"]
  ∧ Validator2.errors (Validator2.validateLead (withSource "" jane))
    = ["Source is required"].
Proof. split_and!; reflexivity. Qed.

Example source_allowlist :
  Forall (λ source, valid (withSource source jane))
    ["LinkedIn"; "Webinar"; "Conference"; "Referral"; "Twitter"; "Website"]
  ∧ Validator2.errors (Validator2.validateLead (withSource "TikTok" jane))
    = ["Invalid source"]
  ∧ Validator.errors (validateLead (withSource "linkedin" jane))
    = ["Source must be one of: LinkedIn, Webinar, Website, Conference, Referral, Twitter"].
Proof. split_and!; [repeat constructor|reflexivity..]. Qed.

Example multiple_errors :
  Validator2.errors
    (Validator2.validateLead (withName "" (withEmail "bademail" jane)))
  = ["Name is required"; "Invalid email format"]
  ∧ Validator2.errors
      (Validator2.validateLead
         {| Validator.name := ""; Validator.email := "nope";
            Validator.company := ""; Validator.source := "Unknown" |})
    = ["Name is required"; "Invalid email format"; "Company is required";
       "Invalid source"].
Proof. split; reflexivity. Qed.

Example company_normalization :
  normalizeCompany "  Acme Corp  " = "Acme Corp"
  ∧ normalizeCompany "Acme   Corp   Inc" = "Acme Corp Inc"
  ∧ valid (withCompany "Acme   Corp   Inc" jane).
Proof. split_and!; reflexivity. Qed.

(** tests/apiClient.test.ts *)

Example lookup_returns_flat_lead :
  lookupLead (scripted [Resolved (leadObject jane)] (Resolved JNull))
    "jane@example.com" []
  = (Ok (Some (leadObject jane)),
     [Sent (Get "http://localhost:3001/api/leads/lookup" "jane@example.com")]).
Proof. reflexivity. Qed.

Example lookup_404_is_null :
  (lookupLead unknown404 "nobody@example.com" []).1 = Ok None.
Proof. reflexivity. Qed.

Example retry_on_429_then_success :
  lookupLead (scripted [Rejected (axiosError 429); Resolved (leadObject jane)]
                (Resolved JNull)) "jane@example.com" []
  = (Ok (Some (leadObject jane)),
     [Sent (Get "http://localhost:3001/api/leads/lookup" "jane@example.com");
      Sent (Get "http://localhost:3001/api/leads/lookup" "jane@example.com")]).
Proof. reflexivity. Qed.

Example retry_on_500_then_success :
  createLead (scripted [Rejected (axiosError 500); Resolved (leadObject jane)]
                (Resolved JNull)) jane []
  = (Ok (leadObject jane),
     [Sent (Post "http://localhost:3001/api/leads/create" jane);
      Sent (Post "http://localhost:3001/api/leads/create" jane)]).
Proof. reflexivity. Qed.

Example three_failures_exhaust :
  lookupLead (scripted [] (Rejected (axiosError 500))) "jane@example.com" []
  = (Throw (newError "Max retries exhausted after 3 attempts. Last error: Request failed with status code 500"),
     [Sent (Get "http://localhost:3001/api/leads/lookup" "jane@example.com");
      Sent (Get "http://localhost:3001/api/leads/lookup" "jane@example.com");
      Sent (Get "http://localhost:3001/api/leads/lookup" "jane@example.com")]).
Proof. reflexivity. Qed.

Example no_retry_on_400 :
  createLead (scripted [] (Rejected (axiosError 400))) jane []
  = (Throw (axiosError 400),
     [Sent (Post "http://localhost:3001/api/leads/create" jane)]).
Proof. reflexivity. Qed.

Example retry_on_timeout :
  (lookupLead (scripted [Rejected (timeout "ECONNABORTED");
                         Resolved (leadObject jane)] (Resolved JNull))
     "jane@example.com" []).1 = Ok (Some (leadObject jane))
  ∧ (lookupLead (scripted [Rejected (timeout "ETIMEDOUT");
                           Resolved (leadObject jane)] (Resolved JNull))
       "jane@example.com" []).1 = Ok (Some (leadObject jane)).
Proof. split; reflexivity. Qed.

Example malformed_replies :
  (lookupLead garbled "jane@example.com" []).1 = Throw malformed
  ∧ (createLead garbled jane []).1 = Throw malformed.
Proof. split; reflexivity. Qed.

(** tests/leadProcessor.test.ts, with the remote in place of the mocked
    client *)

Example new_lead_is_created :
  LeadProcessor.processLeads (holding []) [jane] []
  = (Ok {| LeadProcessor.results :=
             [{| LeadProcessor.lead := jane;
                 LeadProcessor.action := Action.created;
                 LeadProcessor.error := None |}];
           LeadProcessor.summary :=
             {| LeadProcessor.total := 1; LeadProcessor.created := 1;
                LeadProcessor.updated := 0; LeadProcessor.skipped := 0;
                LeadProcessor.errors := 0 |} |},
     [Sent (Get "http://localhost:3001/api/leads/lookup" "jane@example.com");
      Sent (Post "http://localhost:3001/api/leads/create" jane)]).
Proof. by vm_compute. Qed.

Example changed_lead_is_updated :
  LeadProcessor.processLeads (holding [janeOld]) [jane] []
  = (Ok {| LeadProcessor.results :=
             [{| LeadProcessor.lead := jane;
                 LeadProcessor.action := Action.updated;
                 LeadProcessor.error := None |}];
           LeadProcessor.summary :=
             {| LeadProcessor.total := 1; LeadProcessor.created := 0;
                LeadProcessor.updated := 1; LeadProcessor.skipped := 0;
                LeadProcessor.errors := 0 |} |},
     [Sent (Get "http://localhost:3001/api/leads/lookup" "jane@example.com");
      Sent (Post "http://localhost:3001/api/leads/update" jane)]).
Proof. by vm_compute. Qed.

Example identical_lead_is_skipped :
  LeadProcessor.processLeads (holding [jane]) [jane] []
  = (Ok {| LeadProcessor.results := [skippedResult jane];
           LeadProcessor.summary :=
             {| LeadProcessor.total := 1; LeadProcessor.created := 0;
                LeadProcessor.updated := 0; LeadProcessor.skipped := 1;
                LeadProcessor.errors := 0 |} |},
     [Sent (Get "http://localhost:3001/api/leads/lookup" "jane@example.com")]).
Proof. by vm_compute. Qed.

Example failed_lookup_does_not_stop_the_batch :
  LeadProcessor.action
    <$> match (LeadProcessor.processLeads
                 (scripted [Rejected (axiosError 400)]
                    (Resolved (JObj [("found", JBool false);
                                     ("name", JStr "x"); ("email", JStr "y")])))
                 [withEmail "fail@example.com" jane;
                  withEmail "success@example.com" jane] []).1 with
        | Ok out => LeadProcessor.results out
        | Throw _ => []
        end
  = [Action.error; Action.created].
Proof. by vm_compute. Qed.

Example summary_counts :
  LeadProcessor.summary
    <$> match (LeadProcessor.processLeads
                 (holding [withCompany "Old Corp" (withEmail "changed@example.com" jane);
                           withEmail "same@example.com" jane])
                 [withEmail "new@example.com" jane;
                  withCompany "New Corp" (withEmail "changed@example.com" jane);
                  withEmail "same@example.com" jane;
                  withEmail "bademail" jane;
                  withName "Dupe" (withEmail "new@example.com" jane)] []).1 with
        | Ok out => Some out
        | Throw _ => None
        end
  = Some {| LeadProcessor.total := 5; LeadProcessor.created := 1;
            LeadProcessor.updated := 1; LeadProcessor.skipped := 2;
            LeadProcessor.errors := 1 |}.
Proof. by vm_compute. Qed.

(** The same batch through the split version. *)
Example summary_counts_split_version :
  LeadProcessor2.summary
    <$> match (LeadProcessor2.processLeads
                 (client := clientOf
                    (holding [withCompany "Old Corp"
                                (withEmail "changed@example.com" jane);
                              withEmail "same@example.com" jane]))
                 [withEmail "new@example.com" jane;
                  withCompany "New Corp" (withEmail "changed@example.com" jane);
                  withEmail "same@example.com" jane;
                  withEmail "bademail" jane;
                  withName "Dupe" (withEmail "new@example.com" jane)] []).1 with
        | Ok out => Some out
        | Throw _ => None
        end
  = Some {| LeadProcessor2.ProcessingSummary.total := 5;
            LeadProcessor2.ProcessingSummary.created := 1;
            LeadProcessor2.ProcessingSummary.updated := 1;
            LeadProcessor2.ProcessingSummary.skipped := 2;
            LeadProcessor2.ProcessingSummary.errors := 1 |}.
Proof. by vm_compute. Qed.

(** The scenario of the specification: the same lead twice against an
    empty remote. *)
Example same_lead_twice :
  LeadProcessor.processLeads (holding []) [jane; jane] []
  = (Ok {| LeadProcessor.results :=
             [{| LeadProcessor.lead := jane;
                 LeadProcessor.action := Action.created;
                 LeadProcessor.error := None |};
              skippedResult jane];
           LeadProcessor.summary :=
             {| LeadProcessor.total := 2; LeadProcessor.created := 1;
                LeadProcessor.updated := 0; LeadProcessor.skipped := 1;
                LeadProcessor.errors := 0 |} |},
     [Sent (Get "http://localhost:3001/api/leads/lookup" "jane@example.com");
      Sent (Post "http://localhost:3001/api/leads/create" jane)]).
Proof. by vm_compute. Qed.

End Tests.

(* ===================================================================== *)
(** ** Further properties of the code                                     *)
(* ===================================================================== *)

(** *** Trimming and lower-casing *)

Import Text.

Lemma append_cons c s t : String c s +:+ t = String c (s +:+ t).
Proof. reflexivity. Qed.

Lemma append_nil_l s : "" +:+ s = s.
Proof. reflexivity. Qed.

Lemma append_nil_r s : s +:+ "" = s.
Proof. induction s as [|c s IH]; [done|]. by rewrite append_cons, IH. Qed.

Lemma append_assoc s1 s2 s3 : (s1 +:+ s2) +:+ s3 = s1 +:+ (s2 +:+ s3).
Proof.
  induction s1 as [|c s1 IH]; [done|]. by rewrite !append_cons, IH.
Qed.

Lemma trimStart_startsClean s : startsClean (trimStart s).
Proof.
  induction s as [|c s IH]; simpl; [done|].
  by destruct (isWhiteSpace c) eqn:Hc.
Qed.

Lemma trimStart_clean s : startsClean s → trimStart s = s.
Proof. destruct s as [|c s]; simpl; [done|]. by intros ->. Qed.

Lemma trimEnd_endsClean s : endsClean (trimEnd s).
Proof.
  induction s as [|c s IH]; simpl; [done|].
  destruct (trimEnd s) as [|d t] eqn:Ht.
  - by destruct (isWhiteSpace c) eqn:Hc.
  - done.
Qed.

Lemma trimEnd_clean s : endsClean s → trimEnd s = s.
Proof.
  induction s as [|c s IH]; simpl; [done|].
  destruct s as [|d s].
  - simpl. by intros ->.
  - intros H. by rewrite (IH H).
Qed.

Lemma trimEnd_startsClean s : startsClean s → startsClean (trimEnd s).
Proof.
  destruct s as [|c s]; simpl; [done|]. intros Hc.
  destruct (trimEnd s); [by rewrite Hc|done].
Qed.

Lemma trim_clean s : startsClean s → endsClean s → trim s = s.
Proof.
  intros Hs He. unfold trim. by rewrite trimStart_clean, trimEnd_clean.
Qed.

Lemma trimStart_endsClean s : endsClean s → endsClean (trimStart s).
Proof.
  induction s as [|c s IH]; [done|]. cbn [trimStart].
  destruct (isWhiteSpace c) eqn:Hc; [|done].
  intros H. apply IH. destruct s; [simpl in H; congruence|done].
Qed.

Lemma toLowerChar_idempotent c : toLowerChar (toLowerChar c) = toLowerChar c.
Proof. by destruct c as [[] [] [] [] [] [] [] []]. Qed.

Lemma toLowerCase_idempotent s : toLowerCase (toLowerCase s) = toLowerCase s.
Proof.
  induction s as [|c s IH]; simpl; [done|].
  by rewrite toLowerChar_idempotent, IH.
Qed.

Lemma trim_startsClean s : startsClean (trim s).
Proof. apply trimEnd_startsClean, trimStart_startsClean. Qed.

Lemma trim_endsClean s : endsClean (trim s).
Proof. apply trimEnd_endsClean. Qed.

Lemma trim_idempotent s : trim (trim s) = trim s.
Proof. apply trim_clean; [apply trim_startsClean|apply trim_endsClean]. Qed.

(** *** Company names *)

Lemma replaceWhiteSpaceRuns_ink b c s :
  isWhiteSpace c = false →
  replaceWhiteSpaceRuns b (String c s) = String c (replaceWhiteSpaceRuns false s).
Proof. intros Hc. simpl. by rewrite Hc. Qed.

Lemma replaceWhiteSpaceRuns_fixed s :
  singleSpaced s → replaceWhiteSpaceRuns false s = s.
Proof.
  induction s as [|c s IH]; [done|]. intros [Hc Hs]. simpl.
  destruct (isWhiteSpace c) eqn:Hws.
  - destruct (Hc eq_refl) as [-> Hink].
    destruct s as [|d s]; [done|]. simpl in Hink.
    rewrite replaceWhiteSpaceRuns_ink by done.
    rewrite <- (replaceWhiteSpaceRuns_ink false) by done. by rewrite IH.
  - by rewrite IH.
Qed.

Lemma endsClean_tail c s : endsClean (String c s) → s ≠ "" → endsClean s.
Proof. by destruct s. Qed.

Lemma endsClean_space c s :
  endsClean (String c s) → isWhiteSpace c = true → s ≠ "".
Proof. destruct s; simpl; congruence. Qed.

Lemma replaceWhiteSpaceRuns_startsWithInk s :
  endsClean s → s ≠ "" → startsWithInk (replaceWhiteSpaceRuns true s).
Proof.
  induction s as [|c s IH]; [done|]. intros He _. simpl.
  destruct (isWhiteSpace c) eqn:Hc; [|done].
  pose proof (endsClean_space _ _ He Hc) as Hne.
  apply IH; [by apply (endsClean_tail c)|done].
Qed.

Lemma replaceWhiteSpaceRuns_singleSpaced b s :
  endsClean s → singleSpaced (replaceWhiteSpaceRuns b s).
Proof.
  revert b. induction s as [|c s IH]; intros b He; [done|]. simpl.
  destruct (isWhiteSpace c) eqn:Hc.
  - pose proof (endsClean_space _ _ He Hc) as Hne.
    pose proof (endsClean_tail _ _ He Hne) as He'.
    destruct b; [by apply IH|]. split; [|by apply IH].
    intros _. split; [done|]. by apply replaceWhiteSpaceRuns_startsWithInk.
  - split; [congruence|]. apply IH.
    destruct s as [|d s]; [done|]. by apply (endsClean_tail c).
Qed.

Lemma replaceWhiteSpaceRuns_startsClean s :
  startsClean s → startsClean (replaceWhiteSpaceRuns false s).
Proof. destruct s as [|c s]; [done|]. simpl. intros Hc. by rewrite Hc. Qed.

Lemma replaceWhiteSpaceRuns_endsClean b s :
  endsClean s → endsClean (replaceWhiteSpaceRuns b s).
Proof.
  revert b. induction s as [|c s IH]; intros b He; [done|]. simpl.
  destruct (isWhiteSpace c) eqn:Hc.
  - pose proof (endsClean_space _ _ He Hc) as Hne.
    pose proof (endsClean_tail _ _ He Hne) as He'.
    destruct b; [by apply IH|].
    pose proof (replaceWhiteSpaceRuns_startsWithInk s He' Hne) as Hink.
    specialize (IH true He').
    by destruct (replaceWhiteSpaceRuns true s).
  - destruct s as [|d s]; [by simpl|].
    specialize (IH false (endsClean_tail _ _ He ltac:(done))).
    remember (String d s) as s' eqn:Hs'.
    assert (replaceWhiteSpaceRuns false s' ≠ "") as Hne.
    { subst s'. by apply replaceWhiteSpaceRuns_nonempty. }
    by destruct (replaceWhiteSpaceRuns false s').
Qed.

(** X1.  [normalizeCompany] yields a name that neither begins nor ends with
    white space and whose only white space is single spaces between other
    code units; normalising it again changes nothing, and a name that
    already has that shape is left as it is. *)
Theorem normalizeCompany_is_a_normal_form (company : string) :
  startsClean (normalizeCompany company)
  ∧ endsClean (normalizeCompany company)
  ∧ singleSpaced (normalizeCompany company)
  ∧ normalizeCompany (normalizeCompany company) = normalizeCompany company
  ∧ (startsClean company → endsClean company → singleSpaced company →
     normalizeCompany company = company).
Proof.
  unfold normalizeCompany.
  assert (startsClean (replaceWhiteSpaceRuns false (trim company))) as Hs
    by apply replaceWhiteSpaceRuns_startsClean, trim_startsClean.
  assert (endsClean (replaceWhiteSpaceRuns false (trim company))) as He
    by apply replaceWhiteSpaceRuns_endsClean, trim_endsClean.
  assert (singleSpaced (replaceWhiteSpaceRuns false (trim company))) as Hc
    by apply replaceWhiteSpaceRuns_singleSpaced, trim_endsClean.
  split_and!; [done..| |].
  - by rewrite trim_clean, replaceWhiteSpaceRuns_fixed.
  - intros Hs' He' Hc'. by rewrite trim_clean, replaceWhiteSpaceRuns_fixed.
Qed.

Lemma normalizeCompany_is_a_normal_form_witness :
  normalizeCompany "Acme Corp Inc" = "Acme Corp Inc"
  ∧ normalizeCompany "  Acme   Corp  " = "Acme Corp".
Proof.
  destruct (normalizeCompany_is_a_normal_form "Acme Corp Inc")
    as (_ & _ & _ & _ & Hfixed).
  split; [|reflexivity].
  apply Hfixed; [reflexivity|reflexivity|].
  repeat split; try done; intros Hws; vm_compute in Hws; discriminate.
Defined.

(** *** Patterns *)

Lemma append_eq_nil s1 s2 : s1 +:+ s2 = "" → s1 = "" ∧ s2 = "".
Proof. by destruct s1. Qed.

Lemma matches_nullable r : matches r "" ↔ nullable r = true.
Proof.
  split.
  - intros H. remember "" as s eqn:Hs.
    induction H as [|p d Hp|r1 r2 s1 s2 H1 IH1 H2 IH2|r1 r2 s0 H IH
                   |r1 r2 s0 H IH|r|r s1 s2 H1 IH1 H2 IH2]; simpl; try done.
    + apply append_eq_nil in Hs as [-> ->]. by rewrite IH1, IH2.
    + by rewrite IH.
    + rewrite IH by done. by rewrite orb_true_r.
  - induction r as [| |p|r1 IH1 r2 IH2|r1 IH1 r2 IH2|r IH]; simpl; try done.
    + constructor.
    + intros [H1 H2]%andb_true_iff. apply (matches_cat _ _ "" ""); auto.
    + intros [H|H]%orb_true_iff; [apply matches_alt_l|apply matches_alt_r]; auto.
    + intros _. constructor.
Qed.

Lemma matches_cat_iff r1 r2 s :
  matches (Cat r1 r2) s
  ↔ ∃ s1 s2, s = s1 +:+ s2 ∧ matches r1 s1 ∧ matches r2 s2.
Proof.
  split.
  - inversion 1; subst. by eexists _, _.
  - intros (s1 & s2 & -> & ? & ?). by constructor.
Qed.

Lemma matches_deriv c r s : matches (deriv c r) s ↔ matches r (String c s).
Proof.
  split.
  - revert s.
    induction r as [| |p|r1 IH1 r2 IH2|r1 IH1 r2 IH2|r IH]; intros s; simpl.
    + inversion 1.
    + inversion 1.
    + destruct (p c) eqn:Hp; inversion 1; subst. by constructor.
    + intros H.
      assert (matches (Cat (deriv c r1) r2) s → matches (Cat r1 r2) (String c s))
        as Hcat.
      { intros (s1 & s2 & -> & H1 & H2)%matches_cat_iff.
        rewrite <- append_cons. constructor; auto. }
      destruct (nullable r1) eqn:Hn; [|by apply Hcat].
      inversion H; subst; [by apply Hcat|].
      apply (matches_cat r1 r2 "" (String c s)); [by apply matches_nullable|auto].
    + inversion 1; subst; [apply matches_alt_l|apply matches_alt_r]; auto.
    + intros (s1 & s2 & -> & H1 & H2)%matches_cat_iff.
      rewrite <- append_cons. apply matches_star_app; auto.
  - intros H. remember (String c s) as s0 eqn:Hs. revert s Hs.
    induction H as [|p d Hp|r1 r2 s1 s2 H1 IH1 H2 IH2|r1 r2 s0 H IH
                   |r1 r2 s0 H IH|r|r s1 s2 H1 IH1 H2 IH2]; intros s Hs; simpl.
    + done.
    + injection Hs as -> <-. rewrite Hp. constructor.
    + destruct s1 as [|d s1].
      * rewrite append_nil_l in Hs. apply matches_nullable in H1. rewrite H1.
        apply matches_alt_r. by apply IH2.
      * rewrite append_cons in Hs. injection Hs as -> <-.
        specialize (IH1 _ eq_refl).
        destruct (nullable r1); [apply matches_alt_l|]; by constructor.
    + apply matches_alt_l; auto.
    + apply matches_alt_r; auto.
    + done.
    + destruct s1 as [|d s1].
      * rewrite append_nil_l in Hs. by apply IH2.
      * rewrite append_cons in Hs. injection Hs as -> <-. constructor; auto.
Qed.

(** Matching by derivatives decides membership in the language of the
    pattern. *)
Lemma test_matches r s : test r s = true ↔ matches r s.
Proof.
  revert r. induction s as [|c s IH]; intros r; simpl.
  - symmetry. apply matches_nullable.
  - by rewrite IH, matches_deriv.
Qed.

Lemma matches_class_iff p s :
  matches (Class p) s ↔ ∃ c, s = String c "" ∧ p c = true.
Proof.
  split.
  - inversion 1; subst. by eexists.
  - intros (c & -> & Hp). by constructor.
Qed.

Lemma matches_chr c s : matches (Chr c) s ↔ s = String c "".
Proof.
  unfold Chr. rewrite matches_class_iff. split.
  - by intros (d & -> & ->%bool_decide_eq_true).
  - intros ->. exists c. by rewrite bool_decide_eq_true_2.
Qed.

Lemma matches_star_class p s :
  matches (Star (Class p)) s ↔ forallChars p s = true.
Proof.
  split.
  - intros H. remember (Star (Class p)) as r eqn:Hr.
    induction H as [| | | | | |r s1 s2 H1 _ H2 IH2]; try done.
    injection Hr as ->. apply matches_class_iff in H1 as (c & -> & Hp).
    rewrite append_cons, append_nil_l. simpl. by rewrite Hp, IH2.
  - induction s as [|c s IH]; simpl; [constructor|].
    intros [Hp Hs]%andb_true_iff.
    change (String c s) with (String c "" +:+ s).
    constructor; [by constructor|auto].
Qed.

Lemma matches_plus_class p s :
  matches (Plus (Class p)) s ↔ s ≠ "" ∧ forallChars p s = true.
Proof.
  unfold Plus. rewrite matches_cat_iff. split.
  - intros (s1 & s2 & -> & (c & -> & Hp)%matches_class_iff
            & Hs%matches_star_class).
    rewrite append_cons, append_nil_l. simpl. by rewrite Hp, Hs.
  - intros [Hne Hall]. destruct s as [|c s]; [done|].
    simpl in Hall. apply andb_true_iff in Hall as [Hp Hs].
    exists (String c ""), s.
    split_and!; [done|by constructor|by apply matches_star_class].
Qed.

Lemma forallChars_app p s1 s2 :
  forallChars p (s1 +:+ s2) = forallChars p s1 && forallChars p s2.
Proof.
  induction s1 as [|c s1 IH]; [done|].
  rewrite append_cons. simpl. by rewrite IH, andb_assoc.
Qed.

Lemma occurrences_app c s1 s2 :
  occurrences c (s1 +:+ s2) = (occurrences c s1 + occurrences c s2)%nat.
Proof.
  induction s1 as [|d s1 IH]; [done|].
  rewrite append_cons. simpl. rewrite IH. lia.
Qed.

Lemma forallChars_impl (p q : ascii → bool) s :
  (∀ c, p c = true → q c = true) →
  forallChars p s = true → forallChars q s = true.
Proof.
  intros Hpq. induction s as [|c s IH]; simpl; [done|].
  intros [Hp Hs]%andb_true_iff. by rewrite (Hpq c Hp), IH.
Qed.

Lemma forallChars_occurrences p c s :
  p c = false → forallChars p s = true → occurrences c s = 0%nat.
Proof.
  intros Hc. induction s as [|d s IH]; simpl; [done|].
  intros [Hp Hs]%andb_true_iff. rewrite IH by done.
  case_bool_decide; [congruence|done].
Qed.

Lemma length_append s1 s2 :
  String.length (s1 +:+ s2) = (String.length s1 + String.length s2)%nat.
Proof.
  induction s1 as [|c s1 IH]; [done|]. rewrite append_cons. simpl. by rewrite IH.
Qed.

Lemma EMAIL_REGEX_spec (email : string) :
  test Validator.EMAIL_REGEX email = true
  ↔ ∃ user domain tld,
      email = user +:+ "@" +:+ domain +:+ "." +:+ tld
      ∧ user ≠ "" ∧ domain ≠ "" ∧ tld ≠ ""
      ∧ forallChars Validator.notSpaceNorAt user = true
      ∧ forallChars Validator.notSpaceNorAt domain = true
      ∧ forallChars Validator.notSpaceNorAt tld = true.
Proof.
  rewrite test_matches. unfold Validator.EMAIL_REGEX. split.
  - intros (u & s1 & -> & Hu & H1)%matches_cat_iff.
    apply matches_cat_iff in H1 as (a & s2 & -> & Ha & H2).
    apply matches_cat_iff in H2 as (d & s3 & -> & Hd & H3).
    apply matches_cat_iff in H3 as (dot & t & -> & Hdot & Ht).
    apply matches_chr in Ha as ->. apply matches_chr in Hdot as ->.
    apply matches_plus_class in Hu as [? ?], Hd as [? ?], Ht as [? ?].
    by exists u, d, t.
  - intros (u & d & t & -> & ? & ? & ? & ? & ? & ?).
    repeat (apply matches_cat);
      try (by apply matches_chr); by apply matches_plus_class.
Qed.

(** X2.  The e-mail pattern accepts exactly the strings of the shape
    user@domain.tld in which each of the three parts is non-empty and free
    of white space and of "@". *)
Theorem email_pattern_accepts_user_at_domain_dot_tld (email : string) :
  test Validator.EMAIL_REGEX email = true
  ↔ ∃ user domain tld,
      email = user +:+ "@" +:+ domain +:+ "." +:+ tld
      ∧ user ≠ "" ∧ domain ≠ "" ∧ tld ≠ ""
      ∧ forallChars Validator.notSpaceNorAt user = true
      ∧ forallChars Validator.notSpaceNorAt domain = true
      ∧ forallChars Validator.notSpaceNorAt tld = true.
Proof. apply EMAIL_REGEX_spec. Qed.

(** X3.  An accepted e-mail address holds no white space, exactly one "@"
    with something before it, a "." somewhere after the "@", and at least
    five code units. *)
Theorem accepted_email_has_no_space_and_one_at (email : string) :
  test Validator.EMAIL_REGEX email = true →
  forallChars (λ c, negb (isWhiteSpace c)) email = true
  ∧ occurrences "@" email = 1%nat
  ∧ (∃ before after,
       email = before +:+ "@" +:+ after ∧ before ≠ ""
       ∧ (1 ≤ occurrences "." after)%nat)
  ∧ (5 ≤ String.length email)%nat.
Proof.
  intros (u & d & t & -> & Hu & Hd & Ht & Au & Ad & At)%EMAIL_REGEX_spec.
  assert (∀ c, Validator.notSpaceNorAt c = true → negb (isWhiteSpace c) = true)
    as Hws by (intros c [? _]%andb_true_iff; done).
  split_and!.
  - rewrite !forallChars_app.
    rewrite (forallChars_impl _ _ u Hws), (forallChars_impl _ _ d Hws),
      (forallChars_impl _ _ t Hws) by done.
    reflexivity.
  - rewrite !occurrences_app.
    rewrite (forallChars_occurrences Validator.notSpaceNorAt "@" u),
      (forallChars_occurrences Validator.notSpaceNorAt "@" d),
      (forallChars_occurrences Validator.notSpaceNorAt "@" t) by done.
    reflexivity.
  - exists u, (d +:+ "." +:+ t). split_and!; [done..|].
    rewrite !occurrences_app. simpl. lia.
  - rewrite !length_append. simpl.
    destruct u, d, t; simpl; try done; lia.
Qed.

Lemma accepted_email_has_no_space_and_one_at_witness :
  occurrences "@" "jane@example.com" = 1%nat
  ∧ (5 ≤ String.length "jane@example.com")%nat.
Proof.
  destruct (accepted_email_has_no_space_and_one_at "jane@example.com")
    as (_ & Hat & _ & Hlen); [reflexivity|].
  by split.
Defined.

(** *** The rules of the validator *)

Lemma isEmpty_spec v : Validator.isEmpty v = true ↔ trim v = "".
Proof.
  unfold Validator.isEmpty. destruct v as [|c v]; [done|].
  cbn [truthy negb orb]. apply bool_decide_eq_true.
Qed.

Lemma email_rule_spec e :
  negb (truthy e) || negb (test Validator.EMAIL_REGEX e) = true
  ↔ test Validator.EMAIL_REGEX e = false.
Proof. destruct e as [|c e]; [done|]. cbn [truthy negb orb]. apply negb_true_iff. Qed.

Lemma includes_spec l x : includes l x = true ↔ x ∈ l.
Proof. apply bool_decide_eq_true. Qed.

Lemma listed_source_not_empty s :
  s ∈ Validator.VALID_SOURCES → Validator.isEmpty s = false.
Proof.
  unfold Validator.VALID_SOURCES. rewrite !elem_of_cons, elem_of_nil.
  intros [->|[->|[->|[->|[->|[->|[]]]]]]]; reflexivity.
Qed.

Ltac solve_sublist :=
  repeat first [apply sublist_nil | apply sublist_skip | apply sublist_cons].

Lemma normalizeCompany_trimmed c :
  trim (normalizeCompany c) = normalizeCompany c.
Proof.
  unfold normalizeCompany. apply trim_clean.
  - apply replaceWhiteSpaceRuns_startsClean, trim_startsClean.
  - apply replaceWhiteSpaceRuns_endsClean, trim_endsClean.
Qed.

Lemma validateLead_verdict l :
  Validator.isValid (validateLead l) = true
  ↔ trim (Validator.name l) ≠ "" ∧ trim (Validator.company l) ≠ ""
    ∧ test Validator.EMAIL_REGEX (Validator.email l) = true
    ∧ Validator.source l ∈ Validator.VALID_SOURCES.
Proof.
  pose proof (isEmpty_spec (Validator.name l)) as Hn.
  pose proof (isEmpty_spec (Validator.company l)) as Hc.
  pose proof (email_rule_spec (Validator.email l)) as He.
  pose proof (includes_spec Validator.VALID_SOURCES (Validator.source l)) as Hs.
  pose proof (listed_source_not_empty (Validator.source l)) as Hl.
  unfold validateLead. cbn [Validator.isValid].
  destruct (Validator.isEmpty (Validator.name l));
    destruct (Validator.isEmpty (Validator.company l));
    destruct (negb (truthy (Validator.email l))
              || negb (test Validator.EMAIL_REGEX (Validator.email l)));
    destruct (Validator.isEmpty (Validator.source l));
    destruct (includes Validator.VALID_SOURCES (Validator.source l));
    destruct (test Validator.EMAIL_REGEX (Validator.email l));
    cbn [negb app length]; rewrite ?bool_decide_eq_true; naive_solver.
Qed.

(** X4.  [validateLead] accepts a lead exactly when its name and its company
    are not blank, its e-mail matches the pattern and its source is one of
    the six listed ones.  The messages come in the order name, company,
    e-mail, source, each at most once and at most four of them, and there is
    none exactly when the lead is accepted.  The normalised lead is returned
    for accepted leads only, differs from the lead in the company alone, and
    is accepted in turn. *)
Theorem validateLead_accepts_iff_four_rules_hold (lead : Lead) :
  (Validator.isValid (validateLead lead) = true
   ↔ trim (Validator.name lead) ≠ ""
     ∧ trim (Validator.company lead) ≠ ""
     ∧ test Validator.EMAIL_REGEX (Validator.email lead) = true
     ∧ Validator.source lead ∈ Validator.VALID_SOURCES)
  ∧ (Validator.isValid (validateLead lead) = true
     ↔ Validator.errors (validateLead lead) = [])
  ∧ Validator.errors (validateLead lead)
    `sublist_of` ["Name is required"; "Company is required";
                  "Invalid email format"; "Source is required";
                  "Source must be one of: LinkedIn, Webinar, Website, Conference, Referral, Twitter"]
  ∧ (length (Validator.errors (validateLead lead)) ≤ 4)%nat
  ∧ (∀ normalized,
       Validator.normalizedLead (validateLead lead) = Some normalized
       ↔ Validator.isValid (validateLead lead) = true
         ∧ normalized
           = {| Validator.name := Validator.name lead;
                Validator.email := Validator.email lead;
                Validator.company := normalizeCompany (Validator.company lead);
                Validator.source := Validator.source lead |})
  ∧ (∀ normalized,
       Validator.normalizedLead (validateLead lead) = Some normalized →
       Validator.isValid (validateLead normalized) = true
       ∧ Validator.normalizedLead (validateLead normalized) = Some normalized).
Proof.
  pose proof validateLead_verdict as Hverdict.
  assert (∀ l normalized,
     Validator.normalizedLead (validateLead l) = Some normalized
     ↔ Validator.isValid (validateLead l) = true
       ∧ normalized
         = {| Validator.name := Validator.name l;
              Validator.email := Validator.email l;
              Validator.company := normalizeCompany (Validator.company l);
              Validator.source := Validator.source l |}) as Hnorm.
  { intros l normalized. unfold validateLead.
    cbn [Validator.normalizedLead Validator.isValid].
    destruct (bool_decide _); naive_solver. }
  split_and!.
  - apply Hverdict.
  - unfold validateLead. cbn [Validator.isValid Validator.errors].
    rewrite bool_decide_eq_true. split; [apply nil_length_inv|by intros ->].
  - unfold validateLead. cbn [Validator.errors].
    change ("Source must be one of: " +:+ join ", " Validator.VALID_SOURCES)
      with "Source must be one of: LinkedIn, Webinar, Website, Conference, Referral, Twitter".
    destruct (Validator.isEmpty (Validator.name lead));
      destruct (Validator.isEmpty (Validator.company lead));
      destruct (negb (truthy (Validator.email lead))
                || negb (test Validator.EMAIL_REGEX (Validator.email lead)));
      destruct (Validator.isEmpty (Validator.source lead));
      destruct (includes Validator.VALID_SOURCES (Validator.source lead));
      cbn [negb app]; solve_sublist.
  - unfold validateLead. cbn [Validator.errors].
    destruct (Validator.isEmpty (Validator.name lead));
      destruct (Validator.isEmpty (Validator.company lead));
      destruct (negb (truthy (Validator.email lead))
                || negb (test Validator.EMAIL_REGEX (Validator.email lead)));
      destruct (Validator.isEmpty (Validator.source lead));
      destruct (includes Validator.VALID_SOURCES (Validator.source lead));
      cbn [negb app length]; lia.
  - apply Hnorm.
  - intros normalized Hsome.
    apply Hnorm in Hsome as [Hv ->].
    apply Hverdict in Hv as (Hn & Hc & He & Hs).
    assert (Validator.isValid
              (validateLead
                 {| Validator.name := Validator.name lead;
                    Validator.email := Validator.email lead;
                    Validator.company := normalizeCompany (Validator.company lead);
                    Validator.source := Validator.source lead |}) = true) as Hv'.
    { apply Hverdict.
      cbn [Validator.name Validator.email Validator.company Validator.source].
      split_and!; try done.
      rewrite normalizeCompany_trimmed. unfold normalizeCompany.
      by apply replaceWhiteSpaceRuns_nonempty. }
    split; [done|]. apply Hnorm. split; [done|].
    cbn [Validator.name Validator.email Validator.company Validator.source].
    f_equal.
    unfold normalizeCompany at 2.
    rewrite trim_clean, replaceWhiteSpaceRuns_fixed; try done.
    + apply replaceWhiteSpaceRuns_singleSpaced, trim_endsClean.
    + apply replaceWhiteSpaceRuns_startsClean, trim_startsClean.
    + apply replaceWhiteSpaceRuns_endsClean, trim_endsClean.
Qed.

(** X5.  The two versions of [validateLead] in validator.ts give the same
    verdict and the same number of messages for every lead; the messages for
    name, company, e-mail and missing source are the same ones (in another
    order), and the message for an unlisted source is worded differently. *)
Theorem validator_versions_give_same_verdict_and_messages (lead : Lead) :
  Validator2.isValid (Validator2.validateLead lead)
  = Validator.isValid (validateLead lead)
  ∧ length (Validator2.errors (Validator2.validateLead lead))
    = length (Validator.errors (validateLead lead))
  ∧ (∀ msg,
       msg ∈ ["Name is required"; "Company is required";
              "Invalid email format"; "Source is required"] →
       msg ∈ Validator2.errors (Validator2.validateLead lead)
       ↔ msg ∈ Validator.errors (validateLead lead))
  ∧ ("Invalid source" ∈ Validator2.errors (Validator2.validateLead lead)
     ↔ "Source must be one of: LinkedIn, Webinar, Website, Conference, Referral, Twitter"
         ∈ Validator.errors (validateLead lead)).
Proof.
  unfold Validator2.validateLead, validateLead.
  cbn [Validator2.isValid Validator.isValid Validator2.errors Validator.errors].
  rewrite company_rule_versions_agree, sources_versions_agree.
  unfold Validator2.EMAIL_REGEX.
  change ("Source must be one of: " +:+ join ", " Validator.VALID_SOURCES)
    with "Source must be one of: LinkedIn, Webinar, Website, Conference, Referral, Twitter".
  change (negb (truthy (Validator.name lead))
          || bool_decide (trim (Validator.name lead) = ""))
    with (Validator.isEmpty (Validator.name lead)).
  change (negb (truthy (Validator.source lead))
          || bool_decide (trim (Validator.source lead) = ""))
    with (Validator.isEmpty (Validator.source lead)).
  destruct (Validator.isEmpty (Validator.name lead));
    destruct (Validator.isEmpty (Validator.company lead));
    destruct (negb (truthy (Validator.email lead))
              || negb (test Validator.EMAIL_REGEX (Validator.email lead)));
    destruct (Validator.isEmpty (Validator.source lead));
    destruct (includes Validator.VALID_SOURCES (Validator.source lead));
    cbn [negb app length];
    (split_and!; [reflexivity|reflexivity| |];
     [intros msg; rewrite !elem_of_cons, !elem_of_nil; naive_solver
     |rewrite ?elem_of_cons, ?elem_of_nil; naive_solver]).
Qed.

(** *** Duplicate e-mails of a batch *)

Lemma get_set_eq key v m : IndexMap.get key (IndexMap.set key v m) = Some v.
Proof.
  induction m as [|[k v0] m IH]; simpl.
  - by rewrite decide_True.
  - destruct (decide (k = key)) as [->|Hne]; simpl.
    + by rewrite decide_True.
    + by rewrite decide_False.
Qed.

Lemma get_set_ne key key' v m :
  key ≠ key' → IndexMap.get key' (IndexMap.set key v m) = IndexMap.get key' m.
Proof.
  intros Hne. induction m as [|[k v0] m IH]; simpl.
  - by rewrite decide_False.
  - destruct (decide (k = key)) as [->|Hk]; simpl.
    + by rewrite !decide_False.
    + by rewrite IH.
Qed.

Lemma get_None key m : IndexMap.get key m = None ↔ key ∉ m.*1.
Proof.
  induction m as [|[k v] m IH]; simpl.
  - split; [intros _; apply not_elem_of_nil|done].
  - rewrite not_elem_of_cons. destruct (decide (k = key)) as [->|Hne].
    + naive_solver.
    + rewrite IH. naive_solver.
Qed.

Lemma set_keys key v m :
  (IndexMap.set key v m).*1
  = if decide (key ∈ m.*1) then m.*1 else m.*1 ++ [key].
Proof.
  induction m as [|[k v0] m IH].
  - destruct (decide (key ∈ ([] : IndexMap.t).*1)) as [Hin|_]; [|done].
    by apply elem_of_nil in Hin.
  - cbn [IndexMap.set]. destruct (decide (k = key)) as [->|Hne].
    + destruct (decide (key ∈ ((key, v0) :: m).*1)) as [|Hn]; [done|].
      destruct Hn. rewrite fmap_cons. by left.
    + rewrite !fmap_cons, IH. cbn [fst].
      destruct (decide (key ∈ m.*1)) as [H1|H1],
        (decide (key ∈ k :: m.*1)) as [H2|H2]; try done.
      * destruct H2. by right.
      * by apply elem_of_cons in H2 as [?|?].
Qed.

Lemma set_fresh key v m : key ∉ m.*1 → IndexMap.set key v m = m ++ [(key, v)].
Proof.
  induction m as [|[k v0] m IH]; simpl; [done|].
  rewrite not_elem_of_cons. intros [Hne Hin].
  rewrite decide_False by done. by rewrite IH.
Qed.

Lemma set_NoDup key v m : NoDup m.*1 → NoDup (IndexMap.set key v m).*1.
Proof.
  intros Hnd. rewrite set_keys. destruct (decide (key ∈ m.*1)); [done|].
  apply NoDup_app. split_and!; [done| |apply NoDup_singleton].
  intros x Hx ->%list_elem_of_singleton. done.
Qed.

Lemma push_set key index v m :
  IndexMap.get key m = Some v →
  IndexMap.push key index m = IndexMap.set key (v ++ [index]) m.
Proof.
  induction m as [|[k v0] m IH]; simpl; [done|].
  destruct (decide (k = key)) as [->|Hne]; [by intros [= ->]|].
  intros H. by rewrite IH.
Qed.

(** Both versions of the loop body do the same to the map. *)
Lemma collect_versions_agree m lead index :
  Duplicates2.collect m lead index = Duplicates.collect m lead index.
Proof.
  unfold Duplicates2.collect, Duplicates.collect.
  destruct (IndexMap.get _ m) as [v|] eqn:Hget; simpl; [|done].
  by apply push_set.
Qed.

Lemma forEach_versions_agree leads index m :
  Duplicates2.forEach leads index m = Duplicates.forEach leads index m.
Proof.
  revert index m. induction leads as [|lead rest IH]; intros index m; simpl;
    [done|].
  by rewrite collect_versions_agree, IH.
Qed.

Lemma collect_get key m lead index :
  IndexMap.get key (Duplicates.collect m lead index)
  = if decide (toLowerCase (Validator.email lead) = key)
    then Some (default [] (IndexMap.get key m) ++ [index])
    else IndexMap.get key m.
Proof.
  unfold Duplicates.collect.
  destruct (decide (toLowerCase (Validator.email lead) = key)) as [->|Hne].
  - apply get_set_eq.
  - by apply get_set_ne.
Qed.

(** What the loop has gathered under a key: what was there, then the
    positions of the key among the leads gone through. *)
Lemma forEach_get key leads index m :
  IndexMap.get key (Duplicates.forEach leads index m)
  = match IndexMap.get key m, Batch.positions key leads index with
    | None, [] => None
    | found, new => Some (default [] found ++ new)
    end.
Proof.
  revert index m. induction leads as [|lead rest IH]; intros index m; simpl.
  - destruct (IndexMap.get key m); simpl; [by rewrite app_nil_r|done].
  - rewrite IH, collect_get.
    destruct (decide (toLowerCase (Validator.email lead) = key)) as [Hk|Hne];
      simpl.
    + destruct (IndexMap.get key m); simpl; by rewrite <- ?app_assoc.
    + done.
Qed.

Lemma forEach_NoDup leads index m :
  NoDup m.*1 → NoDup (Duplicates.forEach leads index m).*1.
Proof.
  revert index m. induction leads as [|lead rest IH]; intros index m Hnd; simpl;
    [done|].
  apply IH. unfold Duplicates.collect. by apply set_NoDup.
Qed.

Lemma positions_spec key leads index i :
  i ∈ Batch.positions key leads index
  ↔ ∃ j lead, i = (index + j)%nat ∧ leads !! j = Some lead
              ∧ toLowerCase (Validator.email lead) = key.
Proof.
  revert index. induction leads as [|lead rest IH]; intros index; simpl.
  - rewrite elem_of_nil. naive_solver.
  - rewrite elem_of_app, IH. split.
    + intros [Hi|(j & l & -> & Hl & Hk)].
      * destruct (decide _) as [Hk|]; [|by apply elem_of_nil in Hi].
        apply list_elem_of_singleton in Hi as ->.
        exists 0%nat, lead. split_and!; [lia|done..].
      * exists (S j), l. split_and!; [lia|done..].
    + intros (j & l & -> & Hl & Hk). destruct j as [|j]; simpl in Hl.
      * injection Hl as ->. left. rewrite decide_True by done.
        apply list_elem_of_singleton. lia.
      * right. exists j, l. split_and!; [lia|done..].
Qed.

Lemma positions_lower_bound key leads index i :
  i ∈ Batch.positions key leads index → (index ≤ i)%nat.
Proof. rewrite positions_spec. intros (j & _ & -> & _). lia. Qed.

Lemma positions_sorted key leads index :
  StronglySorted lt (Batch.positions key leads index).
Proof.
  revert index. induction leads as [|lead rest IH]; intros index; simpl.
  - constructor.
  - destruct (decide _); simpl; [|apply IH].
    constructor; [apply IH|].
    apply Forall_forall. intros i Hi%positions_lower_bound. lia.
Qed.

Lemma get_filter key (P : list nat → bool) m :
  NoDup m.*1 →
  IndexMap.get key (List.filter (λ '(_, v), P v) m)
  = match IndexMap.get key m with
    | Some v => if P v then Some v else None
    | None => None
    end.
Proof.
  induction m as [|[k v] m IH]; simpl; [done|].
  intros [Hk Hnd]%NoDup_cons.
  destruct (decide (k = key)) as [->|Hne].
  - destruct (P v) eqn:HP; simpl; [by rewrite decide_True|].
    rewrite IH by done.
    by apply get_None in Hk as ->.
  - destruct (P v); simpl; [rewrite decide_False by done|]; by apply IH.
Qed.

Lemma filter_keys (P : list nat → bool) (m : IndexMap.t) :
  (List.filter (λ '(_, v), P v) m).*1 `sublist_of` m.*1.
Proof.
  induction m as [|[k v] m IH]; simpl; [done|].
  destruct (P v); simpl; [by apply sublist_skip|by apply sublist_cons].
Qed.

Lemma detectDuplicateEmails_get key leads :
  IndexMap.get key (Duplicates.detectDuplicateEmails leads)
  = if (1 <? length (Batch.positions key leads 0))%nat
    then Some (Batch.positions key leads 0) else None.
Proof.
  unfold Duplicates.detectDuplicateEmails.
  rewrite (get_filter key (λ v, (1 <? length v)%nat))
    by (apply forEach_NoDup; constructor).
  rewrite forEach_get. simpl.
  by destruct (Batch.positions key leads 0) as [|i [|j l]].
Qed.

(** X6.  [detectDuplicateEmails] maps a lower-cased e-mail to the positions
    of the batch that carry it, in increasing order, when there are at least
    two of them, and holds no other key; no key stands twice in the map. *)
Theorem detectDuplicateEmails_maps_shared_email_to_its_positions
    (leads : list Lead) :
  (∀ key indices,
     IndexMap.get key (Duplicates.detectDuplicateEmails leads) = Some indices →
     (2 ≤ length indices)%nat
     ∧ StronglySorted lt indices
     ∧ ∀ i, i ∈ indices
            ↔ ∃ lead, leads !! i = Some lead
                      ∧ toLowerCase (Validator.email lead) = key)
  ∧ (∀ key i j first second,
       i ≠ j → leads !! i = Some first → leads !! j = Some second →
       toLowerCase (Validator.email first) = key →
       toLowerCase (Validator.email second) = key →
       is_Some (IndexMap.get key (Duplicates.detectDuplicateEmails leads)))
  ∧ NoDup (Duplicates.detectDuplicateEmails leads).*1.
Proof.
  split_and!.
  - intros key indices. rewrite detectDuplicateEmails_get.
    destruct (Nat.ltb_spec 1 (length (Batch.positions key leads 0)));
      [|done].
    intros [= <-]. split_and!; [lia|apply positions_sorted|].
    intros i. rewrite positions_spec. naive_solver.
  - intros key i j first second Hij Hi Hj Hki Hkj.
    rewrite detectDuplicateEmails_get.
    assert (i ∈ Batch.positions key leads 0) as Pi
      by (apply positions_spec; by exists i, first).
    assert (j ∈ Batch.positions key leads 0) as Pj
      by (apply positions_spec; by exists j, second).
    destruct (Batch.positions key leads 0) as [|a [|b l]].
    + by apply elem_of_nil in Pi.
    + apply list_elem_of_singleton in Pi, Pj. congruence.
    + done.
  - unfold Duplicates.detectDuplicateEmails.
    eapply sublist_NoDup;
      [|apply (filter_keys (λ v, (1 <? length v)%nat))].
    apply forEach_NoDup. constructor.
Qed.

Lemma detectDuplicateEmails_maps_shared_email_to_its_positions_witness :
  IndexMap.get "jane@example.com"
    (Duplicates.detectDuplicateEmails
       [Fixtures.jane; Fixtures.bademail; Fixtures.janeShouting])
  = Some [0; 2]%nat.
Proof.
  destruct (detectDuplicateEmails_maps_shared_email_to_its_positions
              [Fixtures.jane; Fixtures.bademail; Fixtures.janeShouting])
    as (_ & Hshared & _).
  destruct (Hshared "jane@example.com" 0%nat 2%nat Fixtures.jane
              Fixtures.janeShouting) as [indices Hget];
    [lia|reflexivity..|].
  rewrite Hget. vm_compute in Hget. by injection Hget as <-.
Defined.

Lemma keepDuplicates_filter entries duplicates :
  NoDup (duplicates.*1 ++ entries.*1) →
  Duplicates2.keepDuplicates entries duplicates
  = duplicates ++ List.filter (λ '(_, v), (1 <? length v)%nat) entries.
Proof.
  revert duplicates.
  induction entries as [|[k v] entries IH]; intros d Hnd; simpl.
  - by rewrite app_nil_r.
  - rewrite fmap_cons in Hnd. cbn [fst] in Hnd.
    assert (k ∉ d.*1) as Hk.
    { apply NoDup_app in Hnd as (_ & Hdis & _).
      intros Hin. apply (Hdis k Hin). by left. }
    destruct (1 <? length v)%nat.
    + rewrite set_fresh by done. rewrite IH.
      * by rewrite <- app_assoc.
      * by rewrite fmap_app, <- app_assoc.
    + apply IH. apply NoDup_app in Hnd as (Hd & Hdis & [_ He]%NoDup_cons).
      apply NoDup_app. split_and!; [done| |done].
      intros x Hx Hin. apply (Hdis x Hx). by right.
Qed.

(** X7.  The two versions of [detectDuplicateEmails] in validator.ts return
    the same map for every batch, entries in the same order. *)
Theorem detectDuplicateEmails_versions_agree (leads : list Lead) :
  Duplicates2.detectDuplicateEmails leads
  = Duplicates.detectDuplicateEmails leads.
Proof.
  unfold Duplicates2.detectDuplicateEmails, Duplicates.detectDuplicateEmails.
  rewrite forEach_versions_agree.
  apply keepDuplicates_filter. simpl. apply forEach_NoDup. constructor.
Qed.

(** *** Duplicates reported and duplicates skipped *)

Lemma positions_head key leads i first indices :
  leads !! i = Some first →
  toLowerCase (Validator.email first) = key →
  Batch.positions key leads 0 = indices →
  (∀ j earlier, (j < i)%nat → leads !! j = Some earlier →
                toLowerCase (Validator.email earlier) ≠ key)
  ↔ head indices = Some i.
Proof.
  intros Hi Hk <-.
  assert (i ∈ Batch.positions key leads 0) as Pi
    by (apply positions_spec; by exists i, first).
  pose proof (positions_sorted key leads 0) as Hsorted.
  destruct (Batch.positions key leads 0) as [|a l] eqn:Hpos;
    [by apply elem_of_nil in Pi|].
  simpl. apply StronglySorted_inv in Hsorted as [_ Hlt].
  assert (a ∈ Batch.positions key leads 0) as Pa by (rewrite Hpos; by left).
  apply positions_spec in Pa as (j & aj & -> & Hj & Hkj). simpl in *.
  split.
  - intros Hnone. f_equal.
    apply elem_of_cons in Pi as [->|Pi]; [done|].
    rewrite Forall_forall in Hlt. specialize (Hlt i Pi).
    by destruct (Hnone j aj).
  - intros [= ->] j' earlier Hlt' Hj' Hk'.
    assert (j' ∈ Batch.positions key leads 0) as Pj
      by (apply positions_spec; by exists j', earlier).
    rewrite Hpos in Pj. apply elem_of_cons in Pj as [->|Pj]; [lia|].
    rewrite Forall_forall in Hlt. specialize (Hlt j' Pj). lia.
Qed.

(** X8.  What [processLeads] skips as a duplicate, [detectDuplicateEmails]
    reports: when the turn of a valid record at position [i] sends nothing
    to the remote, the map holds the key of the record with [i] among its
    positions, and not as the first of them.  And a valid record whose key
    the map does not hold, or holds with [i] as its first position, reaches
    the remote: its turn begins with the lookup of its e-mail. *)
Theorem skipped_duplicates_are_reported_positions
    (env : Env) (leads : list Lead) (t : trace) (i : nat) (lead : Lead)
    (r : LeadProcessor.ProcessResult) (added : trace) :
  leads !! i = Some lead → valid lead →
  turns env leads ∅ t !! i = Some (r, added) →
  (added = [] →
   ∃ indices,
     IndexMap.get (emailKey lead) (Duplicates.detectDuplicateEmails leads)
     = Some indices
     ∧ i ∈ indices ∧ head indices ≠ Some i)
  ∧ ((∀ indices,
        IndexMap.get (emailKey lead) (Duplicates.detectDuplicateEmails leads)
        = Some indices → head indices = Some i) →
     ∃ rest, added = Sent (Get (lookupUrl env) (Validator.email lead)) :: rest).
Proof.
  intros Hi Hv Hturn.
  destruct (turns_lookup env leads ∅ t i lead r added Hi Hturn)
    as (_ & _ & Hfresh).
  specialize (Hfresh Hv (not_elem_of_empty _)).
  assert (i ∈ Batch.positions (emailKey lead) leads 0) as Pi
    by (apply positions_spec; by exists i, lead).
  assert (∀ j earlier, (j < i)%nat → leads !! j = Some earlier →
            emailKey earlier = emailKey lead →
            IndexMap.get (emailKey lead) (Duplicates.detectDuplicateEmails leads)
            = Some (Batch.positions (emailKey lead) leads 0)
            ∧ head (Batch.positions (emailKey lead) leads 0) ≠ Some i)
    as Hearlier.
  { intros j earlier Hj Hl Hk. split.
    - rewrite detectDuplicateEmails_get.
      assert (j ∈ Batch.positions (emailKey lead) leads 0) as Pj
        by (apply positions_spec; by exists j, earlier).
      destruct (Batch.positions (emailKey lead) leads 0) as [|a [|b l]];
        [by apply elem_of_nil in Pi| |done].
      apply list_elem_of_singleton in Pi, Pj. lia.
    - intros Hhead.
      pose proof (proj2 (positions_head (emailKey lead) leads i lead _ Hi
                           eq_refl eq_refl) Hhead) as Hnone.
      by apply (Hnone j earlier). }
  split.
  - intros ->.
    destruct (decide (Exists (λ l, emailKey l = emailKey lead) (take i leads)))
      as [Hex|Hnone].
    + apply Exists_exists in Hex as (earlier & Hin & Hk).
      apply elem_of_take in Hin as (j & Hl & Hj).
      destruct (Hearlier j earlier Hj Hl Hk) as [Hget Hhead].
      by eexists.
    + destruct Hfresh as [rest Hrest]; [|done].
      intros j earlier Hj Hl _ Hk. apply Hnone, Exists_exists.
      exists earlier. split; [|done]. apply elem_of_take. by exists j.
  - intros Hfirst. apply Hfresh. intros j earlier Hj Hl _ Hk.
    destruct (Hearlier j earlier Hj Hl Hk) as [Hget Hhead].
    by apply Hhead, Hfirst.
Qed.

Lemma skipped_duplicates_are_reported_positions_witness :
  ∃ indices,
    IndexMap.get "jane@example.com"
      (Duplicates.detectDuplicateEmails [Fixtures.jane; Fixtures.janeShouting])
    = Some indices
    ∧ 1%nat ∈ indices ∧ head indices ≠ Some 1%nat.
Proof.
  refine (proj1 (skipped_duplicates_are_reported_positions Fixtures.empty
                   [Fixtures.jane; Fixtures.janeShouting] [] 1
                   Fixtures.janeShouting
                   (skippedResult Fixtures.janeShouting) [] _ _ _) _);
    reflexivity.
Defined.

(** *** The CSV reader *)

Import Csv.

Lemma split_nonempty sep s : split sep s ≠ [].
Proof.
  destruct s as [|c s]; simpl; [done|].
  destruct (decide (c = sep)); [done|]. by destruct (split sep s).
Qed.

Lemma split_length sep s : length (split sep s) = S (occurrences sep s).
Proof.
  induction s as [|c s IH]; simpl; [done|].
  destruct (decide (c = sep)) as [->|Hne].
  - rewrite bool_decide_eq_true_2 by done. simpl. by rewrite IH.
  - rewrite bool_decide_eq_false_2 by done. simpl.
    pose proof (split_nonempty sep s).
    destruct (split sep s); [done|]. simpl in *. lia.
Qed.

Lemma trimEnd_ink c s : isWhiteSpace c = false → trimEnd (String c s) ≠ "".
Proof. intros Hc. simpl. destruct (trimEnd s); by rewrite ?Hc. Qed.

Lemma trim_ink c s : isWhiteSpace c = false → trim (String c s) ≠ "".
Proof. intros Hc. unfold trim. simpl. rewrite Hc. by apply trimEnd_ink. Qed.

Lemma trim_nonempty_ink s :
  trim s ≠ "" → ∃ c t, trim s = String c t ∧ isWhiteSpace c = false.
Proof.
  intros Hne. pose proof (trim_startsClean s) as Hs.
  destruct (trim s) as [|c t]; [done|]. by exists c, t.
Qed.

(** The first line of a text that does not begin with white space is not
    blank. *)
Lemma first_line_not_blank s :
  s ≠ "" → startsClean s → trim (default "" (head (split LF s))) ≠ "".
Proof.
  destruct s as [|c s]; [done|]. intros _ Hc. simpl in Hc. simpl.
  destruct (decide (c = LF)) as [->|Hne]; [done|].
  pose proof (split_nonempty LF s).
  destruct (split LF s) as [|piece rest]; [done|]. simpl.
  by apply trim_ink.
Qed.

Lemma trim_nil : trim "" = "".
Proof. done. Qed.

Lemma default_trim_trimmed (field : option string) :
  trim (default "" (trim <$> field)) = default "" (trim <$> field).
Proof. destruct field; simpl; [apply trim_idempotent|done]. Qed.

Section ReaderFacts.
Import CsvParser2.

Lemma checkRows_spec lines k :
  (checkRows lines k = Ok ()
   ↔ ∀ i line, lines !! i = Some line → trim line ≠ "" →
               occurrences "," line = 3%nat)
  ∧ (∀ e, checkRows lines k = Throw e →
       ∃ i line,
         lines !! i = Some line ∧ trim line ≠ ""
         ∧ occurrences "," line ≠ 3%nat
         ∧ (∀ j earlier, (j < i)%nat → lines !! j = Some earlier →
                         trim earlier ≠ "" → occurrences "," earlier = 3%nat)
         ∧ e = newError ("Malformed row " +:+ pretty (k + i + 2)%nat
                         +:+ ": expected 4 columns, got "
                         +:+ pretty (S (occurrences "," line)))).
Proof.
  revert k. induction lines as [|line rest IH]; intros k; simpl.
  - split; [done|]. intros e [=].
  - destruct (IH (S k)) as [IHok IHthrow].
    case_bool_decide as Hblank.
    { split.
      - rewrite IHok. split.
        + intros Hrest [|i] l; simpl; [by intros [= <-]|apply Hrest].
        + intros Hall i l. apply (Hall (S i)).
      - intros e (i & l & Hl & Hne & Hocc & Hearlier & ->)%IHthrow.
        exists (S i), l. split_and!; try done.
        + intros [|j] earlier Hj; simpl; [by intros [= <-]|].
          apply Hearlier. lia.
        + by replace (k + S i + 2)%nat with (S k + i + 2)%nat by lia. }
    rewrite split_length. case_bool_decide as Hcount; simpl.
    { injection Hcount as Hcount. split.
      - rewrite IHok. split.
        + intros Hrest [|i] l; simpl; [by intros [= <-]|apply Hrest].
        + intros Hall i l. apply (Hall (S i)).
      - intros e (i & l & Hl & Hne & Hocc & Hearlier & ->)%IHthrow.
        exists (S i), l. split_and!; try done.
        + intros [|j] earlier Hj; simpl; [by intros [= <-]|].
          apply Hearlier. lia.
        + by replace (k + S i + 2)%nat with (S k + i + 2)%nat by lia. }
    split.
    + split; [done|]. intros Hall. destruct Hcount. f_equal.
      by apply (Hall 0%nat line).
    + intros e [= <-]. exists 0%nat, line. split_and!; try done.
      * intros Hocc. apply Hcount. by rewrite Hocc.
      * intros j earlier Hj. lia.
      * by replace (k + 0 + 2)%nat with (k + 2)%nat by lia.
Qed.

End ReaderFacts.

(** X9.  [validateRows] accepts a text exactly when every line after the
    first of the trimmed text that is not blank holds three commas, quoted
    or not.  Otherwise it throws for the first line that does not, naming
    its number in the file (the header is line 1) and its number of
    pieces. *)
Theorem validateRows_accepts_iff_three_commas_per_row (content : string) :
  (CsvParser2.validateRows content = Ok ()
   ↔ ∀ i line,
       drop 1 (split LF (trim content)) !! i = Some line →
       trim line ≠ "" → occurrences "," line = 3%nat)
  ∧ (∀ e, CsvParser2.validateRows content = Throw e →
       ∃ i line,
         drop 1 (split LF (trim content)) !! i = Some line
         ∧ trim line ≠ ""
         ∧ occurrences "," line ≠ 3%nat
         ∧ (∀ j earlier, (j < i)%nat →
              drop 1 (split LF (trim content)) !! j = Some earlier →
              trim earlier ≠ "" → occurrences "," earlier = 3%nat)
         ∧ e = newError ("Malformed row " +:+ pretty (i + 2)%nat
                         +:+ ": expected 4 columns, got "
                         +:+ pretty (S (occurrences "," line)))).
Proof.
  unfold CsvParser2.validateRows.
  apply (checkRows_spec (drop 1 (split LF (trim content))) 0).
Qed.

Lemma validateHeaders_spec (content : string) :
  (CsvParser2.validateHeaders content = Ok ()
   ↔ ∀ h, h ∈ REQUIRED_HEADERS →
          h ∈ (trim <$> split "," (default "" (head (split LF content)))))
  ∧ (∀ e, CsvParser2.validateHeaders content = Throw e →
       ∃ before missing after,
         REQUIRED_HEADERS = before ++ missing :: after
         ∧ (missing ∉ trim <$> split "," (default "" (head (split LF content))))
         ∧ (∀ h, h ∈ before →
                 h ∈ (trim <$> split "," (default "" (head (split LF content)))))
         ∧ e = newError ("Invalid CSV: missing required header " +:+ quote
                         +:+ missing +:+ quote)).
Proof.
  unfold CsvParser2.validateHeaders, REQUIRED_HEADERS.
  set (headers := trim <$> split "," (default "" (head (split LF content)))).
  pose proof (includes_spec headers "Name") as HN.
  pose proof (includes_spec headers "Email") as HE.
  pose proof (includes_spec headers "Company") as HC.
  pose proof (includes_spec headers "Source") as HS.
  cbn [List.find].
  destruct (includes headers "Name"); cbn [negb truthy].
  2: { split; [split; [done|]|].
       - intros Hall. assert ("Name" ∈ headers) as Hin by (apply Hall; set_solver).
         by apply HN in Hin.
       - intros e [= <-]. exists [], "Name", ["Email"; "Company"; "Source"].
         split_and!; [done| |set_solver|done].
         intros Hin. by apply HN in Hin. }
  destruct (includes headers "Email"); cbn [negb truthy].
  2: { split; [split; [done|]|].
       - intros Hall. assert ("Email" ∈ headers) as Hin by (apply Hall; set_solver).
         by apply HE in Hin.
       - intros e [= <-]. exists ["Name"], "Email", ["Company"; "Source"].
         split_and!; [done| | |done].
         + intros Hin. by apply HE in Hin.
         + intros h ->%list_elem_of_singleton. by apply HN. }
  destruct (includes headers "Company"); cbn [negb truthy].
  2: { split; [split; [done|]|].
       - intros Hall.
         assert ("Company" ∈ headers) as Hin by (apply Hall; set_solver).
         by apply HC in Hin.
       - intros e [= <-]. exists ["Name"; "Email"], "Company", ["Source"].
         split_and!; [done| | |done].
         + intros Hin. by apply HC in Hin.
         + intros h. rewrite !elem_of_cons, elem_of_nil.
           intros [->|[->|[]]]; [by apply HN|by apply HE]. }
  destruct (includes headers "Source"); cbn [negb truthy].
  2: { split; [split; [done|]|].
       - intros Hall.
         assert ("Source" ∈ headers) as Hin by (apply Hall; set_solver).
         by apply HS in Hin.
       - intros e [= <-]. exists ["Name"; "Email"; "Company"], "Source", [].
         split_and!; [done| | |done].
         + intros Hin. by apply HS in Hin.
         + intros h. rewrite !elem_of_cons, elem_of_nil.
           intros [->|[->|[->|[]]]]; [by apply HN|by apply HE|by apply HC]. }
  split; [|done]. split; [|done]. intros _ h.
  rewrite !elem_of_cons, elem_of_nil.
  intros [->|[->|[->|[->|[]]]]];
    [by apply HN|by apply HE|by apply HC|by apply HS].
Qed.

(** X10.  [validateHeaders] accepts a text exactly when each of Name,
    Email, Company and Source is, after trimming, one of the comma-separated
    pieces of its first line; other pieces do not matter.  Otherwise it
    throws naming the first of the four that is missing. *)
Theorem validateHeaders_accepts_iff_four_names_present (content : string) :
  (CsvParser2.validateHeaders content = Ok ()
   ↔ ∀ h, h ∈ REQUIRED_HEADERS →
          h ∈ (trim <$> split "," (default "" (head (split LF content)))))
  ∧ (∀ e, CsvParser2.validateHeaders content = Throw e →
       ∃ before missing after,
         REQUIRED_HEADERS = before ++ missing :: after
         ∧ (missing ∉ trim <$> split "," (default "" (head (split LF content))))
         ∧ (∀ h, h ∈ before →
                 h ∈ (trim <$> split "," (default "" (head (split LF content)))))
         ∧ e = newError ("Invalid CSV: missing required header " +:+ quote
                         +:+ missing +:+ quote)).
Proof. apply validateHeaders_spec. Qed.

Lemma mapToLead_trimmed record : Batch.trimmed (CsvParser2.mapToLead record).
Proof. repeat split; apply default_trim_trimmed. Qed.

Lemma toLead_trimmed record : Batch.trimmed (CsvParser.toLead record).
Proof. repeat split; apply trim_idempotent. Qed.

(** Both readers make the same lead of a record. *)
Lemma mapToLead_toLead record :
  CsvParser2.mapToLead record = CsvParser.toLead record.
Proof.
  unfold CsvParser2.mapToLead, CsvParser.toLead.
  by destruct (record !! "Name"), (record !! "Email"), (record !! "Company"),
    (record !! "Source").
Qed.

(** X11.  [parseCSVFile] of unnamed/part_000 hands the text to csv-parse
    only after both checks have passed: a text that fails a check is
    rejected with the error of the check, whatever csv-parse would make of
    it.  When it returns leads, the file was read, its first line names the
    four columns, each of its rows that is not blank holds three commas, and
    the leads are the records of csv-parse in their order, each field
    trimmed.  A failure of csv-parse is thrown again with its message after
    "Malformed CSV row: ". *)
Theorem parseCSVFile_split_version_checks_before_parsing
    (readFileSync : string → result string)
    (parse : string → result (list CsvRecord))
    (shownInherited : string → string) (filePath : string) :
  (∀ leads,
     CsvParser2.parseCSVFile readFileSync parse shownInherited filePath
     = Ok leads →
     ∃ content records,
       readFileSync filePath = Ok content
       ∧ parse content = Ok records
       ∧ leads = CsvParser2.mapToLead <$> records
       ∧ (∀ h, h ∈ REQUIRED_HEADERS →
            h ∈ (trim <$> split "," (default "" (head (split LF content)))))
       ∧ (∀ i line,
            drop 1 (split LF (trim content)) !! i = Some line →
            trim line ≠ "" → occurrences "," line = 3%nat)
       ∧ Forall Batch.trimmed leads)
  ∧ (∀ content e,
       readFileSync filePath = Ok content →
       CsvParser2.validateHeaders content = Throw e →
       CsvParser2.parseCSVFile readFileSync parse shownInherited filePath
       = Throw e)
  ∧ (∀ content e,
       readFileSync filePath = Ok content →
       CsvParser2.validateHeaders content = Ok () →
       CsvParser2.validateRows content = Throw e →
       CsvParser2.parseCSVFile readFileSync parse shownInherited filePath
       = Throw e)
  ∧ (∀ content error,
       readFileSync filePath = Ok content →
       CsvParser2.validateHeaders content = Ok () →
       CsvParser2.validateRows content = Ok () →
       parse content = Throw error →
       CsvParser2.parseCSVFile readFileSync parse shownInherited filePath
       = Throw (newError ("Malformed CSV row: " +:+ message error)))
  ∧ (∀ error,
       readFileSync filePath = Throw error →
       CsvParser2.parseCSVFile readFileSync parse shownInherited filePath
       = Throw (newError
                  (CsvParser2.errorMessage shownInherited filePath error))
       ∧ (code error = Some "ENOENT" →
          CsvParser2.errorMessage shownInherited filePath error
          = "File not found: " +:+ filePath)
       ∧ (code error = Some "EACCES" →
          CsvParser2.errorMessage shownInherited filePath error
          = "Permission denied: " +:+ filePath)
       ∧ ((∀ c, code error = Some c →
                c ∉ "ENOENT" :: "EACCES" :: CsvParser2.inheritedKeys) →
          CsvParser2.errorMessage shownInherited filePath error
          = message error)).
Proof.
  unfold CsvParser2.parseCSVFile, CsvParser2.readFile, rbind.
  split_and!.
  - intros leads.
    destruct (readFileSync filePath) as [content|error]; [|done].
    destruct (CsvParser2.validateHeaders content) as [[]|e] eqn:Hh; [|done].
    destruct (CsvParser2.validateRows content) as [[]|e] eqn:Hr; [|done].
    destruct (parse content) as [records|error] eqn:Hp; [|done].
    intros [= <-]. exists content, records. split_and!; try done.
    + by apply validateHeaders_spec.
    + by apply (checkRows_spec (drop 1 (split LF (trim content))) 0).
    + apply Forall_fmap, Forall_forall. intros record _.
      apply mapToLead_trimmed.
  - intros content e -> ->. done.
  - intros content e -> -> ->. done.
  - intros content error -> -> -> ->. done.
  - intros error ->. split; [done|]. unfold CsvParser2.errorMessage.
    split_and!.
    + by intros ->.
    + by intros ->.
    + destruct (code error) as [c|]; [|done]. intros Hc.
      specialize (Hc c eq_refl).
      apply not_elem_of_cons in Hc as [? Hc].
      apply not_elem_of_cons in Hc as [? Hc].
      rewrite !bool_decide_eq_false_2 by done.
      unfold includes. by rewrite bool_decide_eq_false_2.
Qed.

Lemma checkHeaders_spec required headers :
  (CsvParser.checkHeaders required headers = Ok ()
   ↔ ∀ h, h ∈ required → h ∈ headers)
  ∧ (∀ e, CsvParser.checkHeaders required headers = Throw e →
       e = newError ("Invalid CSV: missing required headers. Expected: "
                     +:+ "Name, Email, Company, Source" +:+ ". Got: "
                     +:+ join ", " headers)
       ∧ ∃ h, h ∈ required ∧ h ∉ headers).
Proof.
  induction required as [|h rest [IHok IHthrow]]; simpl.
  - split; [|done]. split; [|done]. intros _ h Hin. by apply elem_of_nil in Hin.
  - pose proof (includes_spec headers h) as Hh.
    destruct (includes headers h); simpl.
    + split.
      * rewrite IHok. split.
        -- intros Hall x [->|Hin]%elem_of_cons; [by apply Hh|by apply Hall].
        -- intros Hall x Hin. apply Hall. by right.
      * intros e [-> (x & Hin & Hx)]%IHthrow. split; [done|].
        exists x. split; [by right|done].
    + split.
      * split; [done|]. intros Hall.
        assert (h ∈ headers) as Hin by (apply Hall; by left).
        by apply Hh in Hin.
      * intros e [= <-]. split; [done|]. exists h. split; [by left|].
        intros Hin. by apply Hh in Hin.
Qed.

(** X12.  [parseCSVFile] of src/csvParser.ts answers a text that is blank,
    and no other text it could read, with "Invalid CSV: missing required
    headers".  When it returns leads, the text is not blank, the first line
    of the trimmed text names the four columns, and the leads are the
    records of csv-parse in their order, each field trimmed.  A failure of
    csv-parse is thrown again as "Malformed CSV: ", with "column count
    mismatch. " added when its message speaks of a column or a field; a
    failure to read the file other than ENOENT and EACCES is thrown again
    as it is. *)
Theorem parseCSVFile_rejects_blank_text_and_returns_trimmed_leads
    (readFileSync : string → result string)
    (parse : string → result (list CsvRecord)) (filePath : string) :
  (∀ content,
     readFileSync filePath = Ok content →
     CsvParser.parseCSVFile readFileSync parse filePath
     = Throw (newError "Invalid CSV: missing required headers")
     ↔ trim content = "")
  ∧ (∀ leads,
       CsvParser.parseCSVFile readFileSync parse filePath = Ok leads →
       ∃ content records,
         readFileSync filePath = Ok content
         ∧ parse content = Ok records
         ∧ leads = CsvParser.toLead <$> records
         ∧ trim content ≠ ""
         ∧ (∀ h, h ∈ REQUIRED_HEADERS →
              h ∈ (trim <$> split ","
                              (default "" (head (split LF (trim content))))))
         ∧ Forall Batch.trimmed leads)
  ∧ (∀ content parseError,
       readFileSync filePath = Ok content →
       trim content ≠ "" →
       (∀ h, h ∈ REQUIRED_HEADERS →
          h ∈ (trim <$> split ","
                          (default "" (head (split LF (trim content)))))) →
       parse content = Throw parseError →
       CsvParser.parseCSVFile readFileSync parse filePath
       = Throw (newError
                  ("Malformed CSV: "
                   +:+ (if search (WordIgnoringCase "column") (message parseError)
                           || search (WordIgnoringCase "field") (message parseError)
                        then "column count mismatch. " else "")
                   +:+ message parseError)))
  ∧ (∀ err,
       readFileSync filePath = Throw err →
       CsvParser.parseCSVFile readFileSync parse filePath
       = Throw (if bool_decide (code err = Some "ENOENT")
                then newError ("File not found: " +:+ filePath)
                else if bool_decide (code err = Some "EACCES")
                then newError ("Permission denied: " +:+ filePath)
                else err)).
Proof.
  unfold CsvParser.parseCSVFile, rbind.
  assert (∀ content, trim content ≠ "" →
            bool_decide (length (split LF (trim content)) = 0%nat)
            || bool_decide (trim (default "" (head (split LF (trim content)))) = "")
            = false) as Hink.
  { intros content Hne. rewrite split_length. simpl.
    apply bool_decide_eq_false_2, first_line_not_blank;
      [done|apply trim_startsClean]. }
  split_and!.
  - intros content ->. split.
    + destruct (decide (trim content = "")) as [|Hne]; [done|].
      rewrite Hink by done.
      destruct (checkHeaders_spec REQUIRED_HEADERS
                  (trim <$> split "," (default "" (head (split LF (trim content))))))
        as [_ Hthrow].
      destruct (CsvParser.checkHeaders _ _) as [[]|e].
      * destruct (parse content) as [records|parseError]; [done|].
        destruct (_ || _); intros [= H]; vm_compute in H; discriminate.
      * destruct (Hthrow e eq_refl) as [-> _].
        intros [= H]; vm_compute in H; discriminate.
    + by intros ->.
  - intros leads.
    destruct (readFileSync filePath) as [content|err];
      [|by repeat case_bool_decide].
    destruct (decide (trim content = "")) as [Hblank|Hne];
      [by rewrite Hblank|].
    rewrite Hink by done.
    destruct (checkHeaders_spec REQUIRED_HEADERS
                (trim <$> split "," (default "" (head (split LF (trim content))))))
      as [Hok _].
    destruct (CsvParser.checkHeaders _ _) as [[]|e]; [|done].
    destruct (parse content) as [records|parseError] eqn:Hp;
      [|by destruct (_ || _)].
    intros [= <-]. exists content, records. split_and!; try done.
    + by apply Hok.
    + apply Forall_fmap, Forall_forall. intros record _. apply toLead_trimmed.
  - intros content parseError -> Hne Hheaders ->.
    rewrite Hink by done.
    destruct (checkHeaders_spec REQUIRED_HEADERS
                (trim <$> split "," (default "" (head (split LF (trim content))))))
      as [Hok _].
    apply Hok in Hheaders as ->.
    by destruct (_ || _).
  - intros err ->. by repeat case_bool_decide.
Qed.

(** *** A lead the remote does not know *)

Section CreateFacts.
Import LeadProcessor.
Variable env : Env.

Lemma reconcile_created lead t t1 c t2 :
  lookupLead env (Validator.email lead) t = (Ok None, t1) →
  createLead env lead t1 = (Ok c, t2) →
  reconcile env lead t
  = (Ok {| lead := lead; action := Action.created; error := None |}, t2).
Proof.
  intros Hl Hc. unfold reconcile, tryCatch, reconcileTry, bind.
  by rewrite Hl, Hc.
Qed.

Lemma createLeadOnce_accepted lead t data :
  axios env t (Post (createUrl env) lead) = Resolved data →
  exposesNameAndEmail data = true →
  ∃ c, createLeadOnce env lead t
       = (Ok c, t ++ [Sent (Post (createUrl env) lead)]).
Proof.
  intros H Hx. unfold createLeadOnce, bind, send, lift. rewrite H.
  destruct (validateLeadResponse_accepted data Hx) as [c ->]. by exists c.
Qed.

End CreateFacts.

(** X13.  A valid lead whose key has not been seen and whose lookup is
    answered "not found" is created with one request: when the remote
    answers the create request with a reply that exposes name and e-mail,
    the result is "created" and the turn has sent the lookup and that one
    request.  When the remote rejects the create request with an error that
    is not retryable, the turn has sent the same two requests and the
    result is an error with the message of the rejection, unless its status
    is 409 (the lead was created by someone else in between), in which case
    the result is "skipped". *)
Theorem unknown_lead_is_created_with_one_request
    (env : Env) (seenEmails : gset string) (lead : Lead) (t : trace) :
  valid lead → emailKey lead ∉ seenEmails →
  notFoundSignal (axios env t (Get (lookupUrl env) (Validator.email lead)))
  = true →
  (∀ data,
     axios env (t ++ [Sent (Get (lookupUrl env) (Validator.email lead))])
       (Post (createUrl env) lead) = Resolved data →
     exposesNameAndEmail data = true →
     LeadProcessor.processLead env seenEmails lead t
     = (Ok ({[emailKey lead]} ∪ seenEmails,
            {| LeadProcessor.lead := lead;
               LeadProcessor.action := Action.created;
               LeadProcessor.error := None |}),
        t ++ [Sent (Get (lookupUrl env) (Validator.email lead));
              Sent (Post (createUrl env) lead)]))
  ∧ (∀ err,
       axios env (t ++ [Sent (Get (lookupUrl env) (Validator.email lead))])
         (Post (createUrl env) lead) = Rejected err →
       isRetryable err = false →
       LeadProcessor.processLead env seenEmails lead t
       = (Ok ({[emailKey lead]} ∪ seenEmails,
              if bool_decide (status err = Some 409) then skippedResult lead
              else {| LeadProcessor.lead := lead;
                      LeadProcessor.action := Action.error;
                      LeadProcessor.error := Some (messageOf err) |}),
          t ++ [Sent (Get (lookupUrl env) (Validator.email lead));
                Sent (Post (createUrl env) lead)])).
Proof.
  intros Hv Hin Hnf.
  assert (lookupLead env (Validator.email lead) t
          = (Ok None, t ++ [Sent (Get (lookupUrl env) (Validator.email lead))]))
    as Hl by (apply withRetryFrom_ok; by apply lookupLeadOnce_notFound).
  split.
  - intros data Hax Hx.
    destruct (createLeadOnce_accepted env lead _ data Hax Hx) as [c Hc].
    eapply processLead_fresh; [done..|].
    eapply reconcile_created; [done|].
    unfold createLead, withRetry. change (Z.to_nat MAX_RETRIES) with 3%nat.
    erewrite withRetryFrom_ok by done.
    by rewrite <- app_assoc.
  - intros err Hax Hr.
    eapply processLead_fresh; [done..|].
    rewrite (reconcile_create_failed env lead t _ err
               (t ++ [Sent (Get (lookupUrl env) (Validator.email lead));
                      Sent (Post (createUrl env) lead)]) Hl); [done|].
    unfold createLead, withRetry. change (Z.to_nat MAX_RETRIES) with 3%nat.
    erewrite withRetryFrom_fatal;
      [|by apply createLeadOnce_rejected|done].
    by rewrite <- app_assoc.
Qed.

Lemma unknown_lead_is_created_with_one_request_witness :
  LeadProcessor.processLead Fixtures.empty ∅ Fixtures.jane []
  = (Ok ({[emailKey Fixtures.jane]} ∪ ∅,
         {| LeadProcessor.lead := Fixtures.jane;
            LeadProcessor.action := Action.created;
            LeadProcessor.error := None |}),
     [] ++ [Sent (Get (lookupUrl Fixtures.empty) "jane@example.com");
            Sent (Post (createUrl Fixtures.empty) Fixtures.jane)]).
Proof.
  refine (proj1 (unknown_lead_is_created_with_one_request Fixtures.empty ∅
                   Fixtures.jane [] _ _ _) _ _ _);
    [reflexivity|apply not_elem_of_empty|reflexivity..].
Defined.

(** *** Failures that pass *)

(** X14.  [withRetry] hides retryable failures that pass: when the first
    attempt fails with a retryable error and the second one, after the
    pause, returns, the call returns what the second attempt returned; the
    same after two retryable failures and a third attempt that returns.  An
    error that is not retryable ends the call where it occurs, also on the
    second or third attempt, and is thrown as it is, not wrapped. *)
Theorem withRetry_hides_passing_failures
    (env : Env) {A : Type} (fn : M trace A) (t : trace) :
  (∀ e1 t1 a t2,
     fn t = (Throw e1, t1) → isRetryable e1 = true →
     fn (t1 ++ pause env 1) = (Ok a, t2) →
     withRetry env fn t = (Ok a, t2))
  ∧ (∀ e1 t1 e2 t2 a t3,
       fn t = (Throw e1, t1) → isRetryable e1 = true →
       fn (t1 ++ pause env 1) = (Throw e2, t2) → isRetryable e2 = true →
       fn (t2 ++ pause env 2) = (Ok a, t3) →
       withRetry env fn t = (Ok a, t3))
  ∧ (∀ e1 t1 e2 t2,
       fn t = (Throw e1, t1) → isRetryable e1 = true →
       fn (t1 ++ pause env 1) = (Throw e2, t2) → isRetryable e2 = false →
       withRetry env fn t = (Throw e2, t2))
  ∧ (∀ e1 t1 e2 t2 e3 t3,
       fn t = (Throw e1, t1) → isRetryable e1 = true →
       fn (t1 ++ pause env 1) = (Throw e2, t2) → isRetryable e2 = true →
       fn (t2 ++ pause env 2) = (Throw e3, t3) → isRetryable e3 = false →
       withRetry env fn t = (Throw e3, t3)).
Proof.
  unfold withRetry. change (Z.to_nat MAX_RETRIES) with 3%nat.
  split_and!.
  - intros e1 t1 a t2 H1 R1 H2.
    rewrite (withRetryFrom_again env fn 2 1 None t e1 t1) by done.
    by apply withRetryFrom_ok.
  - intros e1 t1 e2 t2 a t3 H1 R1 H2 R2 H3.
    rewrite (withRetryFrom_again env fn 2 1 None t e1 t1) by done.
    rewrite (withRetryFrom_again env fn 1 (1 + 1) (Some e1) _ e2 t2) by done.
    by apply withRetryFrom_ok.
  - intros e1 t1 e2 t2 H1 R1 H2 R2.
    rewrite (withRetryFrom_again env fn 2 1 None t e1 t1) by done.
    by apply withRetryFrom_fatal.
  - intros e1 t1 e2 t2 e3 t3 H1 R1 H2 R2 H3 R3.
    rewrite (withRetryFrom_again env fn 2 1 None t e1 t1) by done.
    rewrite (withRetryFrom_again env fn 1 (1 + 1) (Some e1) _ e2 t2) by done.
    by apply withRetryFrom_fatal.
Qed.

Lemma withRetry_hides_passing_failures_witness :
  createLead
    (Fixtures.scripted [Rejected (Fixtures.axiosError 429)]
       (Resolved (leadObject Fixtures.jane)))
    Fixtures.jane []
  = (Ok (leadObject Fixtures.jane),
     [Sent (Post "http://localhost:3001/api/leads/create" Fixtures.jane);
      Sent (Post "http://localhost:3001/api/leads/create" Fixtures.jane)]).
Proof.
  refine (proj1 (withRetry_hides_passing_failures
                   (Fixtures.scripted [Rejected (Fixtures.axiosError 429)]
                      (Resolved (leadObject Fixtures.jane)))
                   (createLeadOnce _ Fixtures.jane) [])
            (Fixtures.axiosError 429) _ _ _ _ _ _);
    reflexivity.
Defined.

(** *** What a record costs *)

Import Effort.

Lemma requests_app t1 t2 : requests (t1 ++ t2) = (requests t1 + requests t2)%nat.
Proof. induction t1 as [|[r|ms] t1 IH]; simpl; lia. Qed.

Lemma slept_app t1 t2 : slept (t1 ++ t2) = slept t1 + slept t2.
Proof. induction t1 as [|[r|ms] t1 IH]; simpl; lia. Qed.

Lemma BASE_DELAY_cases env : BASE_DELAY env = 0 ∨ BASE_DELAY env = 1000.
Proof. unfold BASE_DELAY. case_bool_decide; auto. Qed.

Lemma pause_effort env k :
  1 ≤ k → requests (pause env k) = 0%nat
          ∧ slept (pause env k) = BASE_DELAY env * 2 ^ (k - 1).
Proof.
  intros Hk. rewrite pause_spec by done.
  case_bool_decide as Hb; simpl; [|split; [done|lia]].
  rewrite Hb. split; [done|lia].
Qed.

Lemma attempts_effort env r n :
  (n ≤ 3)%nat →
  requests (attempts env r n 1) = n
  ∧ 0 ≤ slept (attempts env r n 1) ≤ 3 * BASE_DELAY env.
Proof.
  intros Hn.
  destruct (pause_effort env 1) as [R1 S1]; [lia|].
  destruct (pause_effort env 2) as [R2 S2]; [lia|].
  change (2 ^ (1 - 1)) with 1 in S1. change (2 ^ (2 - 1)) with 2 in S2.
  pose proof (BASE_DELAY_cases env) as Hb.
  destruct n as [|[|[|[|n]]]]; [| | | |lia]; simpl;
    change (1 + 1) with 2;
    rewrite ?requests_app, ?slept_app; simpl;
    rewrite ?requests_app, ?slept_app, ?R1, ?R2, ?S1, ?S2; simpl; lia.
Qed.

Section EffortFacts.
Import LeadProcessor.
Variable env : Env.

(** What a turn adds to the trace: between one and three attempts of the
    lookup, then at most three attempts of one mutation. *)
Lemma reconcile_shape lead t :
  ∃ n m url,
    (1 ≤ n ≤ 3)%nat ∧ (m ≤ 3)%nat
    ∧ (url = createUrl env ∨ url = updateUrl env)
    ∧ (reconcile env lead t).2
      = t ++ attempts env (Get (lookupUrl env) (Validator.email lead)) n 1
          ++ attempts env (Post url lead) m 1.
Proof.
  assert (∀ e t', (reconcileCatch lead e t').2 = t') as Hcatch.
  { intros e t'. unfold reconcileCatch. by case_bool_decide. }
  unfold reconcile, tryCatch, reconcileTry, bind.
  destruct (lookupLead_trace env (Validator.email lead) t) as (n & Hn & Ht).
  destruct (lookupLead env (Validator.email lead) t) as [[[existing|]|e] t1];
    simpl in Ht; subst t1.
  - unfold lift. destruct (leadsMatch lead existing) as [[]|e]; simpl.
    + exists n, 0%nat, (createUrl env). rewrite app_nil_r.
      split_and!; auto; lia.
    + destruct (updateLead_trace env lead
                  (t ++ attempts env (Get (lookupUrl env) (Validator.email lead)) n 1))
        as (m & Hm & Hu).
      exists n, m, (updateUrl env).
      destruct (updateLead env lead _) as [[u|e] t2]; simpl in Hu; subst t2;
        rewrite ?Hcatch, <- app_assoc; split_and!; auto; lia.
    + exists n, 0%nat, (createUrl env). rewrite Hcatch, app_nil_r.
      split_and!; auto; lia.
  - destruct (createLead_trace env lead
                (t ++ attempts env (Get (lookupUrl env) (Validator.email lead)) n 1))
      as (m & Hm & Hc).
    exists n, m, (createUrl env).
    destruct (createLead env lead _) as [[u|e] t2]; simpl in Hc; subst t2;
      rewrite ?Hcatch, <- app_assoc; split_and!; auto; lia.
  - exists n, 0%nat, (createUrl env). rewrite Hcatch, app_nil_r.
    split_and!; auto; lia.
Qed.

Lemma processLead_effort seenEmails lead t :
  ∃ added,
    (processLead env seenEmails lead t).2 = t ++ added
    ∧ (requests added ≤ 6)%nat
    ∧ 0 ≤ slept added ≤ 6 * BASE_DELAY env.
Proof.
  pose proof (BASE_DELAY_cases env) as Hb.
  unfold processLead.
  destruct (negb (Validator.isValid (validateLead lead))).
  { exists []. rewrite app_nil_r. simpl. split_and!; [done|lia..]. }
  case_bool_decide.
  { exists []. rewrite app_nil_r. simpl. split_and!; [done|lia..]. }
  unfold bind.
  destruct (reconcile_shape lead t) as (n & m & url & Hn & Hm & _ & Ht).
  destruct (attempts_effort env (Get (lookupUrl env) (Validator.email lead)) n)
    as [Rn Sn]; [lia|].
  destruct (attempts_effort env (Post url lead) m) as [Rm Sm]; [lia|].
  exists (attempts env (Get (lookupUrl env) (Validator.email lead)) n 1
          ++ attempts env (Post url lead) m 1).
  rewrite requests_app, slept_app, Rn, Rm.
  split_and!; [|lia..].
  destruct (reconcile env lead t) as [[r|e] t1]; simpl in *; by subst t1.
Qed.

Lemma turns_effort leads seenEmails t :
  Forall (λ turn, (requests turn.2 ≤ 6)%nat
                  ∧ 0 ≤ slept turn.2 ≤ 6 * BASE_DELAY env)
    (turns env leads seenEmails t).
Proof.
  revert seenEmails t.
  induction leads as [|lead rest IH]; intros seenEmails t; cbn [turns];
    [constructor|].
  destruct (processLead_effort seenEmails lead t) as (added & Ht & HR & HS).
  destruct (processLead env seenEmails lead t) as [[[seenEmails' r]|e] t'];
    [|constructor].
  simpl in Ht. subst t'. rewrite drop_app_length.
  constructor; [done|apply IH].
Qed.

Lemma concat_effort (l : list (LeadProcessor.ProcessResult * trace)) :
  Forall (λ turn, (requests turn.2 ≤ 6)%nat
                  ∧ 0 ≤ slept turn.2 ≤ 6 * BASE_DELAY env) l →
  (requests (concat l.*2) ≤ 6 * length l)%nat
  ∧ 0 ≤ slept (concat l.*2) ≤ 6 * BASE_DELAY env * Z.of_nat (length l).
Proof.
  induction 1 as [|[r added] l [HR HS] _ [IHR IHS]]; [simpl; lia|].
  rewrite fmap_cons. cbn [concat snd length] in *.
  rewrite requests_app, slept_app, Nat2Z.inj_succ. nia.
Qed.

End EffortFacts.

(** X15.  No record costs more than six requests: the turn of a record
    sends at most six requests to the remote (three attempts of the lookup
    and three of one mutation) and sleeps at most six times the base delay
    in all (six seconds, and nothing when NODE_ENV is "test"); a run over a
    batch sends at most six requests per record of the batch. *)
Theorem each_record_costs_at_most_six_requests
    (env : Env) (leads : list Lead) (t : trace) :
  (∀ i r added,
     turns env leads ∅ t !! i = Some (r, added) →
     (requests added ≤ 6)%nat
     ∧ 0 ≤ slept added ≤ 6 * BASE_DELAY env)
  ∧ (∃ out added,
       LeadProcessor.processLeads env leads t = (Ok out, t ++ added)
       ∧ (requests added ≤ 6 * length leads)%nat
       ∧ 0 ≤ slept added ≤ 6 * BASE_DELAY env * Z.of_nat (length leads))
  ∧ 0 ≤ BASE_DELAY env ≤ 1000
  ∧ (NODE_ENV env = Some "test" → BASE_DELAY env = 0).
Proof.
  split_and!.
  - intros i r added Hi.
    pose proof (turns_effort env leads ∅ t) as Hall.
    rewrite Forall_lookup in Hall. apply (Hall i (r, added) Hi).
  - unfold LeadProcessor.processLeads, bind.
    destruct (forEachLead_turns env leads ∅ [] t) as [-> Hleads].
    eexists _, _. split; [done|].
    destruct (concat_effort env _ (turns_effort env leads ∅ t)) as [HR HS].
    assert (length (turns env leads ∅ t) = length leads) as Hlen.
    { rewrite <- Hleads at 2. by rewrite !length_fmap. }
    rewrite Hlen in HR, HS. done.
  - destruct (BASE_DELAY_cases env); lia.
  - destruct (BASE_DELAY_cases env); lia.
  - intros Htest. unfold BASE_DELAY. by rewrite Htest.
Qed.

(** *** The sample remote *)

Lemma simulated_None chance :
  Server.rateLimit chance = false → Server.serverError chance = false →
  Server.simulated chance = None.
Proof. unfold Server.simulated. by intros -> ->. Qed.

Lemma length_zero_iff s : (String.length s =? 0)%nat = true ↔ s = "".
Proof. destruct s; simpl; [done|]. split; [done|discriminate]. Qed.

Lemma missing_spec field :
  Server.missing field = false ↔ ∃ s, field = Some s ∧ trim s ≠ "".
Proof.
  destruct field as [[|c s]|]; simpl.
  - split; [done|]. by intros (s & [= <-] & Hs).
  - destruct (String.length (trim (String c s)) =? 0)%nat eqn:Hlen.
    + apply length_zero_iff in Hlen. split; [done|].
      by intros (s' & [= <-] & Hs).
    + split; [|done]. intros _. eexists. split; [done|].
      intros Hs. rewrite Hs in Hlen. done.
  - split; [done|]. by intros (s & [=] & _).
Qed.

Lemma listed_source_not_blank s : s ∈ Server.validSources → trim s ≠ "".
Proof.
  unfold Server.validSources. rewrite !elem_of_cons, elem_of_nil.
  intros [->|[->|[->|[->|[->|[->|[]]]]]]]; done.
Qed.

Lemma validateLeadData_spec data :
  (Server.validateLeadData data).1 = true
  ↔ ∃ n e c s,
      data = {| Server.bodyName := Some n; Server.bodyEmail := Some e;
                Server.bodyCompany := Some c; Server.bodySource := Some s |}
      ∧ trim n ≠ "" ∧ Server.validateEmail e = true
      ∧ trim c ≠ "" ∧ s ∈ Server.validSources.
Proof.
  destruct data as [n e c s]. unfold Server.validateLeadData.
  cbn [Server.bodyName Server.bodyEmail Server.bodyCompany Server.bodySource fst].
  set (eb := match e with
             | None => true
             | Some e0 => negb (truthy e0) || negb (Server.validateEmail e0)
             end).
  transitivity
    (Server.missing n = false ∧ eb = false ∧ Server.missing c = false
     ∧ Server.missing s = false
     ∧ match s with
       | Some s0 => truthy s0 && negb (includes Server.validSources s0)
       | None => false
       end = false).
  { destruct (Server.missing n), eb, (Server.missing c), (Server.missing s),
      s as [s0|]; try destruct (truthy s0 && _); cbn; naive_solver. }
  rewrite !missing_spec. subst eb. split.
  - intros ((n0 & -> & Hn) & He & (c0 & -> & Hc) & (s0 & -> & Hs) & Hsb).
    destruct e as [e0|]; [|done].
    apply orb_false_elim in He as [Ht Hv]. apply negb_false_iff in Hv.
    exists n0, e0, c0, s0. split_and!; try done.
    assert (truthy s0 = true) as Hts by (by destruct s0).
    rewrite Hts in Hsb. simpl in Hsb. apply negb_false_iff in Hsb.
    by apply includes_spec.
  - intros (n0 & e0 & c0 & s0 & [= -> -> -> ->] & Hn & He & Hc & Hs).
    assert (truthy e0 = true) as Hte by (by destruct e0).
    split_and!; eauto.
    + by rewrite He, Hte.
    + exists s0. split; [done|]. by apply listed_source_not_blank.
    + apply includes_spec in Hs. rewrite Hs. by rewrite andb_false_r.
Qed.

Lemma validSources_listed s :
  s ∈ Server.validSources ↔ s ∈ Validator.VALID_SOURCES.
Proof.
  unfold Server.validSources, Validator.VALID_SOURCES.
  rewrite !elem_of_cons, !elem_of_nil. naive_solver.
Qed.

(** The remote and the client accept the same leads. *)
Lemma validateLeadData_validateLead lead :
  (Server.validateLeadData (Server.bodyOf lead)).1
  = Validator.isValid (validateLead lead).
Proof.
  apply Bool.eq_iff_eq_true.
  rewrite validateLeadData_spec, validateLead_verdict. unfold Server.bodyOf.
  split.
  - intros (n & e & c & s & [= <- <- <- <-] & Hn & He & Hc & Hs).
    split_and!; try done. by apply validSources_listed.
  - intros (Hn & Hc & He & Hs). eexists _, _, _, _.
    split_and!; try done. by apply validSources_listed.
Qed.

Lemma toLowerCase_app s1 s2 :
  toLowerCase (s1 +:+ s2) = toLowerCase s1 +:+ toLowerCase s2.
Proof.
  induction s1 as [|c s1 IH]; [done|].
  rewrite append_cons. simpl. by rewrite IH, append_cons.
Qed.

Lemma notSpaceNorAt_toLowerChar c :
  Validator.notSpaceNorAt c = true →
  Validator.notSpaceNorAt (toLowerChar c) = true.
Proof. by destruct c as [[] [] [] [] [] [] [] []]. Qed.

Lemma forallChars_toLowerCase s :
  forallChars Validator.notSpaceNorAt s = true →
  forallChars Validator.notSpaceNorAt (toLowerCase s) = true.
Proof.
  induction s as [|c s IH]; simpl; [done|].
  intros [Hc Hs]%andb_true_iff.
  by rewrite notSpaceNorAt_toLowerChar, IH.
Qed.

Lemma toLowerCase_nonempty s : s ≠ "" → toLowerCase s ≠ "".
Proof. by destruct s. Qed.

(** Lower-casing an accepted e-mail gives an accepted e-mail. *)
Lemma validateEmail_toLowerCase e :
  Server.validateEmail e = true → Server.validateEmail (toLowerCase e) = true.
Proof.
  unfold Server.validateEmail. rewrite !EMAIL_REGEX_spec.
  intros (u & d & t & -> & Hu & Hd & Ht & Au & Ad & At).
  exists (toLowerCase u), (toLowerCase d), (toLowerCase t).
  rewrite !toLowerCase_app.
  split_and!; auto using toLowerCase_nonempty, forallChars_toLowerCase.
Qed.

Section ServerFacts.
Import Server.

Lemma lookup_state st chance email : (lookup st chance email).2 = st.
Proof.
  unfold lookup. destruct (simulated chance); [done|].
  destruct email as [email|]; [|done].
  destruct (negb (truthy email)); [done|].
  destruct (negb (validateEmail email)); [done|].
  by destruct (leads st !! toLowerCase email).
Qed.

Lemma initial_consistent : consistent initial.
Proof.
  split; [done|]. split.
  - intros key lead. unfold initial, sampleLeads. cbn [foldl leads email].
    rewrite !lookup_insert_Some, lookup_empty.
    intros [[<- <-]|[_ [[<- <-]|[_ [=]]]]].
    + split_and!; try done.
      * unfold validSources. set_solver.
      * exists 2. split; [done|]. vm_compute. by split.
    + split_and!; try done.
      * unfold validSources. set_solver.
      * exists 1. split; [done|]. vm_compute. by split.
  - intros key1 key2 lead1 lead2. unfold initial, sampleLeads.
    cbn [foldl leads email].
    rewrite !lookup_insert_Some, lookup_empty.
    intros [[<- <-]|[_ [[<- <-]|[_ [=]]]]] [[<- <-]|[_ [[<- <-]|[_ [=]]]]];
      done.
Qed.

Lemma create_consistent st chance data :
  consistent st → consistent (create st chance data).2.
Proof.
  intros (Hnext & Hall & Hids). unfold create.
  destruct (simulated chance); [done|].
  destruct (validateLeadData data).1 eqn:Hv; [|done].
  apply validateLeadData_spec in Hv
    as (n & e & c & s & -> & Hn & He & Hc & Hs).
  cbn [negb bodyName bodyEmail bodyCompany bodySource default].
  case_bool_decide as Hin; [done|].
  assert (leads st !! toLowerCase e = None) as Hfresh.
  { destruct (leads st !! toLowerCase e) eqn:Hl; [|done].
    destruct Hin. by eexists. }
  unfold consistent. cbn [snd leads nextId]. split; [lia|]. split.
  - intros key lead [[<- <-]|[Hne Hl]]%lookup_insert_Some.
    + cbn. split_and!; try done.
      * apply toLowerCase_idempotent.
      * by apply validateEmail_toLowerCase.
      * apply trim_idempotent.
      * apply trim_idempotent.
      * exists (nextId st). split; [done|lia].
    + destruct (Hall key lead Hl) as (? & ? & ? & ? & ? & ? & ? & ? & m & ? & ?).
      split_and!; try done. exists m. split; [done|lia].
  - intros key1 key2 lead1 lead2
      [[<- <-]|[Hne1 Hl1]]%lookup_insert_Some
      [[<- <-]|[Hne2 Hl2]]%lookup_insert_Some; cbn [id].
    + done.
    + destruct (Hall _ _ Hl2) as (_ & _ & _ & _ & _ & _ & _ & _ & m & -> & Hm).
      intros Heq%(inj pretty). lia.
    + destruct (Hall _ _ Hl1) as (_ & _ & _ & _ & _ & _ & _ & _ & m & -> & Hm).
      intros Heq%(inj pretty). lia.
    + by apply Hids.
Qed.

Lemma update_consistent st chance data :
  consistent st → consistent (update st chance data).2.
Proof.
  intros (Hnext & Hall & Hids). unfold update.
  destruct (simulated chance); [done|].
  destruct (match bodyEmail data with
            | None => true
            | Some e => negb (truthy e) || negb (validateEmail e)
            end); [done|].
  destruct (leads st !! toLowerCase (default "" (bodyEmail data)))
    as [existing|] eqn:Hex; [|done].
  destruct data as [n e c s].
  cbn [bodyName bodyEmail bodyCompany bodySource] in *.
  destruct (validateLeadData _).1 eqn:Hv; [|done].
  apply validateLeadData_spec in Hv
    as (n0 & e0 & c0 & s0 & [= -> -> -> ->] & Hn & He & Hc & Hs).
  cbn [negb snd default] in *.
  destruct (Hall _ _ Hex) as (Ee & El & Ev & _ & _ & _ & _ & _ & m & Em & Hm).
  unfold consistent. cbn [snd leads nextId]. split; [done|]. split.
  - intros key lead [[<- <-]|[Hne Hl]]%lookup_insert_Some.
    + cbn. split_and!; try done.
      * apply trim_idempotent.
      * apply trim_idempotent.
      * by exists m.
    + by apply Hall.
  - intros key1 key2 lead1 lead2
      [[<- <-]|[Hne1 Hl1]]%lookup_insert_Some
      [[<- <-]|[Hne2 Hl2]]%lookup_insert_Some; cbn [id].
    + done.
    + intros Hid. by apply (Hids _ _ _ _ Hex Hl2).
    + intros Hid. by apply (Hids _ _ _ _ Hl1 Hex).
    + by apply Hids.
Qed.

Lemma handle_consistent st chance call :
  consistent st → consistent (handle st chance call).2.
Proof.
  destruct call as [email|data|data]; simpl.
  - by rewrite lookup_state.
  - apply create_consistent.
  - apply update_consistent.
Qed.

End ServerFacts.

(** X16.  The store of the sample server stays consistent, from the sample
    data on and whatever requests arrive, with whatever the handlers draw:
    every lead is stored under its own e-mail, which is in lower case and
    matches the e-mail pattern; its name and company are trimmed and not
    empty; its source is one of the six listed ones; its id is the numeral of
    a number from 1 up to, and excluding, [nextId]; and no two stored leads
    share an id. *)
Theorem server_store_stays_consistent
    (calls : list (Server.Chance * Server.Call)) :
  Server.consistent Server.initial
  ∧ (∀ st chance call,
       Server.consistent st →
       Server.consistent (Server.handle st chance call).2)
  ∧ Server.consistent (Server.run Server.initial calls).
Proof.
  split_and!.
  - apply initial_consistent.
  - apply handle_consistent.
  - generalize initial_consistent. generalize Server.initial.
    induction calls as [|[chance call] rest IH]; intros st Hst; simpl;
      [done|].
    by apply IH, handle_consistent.
Qed.

Section ServerAnswers.
Import Server.

Lemma valid_body lead :
  valid lead →
  (validateLeadData (bodyOf lead)).1 = true
  ∧ truthy (Validator.email lead) = true
  ∧ validateEmail (Validator.email lead) = true.
Proof.
  intros Hv. rewrite validateLeadData_validateLead. split; [done|].
  apply validateLead_verdict in Hv as (_ & _ & He & _).
  split; [|done]. by destruct (Validator.email lead).
Qed.

Lemma create_fresh st chance lead :
  valid lead → simulated chance = None →
  leads st !! emailKey lead = None →
  create st chance (bodyOf lead)
  = ({| status := 201;
        body := JObj [("success", JBool true);
                      ("lead",
                       leadJson
                         {| id := pretty (nextId st);
                            name := trim (Validator.name lead);
                            email := emailKey lead;
                            company := trim (Validator.company lead);
                            source := Validator.source lead;
                            createdAt := now chance;
                            updatedAt := None |})] |},
     {| leads :=
          <[emailKey lead :=
              {| id := pretty (nextId st);
                 name := trim (Validator.name lead);
                 email := emailKey lead;
                 company := trim (Validator.company lead);
                 source := Validator.source lead;
                 createdAt := now chance;
                 updatedAt := None |}]> (leads st);
        nextId := nextId st + 1 |}).
Proof.
  intros (Hv & _ & _)%valid_body Hs Hfresh. unfold create, emailKey in *.
  rewrite Hs, Hv. cbn [negb bodyOf bodyName bodyEmail bodyCompany bodySource default from_option Datatypes.id].
  rewrite Hfresh. by rewrite bool_decide_eq_false_2 by (by intros [? ?]).
Qed.

Lemma create_conflict st chance lead :
  valid lead → simulated chance = None →
  is_Some (leads st !! emailKey lead) →
  create st chance (bodyOf lead)
  = ({| status := 409;
        body := JObj [("error", JStr "Lead already exists");
                      ("message",
                       JStr "A lead with this email address already exists")] |},
     st).
Proof.
  intros (Hv & _ & _)%valid_body Hs Hin. unfold create, emailKey in *.
  rewrite Hs, Hv. cbn [negb bodyOf bodyName bodyEmail bodyCompany bodySource default from_option Datatypes.id].
  by rewrite bool_decide_eq_true_2.
Qed.

Lemma lookup_found st chance email lead :
  simulated chance = None → validateEmail email = true →
  leads st !! toLowerCase email = Some lead →
  lookup st chance (Some email)
  = ({| status := 200;
        body := JObj [("found", JBool true); ("lead", leadJson lead)] |}, st).
Proof.
  intros Hs Hv Hl. unfold lookup. rewrite Hs, Hv, Hl.
  assert (truthy email = true) as -> by (by destruct email). done.
Qed.

Lemma lookup_absent st chance email :
  simulated chance = None → validateEmail email = true →
  leads st !! toLowerCase email = None →
  lookup st chance (Some email)
  = ({| status := 200; body := JObj [("found", JBool false)] |}, st).
Proof.
  intros Hs Hv Hl. unfold lookup. rewrite Hs, Hv, Hl.
  assert (truthy email = true) as -> by (by destruct email). done.
Qed.

Lemma update_absent st chance lead :
  valid lead → simulated chance = None →
  leads st !! emailKey lead = None →
  update st chance (bodyOf lead)
  = ({| status := 404;
        body := JObj [("error", JStr "Lead not found");
                      ("message",
                       JStr "No lead found with the provided email address")] |},
     st).
Proof.
  intros (_ & Ht & He)%valid_body Hs Hl. unfold update, emailKey in *.
  rewrite Hs. cbn [bodyOf bodyEmail default from_option Datatypes.id]. by rewrite Ht, He, Hl.
Qed.

Lemma update_present st chance lead existing :
  valid lead → simulated chance = None →
  leads st !! emailKey lead = Some existing →
  update st chance (bodyOf lead)
  = ({| status := 200;
        body := JObj [("success", JBool true);
                      ("lead",
                       leadJson
                         {| id := id existing;
                            name := trim (Validator.name lead);
                            email := email existing;
                            company := trim (Validator.company lead);
                            source := Validator.source lead;
                            createdAt := createdAt existing;
                            updatedAt := Some (now chance) |})] |},
     {| leads :=
          <[emailKey lead :=
              {| id := id existing;
                 name := trim (Validator.name lead);
                 email := email existing;
                 company := trim (Validator.company lead);
                 source := Validator.source lead;
                 createdAt := createdAt existing;
                 updatedAt := Some (now chance) |}]> (leads st);
        nextId := nextId st |}).
Proof.
  intros Hvalid Hs Hl. destruct (valid_body lead Hvalid) as (Hv & Ht & He).
  unfold update, emailKey in *.
  rewrite Hs. cbn [bodyOf bodyName bodyEmail bodyCompany bodySource default from_option Datatypes.id].
  rewrite Ht, He, Hl. cbn [negb orb].
  change {| bodyName := Some (Validator.name lead);
            bodyEmail := Some (Validator.email lead);
            bodyCompany := Some (Validator.company lead);
            bodySource := Some (Validator.source lead) |}
    with (bodyOf lead).
  by rewrite Hv.
Qed.

End ServerAnswers.

(** X17.  Every handler of the sample server decides on the simulated
    failures before it looks at the request: a drawn rate limit is answered
    429 and, failing that, a drawn server error 500, both without touching
    the store.  The store changes only with a create answered 201 or an
    update answered 200; a lookup never changes it.  The three routes answer
    with no other status than 200, 201, 400, 404, 409, 429 and 500, and a
    lookup with none but 200, 400, 429 and 500. *)
Theorem server_changes_store_only_on_success
    (st : Server.State) (chance : Server.Chance) (call : Server.Call) :
  (Server.rateLimit chance = true →
   Server.status (Server.handle st chance call).1 = 429
   ∧ (Server.handle st chance call).2 = st)
  ∧ (Server.rateLimit chance = false → Server.serverError chance = true →
     Server.status (Server.handle st chance call).1 = 500
     ∧ (Server.handle st chance call).2 = st)
  ∧ ((Server.handle st chance call).2 ≠ st →
     (∃ data, call = Server.Create data
              ∧ Server.status (Server.handle st chance call).1 = 201)
     ∨ (∃ data, call = Server.Update data
                ∧ Server.status (Server.handle st chance call).1 = 200))
  ∧ Server.status (Server.handle st chance call).1
    ∈ [200; 201; 400; 404; 409; 429; 500]
  ∧ (∀ email,
       call = Server.Lookup email →
       (Server.handle st chance call).2 = st
       ∧ Server.status (Server.handle st chance call).1 ∈ [200; 400; 429; 500]).
Proof.
  split_and!.
  - intros Hr. destruct call; simpl;
      unfold Server.lookup, Server.create, Server.update, Server.simulated;
      by rewrite Hr.
  - intros Hr He. destruct call; simpl;
      unfold Server.lookup, Server.create, Server.update, Server.simulated;
      by rewrite Hr, He.
  - destruct call as [email|data|data]; simpl.
    + by rewrite lookup_state.
    + intros Hne. left. exists data. split; [done|]. revert Hne.
      unfold Server.create. repeat case_match; simpl; done.
    + intros Hne. right. exists data. split; [done|]. revert Hne.
      unfold Server.update. repeat case_match; simpl; done.
  - destruct call as [email|data|data]; simpl;
      unfold Server.lookup, Server.create, Server.update, Server.simulated;
      repeat case_match; simpl; set_solver.
  - intros email ->. simpl. split; [apply lookup_state|].
    unfold Server.lookup, Server.simulated.
    repeat case_match; simpl; set_solver.
Qed.

(** X18.  What [create] stores, [lookup] finds, and [create] refuses to
    store again.  For a lead the client accepts and whose lower-cased e-mail
    the store does not hold, when no failure is simulated: [create] answers
    201 with the new lead (id [nextId], name and company trimmed, e-mail in
    lower case), stores it under that e-mail and increments [nextId].  From
    then on a lookup of the e-mail in any spelling of upper and lower case
    answers [found: true] with that lead, and a create for any accepted lead
    with that e-mail in any spelling is answered 409 and changes
    nothing. *)
Theorem created_lead_is_found_and_not_created_twice
    (st : Server.State) (chance : Server.Chance) (lead : Lead) :
  valid lead → Server.simulated chance = None →
  Server.leads st !! emailKey lead = None →
  let kept := Server.stored (Server.nextId st) (Server.now chance) lead in
  let st' := {| Server.leads := <[emailKey lead := kept]> (Server.leads st);
                Server.nextId := Server.nextId st + 1 |} in
  Server.create st chance (Server.bodyOf lead)
  = ({| Server.status := 201;
        Server.body := JObj [("success", JBool true);
                             ("lead", Server.leadJson kept)] |}, st')
  ∧ (∀ chance' email,
       Server.simulated chance' = None →
       Server.validateEmail email = true →
       toLowerCase email = emailKey lead →
       Server.lookup st' chance' (Some email)
       = ({| Server.status := 200;
             Server.body := JObj [("found", JBool true);
                                  ("lead", Server.leadJson kept)] |}, st'))
  ∧ (∀ chance' again,
       Server.simulated chance' = None →
       valid again → emailKey again = emailKey lead →
       Server.status (Server.create st' chance' (Server.bodyOf again)).1 = 409
       ∧ (Server.create st' chance' (Server.bodyOf again)).2 = st').
Proof.
  intros Hv Hs Hfresh kept st'. split_and!.
  - by apply create_fresh.
  - intros chance' email Hs' He Hk.
    apply lookup_found; [done..|]. rewrite Hk. apply lookup_insert_eq.
  - intros chance' again Hs' Hv' Hk.
    rewrite create_conflict; [done..|].
    rewrite Hk. eexists. apply lookup_insert_eq.
Qed.

Lemma created_lead_is_found_and_not_created_twice_witness :
  Server.status
    (Server.create Server.initial (Server.quiet "2024-06-01T12:00:00.000Z")
       (Server.bodyOf Fixtures.janeShouting)).1 = 201
  ∧ Server.status
      (Server.create
         (Server.create Server.initial (Server.quiet "2024-06-01T12:00:00.000Z")
            (Server.bodyOf Fixtures.janeShouting)).2
         (Server.quiet "2024-06-01T12:00:01.000Z")
         (Server.bodyOf Fixtures.jane)).1 = 409.
Proof.
  destruct (created_lead_is_found_and_not_created_twice Server.initial
              (Server.quiet "2024-06-01T12:00:00.000Z") Fixtures.janeShouting)
    as (Hcreate & _ & Hagain); [reflexivity..|].
  rewrite Hcreate. split; [reflexivity|].
  apply (Hagain (Server.quiet "2024-06-01T12:00:01.000Z") Fixtures.jane);
    reflexivity.
Defined.

(** X19.  [update] changes a stored lead and nothing else.  For a lead the
    client accepts, when no failure is simulated: if the store does not hold
    its lower-cased e-mail the answer is 404 and the store stays as it is;
    if it does, the answer is 200 and the stored lead keeps its id, its
    e-mail and its creation time, takes the trimmed name, the trimmed
    company and the source of the request, and gets the time of the update;
    [nextId] stays.  A body that lacks name, company or source is answered
    400 and changes nothing: the route does not update part of a lead. *)
Theorem update_revises_a_stored_lead_or_answers_404
    (st : Server.State) (chance : Server.Chance) (lead : Lead) :
  valid lead → Server.simulated chance = None →
  (Server.leads st !! emailKey lead = None →
   Server.status (Server.update st chance (Server.bodyOf lead)).1 = 404
   ∧ (Server.update st chance (Server.bodyOf lead)).2 = st)
  ∧ (∀ existing,
       Server.leads st !! emailKey lead = Some existing →
       let revised := Server.revised existing (Server.now chance) lead in
       Server.update st chance (Server.bodyOf lead)
       = ({| Server.status := 200;
             Server.body := JObj [("success", JBool true);
                                  ("lead", Server.leadJson revised)] |},
          {| Server.leads := <[emailKey lead := revised]> (Server.leads st);
             Server.nextId := Server.nextId st |}))
  ∧ (∀ data,
       Server.bodyEmail data = Some (Validator.email lead) →
       is_Some (Server.leads st !! emailKey lead) →
       Server.bodyName data = None ∨ Server.bodyCompany data = None
       ∨ Server.bodySource data = None →
       Server.status (Server.update st chance data).1 = 400
       ∧ (Server.update st chance data).2 = st).
Proof.
  intros Hv Hs. split_and!.
  - intros Hl. by rewrite update_absent.
  - intros existing Hl revised. by apply update_present.
  - intros data He [existing Hl] Hmissing.
    destruct (valid_body lead Hv) as (_ & Ht & Hve).
    unfold Server.update, emailKey in *. rewrite Hs, He.
    cbn [default from_option Datatypes.id]. rewrite Ht, Hve, Hl. cbn [negb orb].
    destruct (Server.validateLeadData _).1 eqn:Hvalid; [|done].
    apply validateLeadData_spec in Hvalid
      as (n & e & c & s & [= Hn _ Hc Hsrc] & _).
    destruct Hmissing as [H|[H|H]]; congruence.
Qed.

Lemma update_revises_a_stored_lead_or_answers_404_witness :
  Server.status
    (Server.update Server.initial (Server.quiet "2024-06-01T12:00:00.000Z")
       (Server.bodyOf Fixtures.jane)).1 = 404
  ∧ Server.status
      (Server.update Server.initial (Server.quiet "2024-06-01T12:00:00.000Z")
         (Server.bodyOf (Fixtures.withEmail "Alice@Example.com" Fixtures.jane))).1
    = 200.
Proof.
  split.
  - apply (update_revises_a_stored_lead_or_answers_404 Server.initial
             (Server.quiet "2024-06-01T12:00:00.000Z") Fixtures.jane);
      reflexivity.
  - destruct (update_revises_a_stored_lead_or_answers_404 Server.initial
                (Server.quiet "2024-06-01T12:00:00.000Z")
                (Fixtures.withEmail "Alice@Example.com" Fixtures.jane))
      as (_ & Hrevised & _); [reflexivity..|].
    by erewrite Hrevised by reflexivity.
Defined.

(** X20.  The sample server and the client accept the same leads: the
    verdict of [validateLeadData] on the body of a lead is the verdict of
    [validateLead] on the lead.  So a lead the client accepts is never
    answered 400: [create] answers it 201, 409, 429 or 500, [update] 200,
    404, 429 or 500, and the lookup of its e-mail 200, 429 or 500, never
    404.  A lead the client rejects would be answered 400 by [create] when
    no failure is simulated, and leave the store as it is. *)
Theorem remote_and_client_accept_the_same_leads
    (st : Server.State) (chance : Server.Chance) (lead : Lead) :
  (Server.validateLeadData (Server.bodyOf lead)).1
  = Validator.isValid (validateLead lead)
  ∧ (valid lead →
     Server.status (Server.create st chance (Server.bodyOf lead)).1
     ∈ [201; 409; 429; 500]
     ∧ Server.status (Server.update st chance (Server.bodyOf lead)).1
       ∈ [200; 404; 429; 500]
     ∧ Server.status
         (Server.lookup st chance (Some (Validator.email lead))).1
       ∈ [200; 429; 500])
  ∧ (¬ valid lead → Server.simulated chance = None →
     Server.status (Server.create st chance (Server.bodyOf lead)).1 = 400
     ∧ (Server.create st chance (Server.bodyOf lead)).2 = st).
Proof.
  split_and!.
  - apply validateLeadData_validateLead.
  - intros Hv. destruct (valid_body lead Hv) as (Hb & Ht & He).
    destruct (Server.simulated chance) as [failure|] eqn:Hs.
    + unfold Server.create, Server.update, Server.lookup. rewrite Hs.
      unfold Server.simulated in Hs.
      destruct (Server.rateLimit chance), (Server.serverError chance);
        try discriminate Hs; injection Hs as <-; simpl; set_solver.
    + split_and!.
      * destruct (Server.leads st !! emailKey lead) eqn:Hl.
        -- rewrite create_conflict by done. simpl. set_solver.
        -- rewrite create_fresh by done. simpl. set_solver.
      * destruct (Server.leads st !! emailKey lead) eqn:Hl.
        -- erewrite update_present by done. simpl. set_solver.
        -- rewrite update_absent by done. simpl. set_solver.
      * destruct (Server.leads st !! toLowerCase (Validator.email lead)) eqn:Hl.
        -- erewrite lookup_found by done. simpl. set_solver.
        -- rewrite lookup_absent by done. simpl. set_solver.
  - intros Hv Hs. unfold Server.create. rewrite Hs.
    rewrite validateLeadData_validateLead.
    unfold valid in Hv. by destruct (Validator.isValid (validateLead lead)).
Qed.

Lemma remote_and_client_accept_the_same_leads_witness :
  Server.status
    (Server.create Server.initial (Server.quiet "2024-06-01T12:00:00.000Z")
       (Server.bodyOf Fixtures.bademail)).1 = 400.
Proof.
  apply (remote_and_client_accept_the_same_leads Server.initial
           (Server.quiet "2024-06-01T12:00:00.000Z") Fixtures.bademail);
    [vm_compute; discriminate|reflexivity].
Defined.

(** *** Runs against the sample server *)

Lemma processLeads_single env lead t seenEmails r t' :
  LeadProcessor.processLead env ∅ lead t = (Ok (seenEmails, r), t') →
  LeadProcessor.processLeads env [lead] t
  = (Ok {| LeadProcessor.results := [r];
           LeadProcessor.summary := LeadProcessor.summarize [r] |}, t').
Proof.
  intros Hp. unfold LeadProcessor.processLeads, bind.
  cbn [LeadProcessor.forEachLead]. unfold bind. by rewrite Hp.
Qed.

Section WorldFacts.
Variable base : string.
Variable nodeEnv : option string.
Variable chances : nat → Server.Chance.
Variable rejection : Server.Response → thrown.
Variable elsewhere : request → Server.Response.
Variable st0 : Server.State.
Hypothesis base_set : base ≠ "".

Local Abbreviation world :=
  (World.env base nodeEnv chances rejection elsewhere st0).
Local Abbreviation after t := (World.after base chances elsewhere t st0 0).
Local Abbreviation lookupAt := (base +:+ "/api/leads/lookup").
Local Abbreviation createAt := (base +:+ "/api/leads/create").
Local Abbreviation updateAt := (base +:+ "/api/leads/update").

Lemma world_BASE_URL : BASE_URL world = base.
Proof. unfold BASE_URL. simpl. by destruct base. Qed.

Lemma world_lookupUrl : lookupUrl world = lookupAt.
Proof. unfold lookupUrl. by rewrite world_BASE_URL. Qed.

Lemma world_createUrl : createUrl world = createAt.
Proof. unfold createUrl. by rewrite world_BASE_URL. Qed.

Lemma world_updateUrl : updateUrl world = updateAt.
Proof. unfold updateUrl. by rewrite world_BASE_URL. Qed.

Lemma append_inj_l (s t1 t2 : string) : s +:+ t1 = s +:+ t2 → t1 = t2.
Proof.
  induction s as [|c s IH]; [done|]. rewrite !append_cons. intros [= H]. auto.
Qed.

Lemma route_lookup email :
  World.route base (Get lookupAt email) = Some (Server.Lookup (Some email)).
Proof. unfold World.route. by rewrite bool_decide_eq_true_2. Qed.

Lemma route_create lead :
  World.route base (Post createAt lead)
  = Some (Server.Create (Server.bodyOf lead)).
Proof. unfold World.route. by rewrite bool_decide_eq_true_2. Qed.

Lemma route_update lead :
  World.route base (Post updateAt lead)
  = Some (Server.Update (Server.bodyOf lead)).
Proof.
  unfold World.route. rewrite bool_decide_eq_false_2.
  - by rewrite bool_decide_eq_true_2.
  - intros H%append_inj_l. discriminate H.
Qed.

Lemma after_app t1 t2 st n :
  World.after base chances elsewhere (t1 ++ t2) st n
  = World.after base chances elsewhere t2
      (World.after base chances elsewhere t1 st n).1
      (World.after base chances elsewhere t1 st n).2.
Proof.
  revert st n. induction t1 as [|[r|ms] t1 IH]; intros st n; simpl; auto.
Qed.

Lemma after_sent t r st n :
  after t = (st, n) →
  after (t ++ [Sent r])
  = ((World.serve base chances elsewhere st n r).2, S n).
Proof. intros H. rewrite after_app, H. done. Qed.

Lemma answer_resolved t r st n response :
  after t = (st, n) →
  World.serve base chances elsewhere st n r = (response, (World.serve base chances elsewhere st n r).2) →
  (200 <=? Server.status response) && (Server.status response <? 300) = true →
  axios world t r = Resolved (Server.body response).
Proof.
  intros Ht Hr Hs. simpl. unfold World.answer. rewrite Ht, Hr. simpl.
  by rewrite Hs.
Qed.

(** The lookup of a lead the store does not hold. *)
Lemma world_lookupOnce_absent t st n lead :
  after t = (st, n) → Server.simulated (chances n) = None → valid lead →
  Server.leads st !! emailKey lead = None →
  lookupLeadOnce world (Validator.email lead) t
  = (Ok None, t ++ [Sent (Get lookupAt (Validator.email lead))])
  ∧ after (t ++ [Sent (Get lookupAt (Validator.email lead))]) = (st, S n).
Proof.
  intros Ht Hcalm Hv Hl. destruct (valid_body lead Hv) as (_ & _ & He).
  assert (World.serve base chances elsewhere st n
            (Get lookupAt (Validator.email lead))
          = ({| Server.status := 200;
                Server.body := JObj [("found", JBool false)] |}, st)) as Hserve.
  { unfold World.serve. rewrite route_lookup. simpl.
    by apply lookup_absent. }
  split.
  - rewrite <- world_lookupUrl.
    apply lookupLeadOnce_notFound. rewrite world_lookupUrl.
    simpl. unfold World.answer. by rewrite Ht, Hserve.
  - by rewrite (after_sent t _ st n Ht), Hserve.
Qed.

Lemma world_lookup_absent t st n lead :
  after t = (st, n) → Server.simulated (chances n) = None → valid lead →
  Server.leads st !! emailKey lead = None →
  lookupLead world (Validator.email lead) t
  = (Ok None, t ++ [Sent (Get lookupAt (Validator.email lead))])
  ∧ after (t ++ [Sent (Get lookupAt (Validator.email lead))]) = (st, S n).
Proof.
  intros Ht Hcalm Hv Hl.
  destruct (world_lookupOnce_absent t st n lead Ht Hcalm Hv Hl) as [Hone Hafter].
  split; [|done]. by apply withRetryFrom_ok.
Qed.

Lemma leadJson_nested (existing : Server.StoredLead) :
  validateLeadResponse
    (JObj [("found", JBool true); ("lead", Server.leadJson existing)])
  = Ok (leadObject (Server.asLead existing)).
Proof.
  unfold Server.leadJson.
  by erewrite validateLeadResponse_nested by reflexivity.
Qed.

Lemma leadJson_exposes (existing : Server.StoredLead) :
  exposesNameAndEmail
    (JObj [("success", JBool true); ("lead", Server.leadJson existing)]) = true.
Proof. reflexivity. Qed.

(** The lookup of a lead the store holds. *)
Lemma world_lookup_present t st n lead existing :
  after t = (st, n) → Server.simulated (chances n) = None → valid lead →
  Server.leads st !! emailKey lead = Some existing →
  lookupLead world (Validator.email lead) t
  = (Ok (Some (leadObject (Server.asLead existing))),
     t ++ [Sent (Get lookupAt (Validator.email lead))])
  ∧ after (t ++ [Sent (Get lookupAt (Validator.email lead))]) = (st, S n).
Proof.
  intros Ht Hcalm Hv Hl. destruct (valid_body lead Hv) as (_ & _ & He).
  assert (World.serve base chances elsewhere st n
            (Get lookupAt (Validator.email lead))
          = ({| Server.status := 200;
                Server.body := JObj [("found", JBool true);
                                     ("lead", Server.leadJson existing)] |}, st))
    as Hserve.
  { unfold World.serve. rewrite route_lookup. simpl.
    by apply lookup_found. }
  split.
  - rewrite <- world_lookupUrl. apply withRetryFrom_ok.
    apply (lookupLeadOnce_found _ _ _
             (JObj [("found", JBool true); ("lead", Server.leadJson existing)]));
      [|done|apply leadJson_nested].
    rewrite world_lookupUrl. simpl. unfold World.answer.
    by rewrite Ht, Hserve.
  - by rewrite (after_sent t _ st n Ht), Hserve.
Qed.

Lemma world_createOnce t st n lead :
  after t = (st, n) → Server.simulated (chances n) = None → valid lead →
  Server.leads st !! emailKey lead = None →
  (∃ created,
     createLeadOnce world lead t
     = (Ok created, t ++ [Sent (Post createAt lead)]))
  ∧ after (t ++ [Sent (Post createAt lead)])
    = ({| Server.leads :=
            <[emailKey lead :=
                Server.stored (Server.nextId st) (Server.now (chances n)) lead]>
              (Server.leads st);
          Server.nextId := Server.nextId st + 1 |}, S n).
Proof.
  intros Ht Hcalm Hv Hl.
  pose proof (create_fresh st (chances n) lead Hv Hcalm Hl) as Hcreate.
  assert (World.serve base chances elsewhere st n (Post createAt lead)
          = Server.create st (chances n) (Server.bodyOf lead)) as Hserve
    by (unfold World.serve; by rewrite route_create).
  split.
  - destruct (createLeadOnce_accepted world lead t
                (JObj [("success", JBool true);
                       ("lead",
                        Server.leadJson
                          (Server.stored (Server.nextId st)
                             (Server.now (chances n)) lead))]))
      as [created Hc].
    + rewrite world_createUrl. simpl. unfold World.answer.
      by rewrite Ht, Hserve, Hcreate.
    + apply leadJson_exposes.
    + exists created. by rewrite world_createUrl in Hc.
  - by rewrite (after_sent t _ st n Ht), Hserve, Hcreate.
Qed.

Lemma world_create t st n lead :
  after t = (st, n) → Server.simulated (chances n) = None → valid lead →
  Server.leads st !! emailKey lead = None →
  (∃ created,
     createLead world lead t = (Ok created, t ++ [Sent (Post createAt lead)]))
  ∧ after (t ++ [Sent (Post createAt lead)])
    = ({| Server.leads :=
            <[emailKey lead :=
                Server.stored (Server.nextId st) (Server.now (chances n)) lead]>
              (Server.leads st);
          Server.nextId := Server.nextId st + 1 |}, S n).
Proof.
  intros Ht Hcalm Hv Hl.
  destruct (world_createOnce t st n lead Ht Hcalm Hv Hl)
    as [[created Hone] Hafter].
  split; [|done]. exists created. by apply withRetryFrom_ok.
Qed.

Lemma world_update t st n lead existing :
  after t = (st, n) → Server.simulated (chances n) = None → valid lead →
  Server.leads st !! emailKey lead = Some existing →
  (∃ updated,
     updateLead world lead t = (Ok updated, t ++ [Sent (Post updateAt lead)]))
  ∧ after (t ++ [Sent (Post updateAt lead)])
    = ({| Server.leads :=
            <[emailKey lead :=
                Server.revised existing (Server.now (chances n)) lead]>
              (Server.leads st);
          Server.nextId := Server.nextId st |}, S n).
Proof.
  intros Ht Hcalm Hv Hl.
  pose proof (update_present st (chances n) lead existing Hv Hcalm Hl)
    as Hupdate.
  assert (World.serve base chances elsewhere st n (Post updateAt lead)
          = Server.update st (chances n) (Server.bodyOf lead)) as Hserve
    by (unfold World.serve; by rewrite route_update).
  split.
  - assert (axios world t (Post (updateUrl world) lead)
            = Resolved
                (JObj [("success", JBool true);
                       ("lead",
                        Server.leadJson
                          (Server.revised existing (Server.now (chances n))
                             lead))])) as Hax.
    { rewrite world_updateUrl. simpl. unfold World.answer.
      by rewrite Ht, Hserve, Hupdate. }
    destruct (validateLeadResponse_accepted _
                (leadJson_exposes
                   (Server.revised existing (Server.now (chances n)) lead)))
      as [updated Hok].
    exists updated. rewrite <- world_updateUrl. apply withRetryFrom_ok.
    unfold updateLeadOnce, bind, send, lift. by rewrite Hax, Hok.
  - by rewrite (after_sent t _ st n Ht), Hserve, Hupdate.
Qed.

End WorldFacts.

Section Runs.
Variable base : string.
Variable nodeEnv : option string.
Variable chances : nat → Server.Chance.
Variable rejection : Server.Response → thrown.
Variable elsewhere : request → Server.Response.
Variable st0 : Server.State.
Hypothesis base_set : base ≠ "".
Hypothesis calm : ∀ n, Server.simulated (chances n) = None.

Local Abbreviation world :=
  (World.env base nodeEnv chances rejection elsewhere st0).
Local Abbreviation after t := (World.after base chances elsewhere t st0 0).
Local Abbreviation lookupOf lead :=
  (Sent (Get (base +:+ "/api/leads/lookup") (Validator.email lead))).
Local Abbreviation createOf lead :=
  (Sent (Post (base +:+ "/api/leads/create") lead)).
Local Abbreviation updateOf lead :=
  (Sent (Post (base +:+ "/api/leads/update") lead)).
Local Abbreviation outcome lead act :=
  {| LeadProcessor.lead := lead; LeadProcessor.action := act;
     LeadProcessor.error := None |}.

Lemma run_creates t st n lead :
  after t = (st, n) → valid lead →
  Server.leads st !! emailKey lead = None →
  LeadProcessor.processLeads world [lead] t
  = (Ok {| LeadProcessor.results := [outcome lead Action.created];
           LeadProcessor.summary :=
             {| LeadProcessor.total := 1; LeadProcessor.created := 1;
                LeadProcessor.updated := 0; LeadProcessor.skipped := 0;
                LeadProcessor.errors := 0 |} |},
     t ++ [lookupOf lead; createOf lead])
  ∧ after (t ++ [lookupOf lead; createOf lead])
    = ({| Server.leads :=
            <[emailKey lead :=
                Server.stored (Server.nextId st) (Server.now (chances (S n)))
                  lead]> (Server.leads st);
          Server.nextId := Server.nextId st + 1 |}, S (S n)).
Proof.
  intros Ht Hv Hl.
  destruct (world_lookup_absent base nodeEnv chances rejection elsewhere st0
              base_set t st n lead Ht (calm n) Hv Hl) as [Hlookup Hafter].
  destruct (world_create base nodeEnv chances rejection elsewhere st0
              base_set _ st (S n) lead Hafter (calm (S n)) Hv Hl)
    as [[created Hcreate] Hafter'].
  rewrite <- app_assoc in Hcreate, Hafter'. split; [|done].
  rewrite (processLeads_single world lead t ({[emailKey lead]} ∪ ∅)
             (outcome lead Action.created) (t ++ [lookupOf lead; createOf lead]));
    [done|].
  eapply processLead_fresh; [done|apply not_elem_of_empty|].
  by eapply reconcile_created.
Qed.

Lemma run_skips t st n lead existing :
  after t = (st, n) → valid lead →
  Server.leads st !! emailKey lead = Some existing →
  normalizedEqual lead (Server.asLead existing) →
  LeadProcessor.processLeads world [lead] t
  = (Ok {| LeadProcessor.results := [outcome lead Action.skipped];
           LeadProcessor.summary :=
             {| LeadProcessor.total := 1; LeadProcessor.created := 0;
                LeadProcessor.updated := 0; LeadProcessor.skipped := 1;
                LeadProcessor.errors := 0 |} |},
     t ++ [lookupOf lead])
  ∧ after (t ++ [lookupOf lead]) = (st, S n).
Proof.
  intros Ht Hv Hl Heq.
  destruct (world_lookup_present base nodeEnv chances rejection elsewhere st0
              base_set t st n lead existing Ht (calm n) Hv Hl)
    as [Hlookup Hafter].
  split; [|done].
  rewrite (processLeads_single world lead t ({[emailKey lead]} ∪ ∅)
             (outcome lead Action.skipped) (t ++ [lookupOf lead]));
    [done|].
  eapply processLead_fresh; [done|apply not_elem_of_empty|].
  eapply reconcile_identical; [done|].
  eapply leadsMatch_equal; [apply leadObject_represents|done].
Qed.

Lemma run_updates t st n lead existing :
  after t = (st, n) → valid lead →
  Server.leads st !! emailKey lead = Some existing →
  ¬ normalizedEqual lead (Server.asLead existing) →
  LeadProcessor.processLeads world [lead] t
  = (Ok {| LeadProcessor.results := [outcome lead Action.updated];
           LeadProcessor.summary :=
             {| LeadProcessor.total := 1; LeadProcessor.created := 0;
                LeadProcessor.updated := 1; LeadProcessor.skipped := 0;
                LeadProcessor.errors := 0 |} |},
     t ++ [lookupOf lead; updateOf lead])
  ∧ after (t ++ [lookupOf lead; updateOf lead])
    = ({| Server.leads :=
            <[emailKey lead :=
                Server.revised existing (Server.now (chances (S n))) lead]>
              (Server.leads st);
          Server.nextId := Server.nextId st |}, S (S n)).
Proof.
  intros Ht Hv Hl Hne.
  destruct (world_lookup_present base nodeEnv chances rejection elsewhere st0
              base_set t st n lead existing Ht (calm n) Hv Hl)
    as [Hlookup Hafter].
  destruct (world_update base nodeEnv chances rejection elsewhere st0
              base_set _ st (S n) lead existing Hafter (calm (S n)) Hv Hl)
    as [[updated Hupdate] Hafter'].
  rewrite <- app_assoc in Hupdate, Hafter'. split; [|done].
  rewrite (processLeads_single world lead t ({[emailKey lead]} ∪ ∅)
             (outcome lead Action.updated) (t ++ [lookupOf lead; updateOf lead]));
    [done|].
  eapply processLead_fresh; [done|apply not_elem_of_empty|].
  eapply reconcile_updated; [done| |done].
  eapply leadsMatch_differs; [apply leadObject_represents|done].
Qed.

End Runs.

(** X21.  Against the sample server, when it simulates no failure, a run
    over one valid lead whose lower-cased e-mail the store does not hold
    sends the lookup and one create request, returns the result "created"
    with the summary 1/1/0/0/0, and leaves the lead in the store under its
    lower-cased e-mail, with name and company trimmed and the id that was
    next. *)
Theorem run_against_sample_server_creates_unknown_lead
    (base : string) (nodeEnv : option string) (chances : nat → Server.Chance)
    (rejection : Server.Response → thrown)
    (elsewhere : request → Server.Response) (st0 : Server.State)
    (t : trace) (st : Server.State) (n : nat) (lead : Lead) :
  base ≠ "" → (∀ k, Server.simulated (chances k) = None) →
  World.after base chances elsewhere t st0 0 = (st, n) →
  valid lead → Server.leads st !! emailKey lead = None →
  LeadProcessor.processLeads
    (World.env base nodeEnv chances rejection elsewhere st0) [lead] t
  = (Ok {| LeadProcessor.results :=
             [{| LeadProcessor.lead := lead;
                 LeadProcessor.action := Action.created;
                 LeadProcessor.error := None |}];
           LeadProcessor.summary :=
             {| LeadProcessor.total := 1; LeadProcessor.created := 1;
                LeadProcessor.updated := 0; LeadProcessor.skipped := 0;
                LeadProcessor.errors := 0 |} |},
     t ++ [Sent (Get (base +:+ "/api/leads/lookup") (Validator.email lead));
           Sent (Post (base +:+ "/api/leads/create") lead)])
  ∧ World.after base chances elsewhere
      (t ++ [Sent (Get (base +:+ "/api/leads/lookup") (Validator.email lead));
             Sent (Post (base +:+ "/api/leads/create") lead)]) st0 0
    = ({| Server.leads :=
            <[emailKey lead :=
                Server.stored (Server.nextId st) (Server.now (chances (S n)))
                  lead]> (Server.leads st);
          Server.nextId := Server.nextId st + 1 |}, S (S n)).
Proof. intros. by apply run_creates. Qed.

Lemma run_against_sample_server_creates_unknown_lead_witness :
  ∃ out,
    LeadProcessor.processLeads
      (World.env "http://localhost:3001" (Some "test")
         (λ _, Server.quiet "2024-06-01T12:00:00.000Z")
         (λ response, Fixtures.axiosError (Server.status response))
         (λ _, {| Server.status := 404; Server.body := JNull |})
         Server.initial)
      [Fixtures.jane] []
    = (Ok out,
       [] ++ [Sent (Get "http://localhost:3001/api/leads/lookup" "jane@example.com");
              Sent (Post "http://localhost:3001/api/leads/create" Fixtures.jane)])
    ∧ LeadProcessor.action <$> LeadProcessor.results out = [Action.created].
Proof.
  eexists. split.
  - apply (run_against_sample_server_creates_unknown_lead
             "http://localhost:3001" (Some "test")
             (λ _, Server.quiet "2024-06-01T12:00:00.000Z")
             (λ response, Fixtures.axiosError (Server.status response))
             (λ _, {| Server.status := 404; Server.body := JNull |})
             Server.initial [] Server.initial 0 Fixtures.jane);
      [discriminate|reflexivity..].
  - reflexivity.
Defined.

(** X22.  Against the sample server, when it simulates no failure, a run
    over one valid lead whose lower-cased e-mail the store holds sends the
    lookup and, when name, lower-cased e-mail, normalised company and source
    equal those of the stored lead, nothing else: the result is "skipped"
    and the store stays as it is.  Otherwise it sends one update request:
    the result is "updated" and the stored lead has taken the trimmed name,
    the trimmed company and the source of the lead, keeping its id, its
    e-mail and its creation time. *)
Theorem run_against_sample_server_skips_or_updates_known_lead
    (base : string) (nodeEnv : option string) (chances : nat → Server.Chance)
    (rejection : Server.Response → thrown)
    (elsewhere : request → Server.Response) (st0 : Server.State)
    (t : trace) (st : Server.State) (n : nat) (lead : Lead)
    (existing : Server.StoredLead) :
  base ≠ "" → (∀ k, Server.simulated (chances k) = None) →
  World.after base chances elsewhere t st0 0 = (st, n) →
  valid lead → Server.leads st !! emailKey lead = Some existing →
  (normalizedEqual lead (Server.asLead existing) →
   LeadProcessor.processLeads
     (World.env base nodeEnv chances rejection elsewhere st0) [lead] t
   = (Ok {| LeadProcessor.results := [skippedResult lead];
            LeadProcessor.summary :=
              {| LeadProcessor.total := 1; LeadProcessor.created := 0;
                 LeadProcessor.updated := 0; LeadProcessor.skipped := 1;
                 LeadProcessor.errors := 0 |} |},
      t ++ [Sent (Get (base +:+ "/api/leads/lookup") (Validator.email lead))])
   ∧ World.after base chances elsewhere
       (t ++ [Sent (Get (base +:+ "/api/leads/lookup") (Validator.email lead))])
       st0 0
     = (st, S n))
  ∧ (¬ normalizedEqual lead (Server.asLead existing) →
     LeadProcessor.processLeads
       (World.env base nodeEnv chances rejection elsewhere st0) [lead] t
     = (Ok {| LeadProcessor.results :=
                [{| LeadProcessor.lead := lead;
                    LeadProcessor.action := Action.updated;
                    LeadProcessor.error := None |}];
              LeadProcessor.summary :=
                {| LeadProcessor.total := 1; LeadProcessor.created := 0;
                   LeadProcessor.updated := 1; LeadProcessor.skipped := 0;
                   LeadProcessor.errors := 0 |} |},
        t ++ [Sent (Get (base +:+ "/api/leads/lookup") (Validator.email lead));
              Sent (Post (base +:+ "/api/leads/update") lead)])
     ∧ World.after base chances elsewhere
         (t ++ [Sent (Get (base +:+ "/api/leads/lookup") (Validator.email lead));
                Sent (Post (base +:+ "/api/leads/update") lead)]) st0 0
       = ({| Server.leads :=
               <[emailKey lead :=
                   Server.revised existing (Server.now (chances (S n))) lead]>
                 (Server.leads st);
             Server.nextId := Server.nextId st |}, S (S n))).
Proof.
  intros. split; intros.
  - by eapply run_skips.
  - by eapply run_updates.
Qed.

Lemma run_against_sample_server_skips_or_updates_known_lead_witness :
  ∃ out,
    LeadProcessor.processLeads
      (World.env "http://localhost:3001" (Some "test")
         (λ _, Server.quiet "2024-06-01T12:00:00.000Z")
         (λ response, Fixtures.axiosError (Server.status response))
         (λ _, {| Server.status := 404; Server.body := JNull |})
         Server.initial)
      [Fixtures.withEmail "Alice@Example.com" Fixtures.jane] []
    = (Ok out,
       [] ++ [Sent (Get "http://localhost:3001/api/leads/lookup" "Alice@Example.com");
              Sent (Post "http://localhost:3001/api/leads/update"
                      (Fixtures.withEmail "Alice@Example.com" Fixtures.jane))])
    ∧ LeadProcessor.action <$> LeadProcessor.results out = [Action.updated].
Proof.
  eexists. split.
  - refine (proj1 (proj2 (run_against_sample_server_skips_or_updates_known_lead
             "http://localhost:3001" (Some "test")
             (λ _, Server.quiet "2024-06-01T12:00:00.000Z")
             (λ response, Fixtures.axiosError (Server.status response))
             (λ _, {| Server.status := 404; Server.body := JNull |})
             Server.initial [] Server.initial 0
             (Fixtures.withEmail "Alice@Example.com" Fixtures.jane)
             _ _ _ _ _ _) _));
      [discriminate|reflexivity..|].
    intros (Hname & _). discriminate Hname.
  - reflexivity.
Defined.

Lemma holds_normalizedEqual st lead existing :
  World.holds st lead →
  Server.leads st !! emailKey lead = Some existing →
  normalizedEqual lead (Server.asLead existing)
  ↔ trim (Validator.name lead) = Validator.name lead.
Proof.
  intros (e & He & Hn & Hm & Hc & Hs) Hl. unfold emailKey in Hl.
  rewrite He in Hl. injection Hl as ->.
  unfold normalizedEqual, Server.asLead.
  cbn [Validator.name Validator.email Validator.company Validator.source].
  rewrite Hn, Hm, Hc, Hs. unfold normalizeCompany. rewrite trim_idempotent.
  naive_solver.
Qed.

(** X23.  Running again against the sample server (no failure simulated):
    once the store holds a valid lead as [create] or [update] left it, a run
    over that lead is skipped and changes nothing exactly when the name of
    the lead bears no white space at either end, as the name of every lead
    read from a file does.  A lead whose name is padded is updated instead,
    and after the update the store holds it as before: every later run
    updates it again.  The creation of a lead makes the store hold it in
    that way. *)
Theorem rerun_skips_unless_the_name_is_padded
    (base : string) (nodeEnv : option string) (chances : nat → Server.Chance)
    (rejection : Server.Response → thrown)
    (elsewhere : request → Server.Response) (st0 : Server.State)
    (t : trace) (st : Server.State) (n : nat) (lead : Lead) :
  base ≠ "" → (∀ k, Server.simulated (chances k) = None) →
  World.after base chances elsewhere t st0 0 = (st, n) →
  valid lead →
  (World.holds st lead →
   (trim (Validator.name lead) = Validator.name lead →
    (LeadProcessor.processLeads
       (World.env base nodeEnv chances rejection elsewhere st0) [lead] t).1
    = Ok {| LeadProcessor.results := [skippedResult lead];
            LeadProcessor.summary :=
              {| LeadProcessor.total := 1; LeadProcessor.created := 0;
                 LeadProcessor.updated := 0; LeadProcessor.skipped := 1;
                 LeadProcessor.errors := 0 |} |}
    ∧ World.after base chances elsewhere
        (LeadProcessor.processLeads
           (World.env base nodeEnv chances rejection elsewhere st0) [lead] t).2
        st0 0
      = (st, S n))
   ∧ (trim (Validator.name lead) ≠ Validator.name lead →
      (LeadProcessor.processLeads
         (World.env base nodeEnv chances rejection elsewhere st0) [lead] t).1
      = Ok {| LeadProcessor.results :=
                [{| LeadProcessor.lead := lead;
                    LeadProcessor.action := Action.updated;
                    LeadProcessor.error := None |}];
              LeadProcessor.summary :=
                {| LeadProcessor.total := 1; LeadProcessor.created := 0;
                   LeadProcessor.updated := 1; LeadProcessor.skipped := 0;
                   LeadProcessor.errors := 0 |} |}
      ∧ ∃ st',
          World.after base chances elsewhere
            (LeadProcessor.processLeads
               (World.env base nodeEnv chances rejection elsewhere st0) [lead] t).2
            st0 0
          = (st', S (S n))
          ∧ World.holds st' lead))
  ∧ (Server.leads st !! emailKey lead = None →
     ∃ st',
       World.after base chances elsewhere
         (LeadProcessor.processLeads
            (World.env base nodeEnv chances rejection elsewhere st0) [lead] t).2
         st0 0
       = (st', S (S n))
       ∧ World.holds st' lead)
  ∧ (∀ record,
       lead = CsvParser.toLead record ∨ lead = CsvParser2.mapToLead record →
       trim (Validator.name lead) = Validator.name lead).
Proof.
  intros Hbase Hcalm Ht Hv. split_and!.
  - intros Hholds. pose proof Hholds as (existing & Hl & Hn & Hm & Hc & Hs).
    pose proof (holds_normalizedEqual st lead existing Hholds Hl) as Heq.
    split.
    + intros Hname%Heq.
      destruct (run_skips base nodeEnv chances rejection elsewhere st0 Hbase
                  Hcalm t st n lead existing Ht Hv Hl Hname) as [-> Hafter].
      done.
    + intros Hname.
      destruct (run_updates base nodeEnv chances rejection elsewhere st0 Hbase
                  Hcalm t st n lead existing Ht Hv Hl) as [-> Hafter].
      { by rewrite Heq. }
      split; [done|]. eexists. split; [done|].
      exists (Server.revised existing (Server.now (chances (S n))) lead).
      cbn [Server.leads]. split_and!; try done. apply lookup_insert_eq.
  - intros Hl.
    destruct (run_creates base nodeEnv chances rejection elsewhere st0 Hbase
                Hcalm t st n lead Ht Hv Hl) as [-> Hafter].
    eexists. split; [done|].
    exists (Server.stored (Server.nextId st) (Server.now (chances (S n))) lead).
    cbn [Server.leads]. split_and!; try done.
    + apply lookup_insert_eq.
    + apply toLowerCase_idempotent.
  - intros record [->| ->].
    + apply toLead_trimmed.
    + apply mapToLead_trimmed.
Qed.

Lemma rerun_skips_unless_the_name_is_padded_witness :
  LeadProcessor.action
  <$> LeadProcessor.results
        match
          (LeadProcessor.processLeads
             (World.env "http://localhost:3001" (Some "test")
                (λ _, Server.quiet "2024-06-01T12:00:00.000Z")
                (λ response, Fixtures.axiosError (Server.status response))
                (λ _, {| Server.status := 404; Server.body := JNull |})
                Server.initial)
             [Fixtures.withName " Alice Johnson "
                (Fixtures.withCompany "Acme Inc"
                   (Fixtures.withEmail "alice@example.com" Fixtures.jane))]
             []).1
        with
        | Ok out => out
        | Throw _ => {| LeadProcessor.results := [];
                        LeadProcessor.summary := LeadProcessor.summarize [] |}
        end
  = [Action.updated].
Proof.
  destruct (rerun_skips_unless_the_name_is_padded
              "http://localhost:3001" (Some "test")
              (λ _, Server.quiet "2024-06-01T12:00:00.000Z")
              (λ response, Fixtures.axiosError (Server.status response))
              (λ _, {| Server.status := 404; Server.body := JNull |})
              Server.initial [] Server.initial 0
              (Fixtures.withName " Alice Johnson "
                 (Fixtures.withCompany "Acme Inc"
                    (Fixtures.withEmail "alice@example.com" Fixtures.jane))))
    as ([_ Hpadded] & _); [discriminate|reflexivity..| |].
  - eexists. split_and!; reflexivity.
  - destruct Hpadded as [-> _]; [discriminate|reflexivity].
Defined.

(** *** The failures the client retries and the failures the server
    simulates *)

Lemma handle_status st chance call :
  match Server.simulated chance with
  | Some failure =>
      Server.handle st chance call = (failure, st)
      ∧ (Server.status failure = 429 ∨ Server.status failure = 500)
  | None =>
      Server.status (Server.handle st chance call).1 ∈ [200; 201; 400; 404; 409]
  end.
Proof.
  destruct (Server.simulated chance) as [failure|] eqn:Hs.
  - split.
    + destruct call; simpl;
        unfold Server.lookup, Server.create, Server.update; by rewrite Hs.
    + unfold Server.simulated in Hs.
      destruct (Server.rateLimit chance), (Server.serverError chance);
        try discriminate Hs; injection Hs as <-; auto.
  - destruct call as [email|data|data]; simpl;
      unfold Server.lookup, Server.create, Server.update; rewrite Hs;
      repeat case_match; simpl; set_solver.
Qed.

(** X24.  The client retries exactly what the sample server simulates: an
    error that carries the status of a response of the server (and is no
    timeout) is retryable if and only if the response is a simulated rate
    limit or server error; the answers 400, 404 and 409 are never retried.
    What is retried has not touched the store, so a retry meets the store
    as the failed attempt met it. *)
Theorem client_retries_exactly_the_simulated_failures
    (st : Server.State) (chance : Server.Chance) (call : Server.Call)
    (e : thrown) :
  status e = Some (Server.status (Server.handle st chance call).1) →
  ¬ timeoutClass e →
  (isRetryable e = true ↔ Server.simulated chance ≠ None)
  ∧ (isRetryable e = true → (Server.handle st chance call).2 = st).
Proof.
  intros Hst Ht.
  pose proof (handle_status st chance call) as Hh.
  rewrite isRetryable_spec.
  unfold rateLimited, transientServerFailure. rewrite Hst.
  destruct (Server.simulated chance) as [failure|].
  - destruct Hh as [-> Hf]. simpl. split; [|done].
    split; [done|]. intros _. right. destruct Hf as [-> | ->]; auto.
  - assert (Server.status (Server.handle st chance call).1 ≠ 429
            ∧ Server.status (Server.handle st chance call).1 ≠ 500
            ∧ Server.status (Server.handle st chance call).1 ≠ 502
            ∧ Server.status (Server.handle st chance call).1 ≠ 503
            ∧ Server.status (Server.handle st chance call).1 ≠ 504)
      as (? & ? & ? & ? & ?).
    { revert Hh. rewrite !elem_of_cons, elem_of_nil.
      intros [->|[->|[->|[->|[->|[]]]]]]; done. }
    split; [|naive_solver]. split; [naive_solver|done].
Qed.

Lemma client_retries_exactly_the_simulated_failures_witness :
  isRetryable (Fixtures.axiosError 429) = true
  ∧ (Server.handle Server.initial
       {| Server.rateLimit := true; Server.serverError := false;
          Server.now := "2024-06-01T12:00:00.000Z" |}
       (Server.Create (Server.bodyOf Fixtures.jane))).2
    = Server.initial.
Proof.
  destruct (client_retries_exactly_the_simulated_failures Server.initial
              {| Server.rateLimit := true; Server.serverError := false;
                 Server.now := "2024-06-01T12:00:00.000Z" |}
              (Server.Create (Server.bodyOf Fixtures.jane))
              (Fixtures.axiosError 429)) as [Hiff Hsame].
  - reflexivity.
  - intros [H|H]; discriminate H.
  - split; [by apply Hiff|]. by apply Hsame, Hiff.
Defined.

(** *** The two comparisons *)

(** X25.  The comparison of the split version is the finer one: whenever
    [leadsAreIdentical] says that the record found equals the lead, field by
    field as they are, [leadsMatch] of the other version says so too, and
    does not throw.  A lead compared with its own object is identical in
    both. *)
Theorem identical_fields_match_after_normalisation
    (existing : json) (lead : Lead) :
  LeadProcessor2.leadsAreIdentical existing lead = true →
  LeadProcessor.leadsMatch lead existing = Ok true
  ∧ LeadProcessor2.leadsAreIdentical (leadObject lead) lead = true
  ∧ LeadProcessor.leadsMatch lead (leadObject lead) = Ok true.
Proof.
  intros Hsame.
  assert (represents existing lead) as Hrep.
  { revert Hsame. unfold LeadProcessor2.leadsAreIdentical, represents, strictEq.
    cbn [forallb]. rewrite !andb_true_iff.
    intros (Hn & He & Hc & Hs & _).
    destruct (prop "name" existing) as [[]|]; try done.
    destruct (prop "email" existing) as [[]|]; try done.
    destruct (prop "company" existing) as [[]|]; try done.
    destruct (prop "source" existing) as [[]|]; try done.
    apply bool_decide_eq_true in Hn, He, Hc, Hs. by subst. }
  split_and!.
  - by eapply leadsMatch_equal.
  - by apply (leadsAreIdentical_raw (leadObject lead) lead lead
                (leadObject_represents lead)).
  - eapply leadsMatch_equal; [apply leadObject_represents|done].
Qed.

Lemma identical_fields_match_after_normalisation_witness :
  LeadProcessor.leadsMatch Fixtures.jane (leadObject Fixtures.jane) = Ok true.
Proof.
  apply (identical_fields_match_after_normalisation
           (leadObject Fixtures.jane) Fixtures.jane).
  reflexivity.
Defined.

(** *** The results of the split version *)

Section OutcomeFacts.
Import LeadProcessor2.
Context {client : Client}.

Lemma listed_createResult lead act details errs :
  (act, Some details) ∈ Outcomes.table →
  (act = Action.error → is_Some errs) →
  (act = Action.created ∨ act = Action.updated → errs = None) →
  Outcomes.listed (createResult lead act details errs).
Proof. intros Ht He Hn. by split_and!. Qed.

Ltac solve_listed :=
  apply listed_createResult;
  [unfold Outcomes.table; set_solver
  |try done; by eexists
  |try done; by intros [|]].

Lemma processOneLead_listed lead s :
  ∃ r s', processOneLead lead s = (Ok r, s') ∧ Outcomes.listed r.
Proof.
  destruct s as [seen t].
  destruct (decide (valid lead)) as [Hv|Hv].
  - destruct (decide (emailKey lead ∈ seen)) as [Hin|Hin].
    + rewrite processOneLead_duplicate by done.
      eexists _, _. split; [done|]. solve_listed.
    + rewrite processOneLead_fresh by done.
      destruct (lookup (Validator.email lead) t) as [[[existing|]|e] t1].
      * unfold handleExistingLead.
        destruct (leadsAreIdentical existing lead).
        { eexists _, _. split; [done|]. solve_listed. }
        unfold tryCatch, bind, call.
        destruct (update lead t1) as [[u|e] t2];
          eexists _, _; (split; [done|]); solve_listed.
      * unfold handleNewLead, tryCatch, bind, call.
        destruct (create lead t1) as [[u|e] t2];
          eexists _, _; (split; [done|]); solve_listed.
      * eexists _, _. split; [done|]. solve_listed.
  - rewrite processOneLead_invalid by done.
    eexists _, _. split; [done|]. solve_listed.
Qed.

Lemma forEachLead_listed leads results s :
  Forall Outcomes.listed results →
  ∃ rs s', forEachLead leads results s = (Ok rs, s')
           ∧ Forall Outcomes.listed rs.
Proof.
  revert results s. induction leads as [|lead rest IH]; intros results s Hall.
  - by exists results, s.
  - cbn [forEachLead]. unfold bind, tryCatch.
    destruct (processOneLead_listed lead s) as (r & s' & -> & Hr).
    apply IH. apply Forall_app. split; [done|]. by constructor.
Qed.

Lemma handleNewLead_failed lead seen t e t' :
  create lead t = (Throw e, t') →
  handleNewLead lead (seen, t)
  = (Ok (createResult lead Action.error "API create failed"
           (Some [getErrorMessage e])), (seen, t')).
Proof.
  intros Hc. unfold handleNewLead, tryCatch, bind, call. by rewrite Hc.
Qed.

End OutcomeFacts.

(** X26.  The split version of the processor has no conflict handling and
    no unexpected errors.  Whatever the client does, [processLeads] returns,
    and each of its results carries one of eight pairs of action and
    details, the e-mail of its lead, a list of messages when the action is
    "error" and none when it is "created" or "updated"; "Unexpected error"
    is never among them.  When the creation of an unknown lead fails, the
    result is the error "API create failed" with the message of the failure,
    also when the failure is a conflict with status 409, which the version
    of src/csvParser.ts turns into "skipped". *)
Theorem split_version_reports_conflict_as_error
    (client : LeadProcessor2.Client) (leads : list Lead) (t : trace) :
  (∃ out t',
     LeadProcessor2.processLeads leads t = (Ok out, t')
     ∧ Forall Outcomes.listed (LeadProcessor2.results out)
     ∧ Forall (λ r, LeadProcessor2.details r ≠ Some "Unexpected error")
         (LeadProcessor2.results out))
  ∧ (∀ lead processedEmails t0 t1 e t2,
       valid lead → emailKey lead ∉ processedEmails →
       LeadProcessor2.lookup (Validator.email lead) t0 = (Ok None, t1) →
       LeadProcessor2.create lead t1 = (Throw e, t2) →
       LeadProcessor2.processOneLead lead (processedEmails, t0)
       = (Ok (LeadProcessor2.createResult lead Action.error "API create failed"
                (Some [LeadProcessor2.getErrorMessage e])),
          ({[emailKey lead]} ∪ processedEmails, t2)))
  ∧ (∀ env lead seenEmails t0 t1 e t2,
       valid lead → emailKey lead ∉ seenEmails →
       lookupLead env (Validator.email lead) t0 = (Ok None, t1) →
       createLead env lead t1 = (Throw e, t2) →
       status e = Some 409 →
       LeadProcessor.processLead env seenEmails lead t0
       = (Ok ({[emailKey lead]} ∪ seenEmails, skippedResult lead), t2)).
Proof.
  split_and!.
  - unfold LeadProcessor2.processLeads.
    destruct (forEachLead_listed leads [] (∅, t)) as (rs & [seen t'] & -> & Hrs);
      [constructor|].
    eexists _, _. split; [done|]. simpl. split; [done|].
    eapply Forall_impl; [exact Hrs|].
    intros r (Htable & _). intros Hd. rewrite Hd in Htable.
    unfold Outcomes.table in Htable. set_solver.
  - intros lead processedEmails t0 t1 e t2 Hv Hin Hl Hc.
    rewrite processOneLead_fresh, Hl by done. by apply handleNewLead_failed.
  - intros env lead seenEmails t0 t1 e t2 Hv Hin Hl Hc Hs.
    eapply processLead_fresh; [done..|].
    rewrite (reconcile_create_failed env lead t0 t1 e t2 Hl Hc).
    by rewrite bool_decide_eq_true_2.
Qed.

Lemma split_version_reports_conflict_as_error_witness :
  LeadProcessor2.action
  <$> (match @LeadProcessor2.processOneLead
               (Fixtures.clientOf
                  (Fixtures.scripted [Resolved (JObj [("found", JBool false)])]
                     (Rejected (Fixtures.axiosError 409))))
               Fixtures.jane (∅, []) with
       | (Ok r, _) => Some r
       | (Throw _, _) => None
       end)
  = Some Action.error.
Proof.
  erewrite (proj1 (proj2 (split_version_reports_conflict_as_error
              (Fixtures.clientOf
                 (Fixtures.scripted [Resolved (JObj [("found", JBool false)])]
                    (Rejected (Fixtures.axiosError 409))))
              [] [])) Fixtures.jane ∅ []);
    [reflexivity|reflexivity|apply not_elem_of_empty|reflexivity..].
Defined.

(** *** The exit code *)

Lemma countAction_zero a (results : list LeadProcessor.ProcessResult) :
  LeadProcessor.countAction a results = 0%nat
  ↔ Forall (λ r, LeadProcessor.action r ≠ a) results.
Proof.
  unfold LeadProcessor.countAction.
  induction results as [|r results IH]; [by split; [constructor|]|].
  rewrite filter_cons, Forall_cons.
  destruct (decide (LeadProcessor.action r = a)) as [Ha|Ha]; simpl.
  - split; [done|]. by intros [? _].
  - rewrite IH. naive_solver.
Qed.

Lemma processLeads_turns env leads t :
  LeadProcessor.processLeads env leads t
  = (Ok {| LeadProcessor.results := (turns env leads ∅ t).*1;
           LeadProcessor.summary :=
             LeadProcessor.summarize (turns env leads ∅ t).*1 |},
     t ++ concat (turns env leads ∅ t).*2).
Proof.
  unfold LeadProcessor.processLeads, bind.
  by destruct (forEachLead_turns env leads ∅ [] t) as [-> _].
Qed.

Lemma main_code parseCSVFile env file t leads :
  parseCSVFile file = Ok leads →
  Main.main parseCSVFile env file t
  = (Ok (if (0 <? LeadProcessor.countAction Action.error
                    (turns env leads ∅ t).*1)%nat then 1 else 0),
     t ++ concat (turns env leads ∅ t).*2).
Proof.
  intros Hp. unfold Main.main, tryCatch, bind, lift. rewrite Hp.
  rewrite processLeads_turns. cbn [LeadProcessor.summary LeadProcessor.summarize
    LeadProcessor.errors].
  by destruct (0 <? _)%nat.
Qed.

(** X27.  The exit code of the command line: [main] always ends with code
    0 or 1.  It is 0 exactly when the reader returned leads and no record of
    the run ended with the action "error"; so one invalid row in the file
    is enough for code 1, although the run goes on to the last record.  When
    the reader throws, the code is 1 and nothing is sent to the remote. *)
Theorem main_exits_zero_iff_no_record_failed
    (parseCSVFile : string → result (list Lead)) (env : Env) (file : string)
    (t : trace) :
  (∃ code t',
     Main.main parseCSVFile env file t = (Ok code, t')
     ∧ (code = 0 ∨ code = 1))
  ∧ ((Main.main parseCSVFile env file t).1 = Ok 0
     ↔ ∃ leads,
         parseCSVFile file = Ok leads
         ∧ ∀ i r added,
             turns env leads ∅ t !! i = Some (r, added) →
             LeadProcessor.action r ≠ Action.error)
  ∧ (∀ e, parseCSVFile file = Throw e →
          Main.main parseCSVFile env file t = (Ok 1, t))
  ∧ (∀ leads lead,
       parseCSVFile file = Ok leads → lead ∈ leads → ¬ valid lead →
       (Main.main parseCSVFile env file t).1 = Ok 1
       ∧ length (turns env leads ∅ t) = length leads).
Proof.
  assert (∀ leads,
            (0 <? LeadProcessor.countAction Action.error
                    (turns env leads ∅ t).*1)%nat = false
            ↔ ∀ i r added,
                turns env leads ∅ t !! i = Some (r, added) →
                LeadProcessor.action r ≠ Action.error) as Hzero.
  { intros leads. rewrite Nat.ltb_ge, Nat.le_0_r, countAction_zero.
    rewrite Forall_fmap, Forall_lookup. split.
    - intros Hall i r added Hi. apply (Hall i (r, added) Hi).
    - intros Hall i [r added] Hi. by apply (Hall i r added). }
  split_and!.
  - destruct (parseCSVFile file) as [leads|e] eqn:Hp.
    + rewrite (main_code _ _ _ _ leads Hp). eexists _, _. split; [done|].
      destruct (0 <? _)%nat; auto.
    + unfold Main.main, tryCatch, bind, lift. rewrite Hp. by eexists _, _; eauto.
  - destruct (parseCSVFile file) as [leads|e] eqn:Hp.
    + rewrite (main_code _ _ _ _ leads Hp). cbn [fst].
      specialize (Hzero leads).
      destruct (0 <? _)%nat.
      * split; [done|]. intros (leads' & [= <-] & Hall).
        apply Hzero in Hall. done.
      * split; [|done]. intros _. exists leads. split; [done|]. by apply Hzero.
    + unfold Main.main, tryCatch, bind, lift. rewrite Hp. simpl.
      split; [done|]. by intros (leads & [=] & _).
  - intros e Hp. unfold Main.main, tryCatch, bind, lift. by rewrite Hp.
  - intros leads lead Hp Hin Hv.
    destruct (forEachLead_turns env leads ∅ [] t) as [_ Hleads].
    assert (length (turns env leads ∅ t) = length leads) as Hlen.
    { rewrite <- Hleads at 2. by rewrite !length_fmap. }
    split; [|done].
    rewrite (main_code _ _ _ _ leads Hp). cbn [fst].
    specialize (Hzero leads). destruct (0 <? _)%nat; [done|].
    apply list_elem_of_lookup in Hin as [i Hi].
    destruct (lookup_lt_is_Some_2 (turns env leads ∅ t) i) as [[r added] Hturn].
    { rewrite Hlen. by eapply lookup_lt_Some. }
    destruct (turns_lookup env leads ∅ t i lead r added Hi Hturn)
      as (Hrejected & _).
    destruct (Hrejected Hv) as [-> _].
    by destruct (proj1 Hzero eq_refl i _ _ Hturn).
Qed.

(** *** Simulated failures and retries *)

Section FailingServer.
Variable base : string.
Variable nodeEnv : option string.
Variable chances : nat → Server.Chance.
Variable rejection : Server.Response → thrown.
Variable elsewhere : request → Server.Response.
Variable st0 : Server.State.
Hypothesis base_set : base ≠ "".
Hypothesis rejection_shape :
  ∀ response,
    status (rejection response) = Some (Server.status response)
    ∧ ¬ timeoutClass (rejection response).

Local Abbreviation world :=
  (World.env base nodeEnv chances rejection elsewhere st0).
Local Abbreviation after t := (World.after base chances elsewhere t st0 0).

Lemma pause_after st n k :
  World.after base chances elsewhere (pause world k) st n = (st, n).
Proof. unfold pause. by destruct (0 <? _). Qed.

(** An attempt that meets a simulated failure. *)
Lemma world_failed_attempt t st n r call failure :
  after t = (st, n) → World.route base r = Some call →
  Server.simulated (chances n) = Some failure →
  axios world t r = Rejected (rejection failure)
  ∧ isRetryable (rejection failure) = true
  ∧ notFoundSignal (Rejected (rejection failure)) = false
  ∧ ∀ k, after ((t ++ [Sent r]) ++ pause world k) = (st, S n).
Proof.
  intros Ht Hr Hs.
  pose proof (handle_status st (chances n) call) as Hh. rewrite Hs in Hh.
  destruct Hh as [Hhandle Hstatus].
  destruct (rejection_shape failure) as [Hst Hto].
  split_and!.
  - simpl. unfold World.answer. rewrite Ht. unfold World.serve.
    rewrite Hr, Hhandle. simpl. by destruct Hstatus as [-> | ->].
  - apply isRetryable_spec. right.
    unfold rateLimited, transientServerFailure. rewrite Hst.
    destruct Hstatus as [-> | ->]; auto.
  - simpl. rewrite Hst.
    rewrite bool_decide_eq_false_2; [apply andb_false_r|].
    destruct Hstatus as [-> | ->]; discriminate.
  - intros k. rewrite !after_app, Ht. simpl. unfold World.serve.
    rewrite Hr, Hhandle. simpl. apply pause_after.
Qed.

(** [k] attempts in a row that meet a simulated failure: the loop goes on
    with the next attempt, the store is as it was. *)
Lemma world_retries {A} (fn : M trace A) r call :
  World.route base r = Some call →
  (∀ t e, axios world t r = Rejected e →
          notFoundSignal (Rejected e) = false →
          fn t = (Throw e, t ++ [Sent r])) →
  ∀ k iterations attempt last t st n,
    after t = (st, n) → (k < iterations)%nat →
    attempt + Z.of_nat iterations = MAX_RETRIES + 1 →
    (∀ i, (i < k)%nat → Server.simulated (chances (n + i)) ≠ None) →
    ∃ t' last',
      withRetryFrom world fn iterations attempt last t
      = withRetryFrom world fn (iterations - k) (attempt + Z.of_nat k) last' t'
      ∧ after t' = (st, (n + k)%nat)
      ∧ t' ++ [Sent r] = t ++ attempts world r (S k) attempt.
Proof.
  intros Hroute Hfn k.
  induction k as [|k IH]; intros iterations attempt last t st n Ht Hk Ha Hfail.
  - exists t, last.
    rewrite Nat.sub_0_r, Z.add_0_r, Nat.add_0_r. by split_and!.
  - destruct iterations as [|m]; [lia|].
    destruct (Server.simulated (chances n)) as [failure|] eqn:Hs.
    2: { destruct (Hfail 0%nat); [lia|]. by rewrite Nat.add_0_r. }
    destruct (world_failed_attempt t st n r call failure Ht Hroute Hs)
      as (Hax & Hre & Hnf & Hafter).
    rewrite (withRetryFrom_again world fn m attempt last t
               (rejection failure) (t ++ [Sent r]));
      [|by apply Hfn|done|unfold MAX_RETRIES in *; lia].
    destruct (IH m (attempt + 1) (Some (rejection failure))
                ((t ++ [Sent r]) ++ pause world attempt) st (S n))
      as (t' & last' & Heq & Hafter' & Htrace).
    + apply Hafter.
    + lia.
    + lia.
    + intros i Hi. replace (S n + i)%nat with (n + S i)%nat by lia.
      apply Hfail. lia.
    + exists t', last'. split_and!.
      * rewrite Heq. f_equal. lia.
      * rewrite Hafter'. f_equal. lia.
      * rewrite Htrace, attempts_S. by rewrite <- !app_assoc.
Qed.

Lemma world_lookup_after_failures k t st n lead :
  after t = (st, n) → (k ≤ 2)%nat →
  (∀ i, (i < k)%nat → Server.simulated (chances (n + i)) ≠ None) →
  Server.simulated (chances (n + k)) = None →
  valid lead → Server.leads st !! emailKey lead = None →
  lookupLead world (Validator.email lead) t
  = (Ok None,
     t ++ attempts world
            (Get (base +:+ "/api/leads/lookup") (Validator.email lead)) (S k) 1)
  ∧ after (t ++ attempts world
                  (Get (base +:+ "/api/leads/lookup") (Validator.email lead))
                  (S k) 1)
    = (st, S (n + k)).
Proof.
  intros Ht Hk Hfail Hcalm Hv Hl.
  destruct (world_retries (lookupLeadOnce world (Validator.email lead))
              (Get (base +:+ "/api/leads/lookup") (Validator.email lead))
              (Server.Lookup (Some (Validator.email lead)))
              (route_lookup base (Validator.email lead)))
    with (k := k) (iterations := 3%nat) (attempt := 1) (last := @None thrown)
         (t := t) (st := st) (n := n)
    as (t' & last' & Heq & Hafter & Htrace); try done; try lia.
  { intros t1 e Hax Hnf.
    rewrite <- (world_lookupUrl base nodeEnv chances rejection elsewhere st0
                  base_set) in *.
    by apply lookupLeadOnce_rejected. }
  destruct (world_lookupOnce_absent base nodeEnv chances rejection elsewhere
              st0 base_set t' st (n + k) lead Hafter Hcalm Hv Hl)
    as [Hone Hafter'].
  rewrite Htrace in Hone, Hafter'.
  split; [|done].
  unfold lookupLead, withRetry. change (Z.to_nat MAX_RETRIES) with 3%nat.
  rewrite Heq. destruct (3 - k)%nat as [|m] eqn:Hm; [lia|].
  by apply withRetryFrom_ok.
Qed.

Lemma world_create_after_failures k t st n lead :
  after t = (st, n) → (k ≤ 2)%nat →
  (∀ i, (i < k)%nat → Server.simulated (chances (n + i)) ≠ None) →
  Server.simulated (chances (n + k)) = None →
  valid lead → Server.leads st !! emailKey lead = None →
  (∃ created,
     createLead world lead t
     = (Ok created,
        t ++ attempts world (Post (base +:+ "/api/leads/create") lead) (S k) 1))
  ∧ after (t ++ attempts world (Post (base +:+ "/api/leads/create") lead)
                  (S k) 1)
    = ({| Server.leads :=
            <[emailKey lead :=
                Server.stored (Server.nextId st)
                  (Server.now (chances (n + k))) lead]> (Server.leads st);
          Server.nextId := Server.nextId st + 1 |}, S (n + k)).
Proof.
  intros Ht Hk Hfail Hcalm Hv Hl.
  destruct (world_retries (createLeadOnce world lead)
              (Post (base +:+ "/api/leads/create") lead)
              (Server.Create (Server.bodyOf lead)) (route_create base lead))
    with (k := k) (iterations := 3%nat) (attempt := 1) (last := @None thrown)
         (t := t) (st := st) (n := n)
    as (t' & last' & Heq & Hafter & Htrace); try done; try lia.
  { intros t1 e Hax _.
    rewrite <- (world_createUrl base nodeEnv chances rejection elsewhere st0
                  base_set) in *.
    by apply createLeadOnce_rejected. }
  destruct (world_createOnce base nodeEnv chances rejection elsewhere
              st0 base_set t' st (n + k) lead Hafter Hcalm Hv Hl)
    as [[created Hone] Hafter'].
  rewrite Htrace in Hone, Hafter'.
  split; [|done]. exists created.
  unfold createLead, withRetry. change (Z.to_nat MAX_RETRIES) with 3%nat.
  rewrite Heq. destruct (3 - k)%nat as [|m] eqn:Hm; [lia|].
  by apply withRetryFrom_ok.
Qed.

Lemma world_lookup_exhausted t st n lead :
  after t = (st, n) →
  (∀ i, (i < 3)%nat → Server.simulated (chances (n + i)) ≠ None) →
  ∃ failure,
    Server.simulated (chances (n + 2)) = Some failure
    ∧ lookupLead world (Validator.email lead) t
      = (Throw (exhausted (Some (rejection failure))),
         t ++ attempts world
                (Get (base +:+ "/api/leads/lookup") (Validator.email lead)) 3 1)
    ∧ after (t ++ attempts world
                    (Get (base +:+ "/api/leads/lookup") (Validator.email lead))
                    3 1)
      = (st, (n + 3)%nat).
Proof.
  intros Ht Hfail.
  destruct (world_retries (lookupLeadOnce world (Validator.email lead))
              (Get (base +:+ "/api/leads/lookup") (Validator.email lead))
              (Server.Lookup (Some (Validator.email lead)))
              (route_lookup base (Validator.email lead)))
    with (k := 2%nat) (iterations := 3%nat) (attempt := 1)
         (last := @None thrown) (t := t) (st := st) (n := n)
    as (t' & last' & Heq & Hafter & Htrace); try done; try lia.
  { intros t1 e Hax Hnf.
    rewrite <- (world_lookupUrl base nodeEnv chances rejection elsewhere st0
                  base_set) in *.
    by apply lookupLeadOnce_rejected. }
  { intros i Hi. apply Hfail. lia. }
  destruct (Server.simulated (chances (n + 2))) as [failure|] eqn:Hs;
    [|destruct (Hfail 2%nat); [lia|done]].
  destruct (world_failed_attempt t' st (n + 2)
              (Get (base +:+ "/api/leads/lookup") (Validator.email lead))
              _ failure Hafter (route_lookup base (Validator.email lead)) Hs)
    as (Hax & Hre & Hnf & Hafter').
  exists failure. split; [done|].
  unfold lookupLead, withRetry. change (Z.to_nat MAX_RETRIES) with 3%nat.
  rewrite Heq. change (3 - 2)%nat with 1%nat.
  change (1 + Z.of_nat 2) with MAX_RETRIES.
  rewrite <- Htrace. split.
  - apply withRetryFrom_break; [|done].
    rewrite <- (world_lookupUrl base nodeEnv chances rejection elsewhere st0
                  base_set) in *.
    by apply lookupLeadOnce_rejected.
  - specialize (Hafter' 0). rewrite after_app in Hafter'.
    rewrite pause_after in Hafter'.
    destruct (World.after base chances elsewhere (t' ++ _) st0 0) as [st' n'].
    simpl in Hafter'. injection Hafter' as -> ->. f_equal. lia.
Qed.

End FailingServer.

(** X28.  Against the sample server with its simulated failures, for a
    valid lead whose lower-cased e-mail the store does not hold: when at
    most two attempts in a row of the lookup, and then at most two in a row
    of the creation, meet a simulated failure, the run still ends "created";
    the trace shows every attempt with the pauses between them, and the
    store holds the lead exactly once, with the id that was next.  When
    three attempts of the lookup in a row meet a simulated failure, the
    result is an error whose message names the three attempts and the last
    rejection, no create request is sent, and the store is as it was. *)
Theorem run_outlasts_two_simulated_failures_per_call
    (base : string) (nodeEnv : option string) (chances : nat → Server.Chance)
    (rejection : Server.Response → thrown)
    (elsewhere : request → Server.Response) (st0 : Server.State)
    (t : trace) (st : Server.State) (n : nat) (lead : Lead) :
  base ≠ "" →
  (∀ response,
     status (rejection response) = Some (Server.status response)
     ∧ ¬ timeoutClass (rejection response)) →
  World.after base chances elsewhere t st0 0 = (st, n) →
  valid lead → Server.leads st !! emailKey lead = None →
  (∀ k1 k2,
     (k1 ≤ 2)%nat → (k2 ≤ 2)%nat →
     (∀ i, (i < k1)%nat → Server.simulated (chances (n + i)%nat) ≠ None) →
     Server.simulated (chances (n + k1)%nat) = None →
     (∀ i, (i < k2)%nat →
           Server.simulated (chances (S (n + k1) + i)%nat) ≠ None) →
     Server.simulated (chances (S (n + k1) + k2)%nat) = None →
     LeadProcessor.processLeads
       (World.env base nodeEnv chances rejection elsewhere st0) [lead] t
     = (Ok {| LeadProcessor.results :=
                [{| LeadProcessor.lead := lead;
                    LeadProcessor.action := Action.created;
                    LeadProcessor.error := None |}];
              LeadProcessor.summary :=
                {| LeadProcessor.total := 1; LeadProcessor.created := 1;
                   LeadProcessor.updated := 0; LeadProcessor.skipped := 0;
                   LeadProcessor.errors := 0 |} |},
        (t ++ attempts (World.env base nodeEnv chances rejection elsewhere st0)
                (Get (base +:+ "/api/leads/lookup") (Validator.email lead))
                (S k1) 1)
        ++ attempts (World.env base nodeEnv chances rejection elsewhere st0)
             (Post (base +:+ "/api/leads/create") lead) (S k2) 1)
     ∧ World.after base chances elsewhere
         ((t ++ attempts
                  (World.env base nodeEnv chances rejection elsewhere st0)
                  (Get (base +:+ "/api/leads/lookup") (Validator.email lead))
                  (S k1) 1)
          ++ attempts (World.env base nodeEnv chances rejection elsewhere st0)
               (Post (base +:+ "/api/leads/create") lead) (S k2) 1) st0 0
       = ({| Server.leads :=
               <[emailKey lead :=
                   Server.stored (Server.nextId st)
                     (Server.now (chances (S (n + k1) + k2)%nat)) lead]>
                 (Server.leads st);
             Server.nextId := Server.nextId st + 1 |},
          S (S (n + k1) + k2)%nat))
  ∧ ((∀ i, (i < 3)%nat → Server.simulated (chances (n + i)%nat) ≠ None) →
     ∃ failure,
       Server.simulated (chances (n + 2)%nat) = Some failure
       ∧ LeadProcessor.processLeads
           (World.env base nodeEnv chances rejection elsewhere st0) [lead] t
         = (Ok {| LeadProcessor.results :=
                    [{| LeadProcessor.lead := lead;
                        LeadProcessor.action := Action.error;
                        LeadProcessor.error :=
                          Some ("Max retries exhausted after 3 attempts. Last error: "
                                +:+ messageOf (rejection failure)) |}];
                  LeadProcessor.summary :=
                    {| LeadProcessor.total := 1; LeadProcessor.created := 0;
                       LeadProcessor.updated := 0; LeadProcessor.skipped := 0;
                       LeadProcessor.errors := 1 |} |},
            t ++ attempts
                   (World.env base nodeEnv chances rejection elsewhere st0)
                   (Get (base +:+ "/api/leads/lookup") (Validator.email lead))
                   3 1)
       ∧ World.after base chances elsewhere
           (t ++ attempts
                   (World.env base nodeEnv chances rejection elsewhere st0)
                   (Get (base +:+ "/api/leads/lookup") (Validator.email lead))
                   3 1) st0 0
         = (st, (n + 3)%nat)).
Proof.
  intros Hbase Hshape Ht Hv Hl. split.
  - intros k1 k2 Hk1 Hk2 Hfail1 Hcalm1 Hfail2 Hcalm2.
    destruct (world_lookup_after_failures base nodeEnv chances rejection
                elsewhere st0 Hbase Hshape k1 t st n lead Ht Hk1 Hfail1 Hcalm1
                Hv Hl) as [Hlookup Hafter].
    destruct (world_create_after_failures base nodeEnv chances rejection
                elsewhere st0 Hbase Hshape k2 _ st (S (n + k1)) lead Hafter Hk2
                Hfail2 Hcalm2 Hv Hl) as [[created Hcreate] Hafter'].
    split; [|done].
    rewrite (processLeads_single _ lead t ({[emailKey lead]} ∪ ∅) _ _
               (processLead_fresh _ ∅ lead t _ _ Hv (not_elem_of_empty _)
                  (reconcile_created _ lead t _ created _ Hlookup Hcreate))).
    done.
  - intros Hfail.
    destruct (world_lookup_exhausted base nodeEnv chances rejection elsewhere
                st0 Hbase Hshape t st n lead Ht Hfail)
      as (failure & Hs & Hlookup & Hafter).
    exists failure. split_and!; [done| |done].
    rewrite (processLeads_single _ lead t ({[emailKey lead]} ∪ ∅) _ _
               (processLead_fresh _ ∅ lead t _ _ Hv (not_elem_of_empty _)
                  (reconcile_lookup_failed _ lead t _ _ Hlookup))).
    done.
Qed.

Lemma run_outlasts_two_simulated_failures_per_call_witness :
  ∃ out,
    LeadProcessor.processLeads
      (World.env "http://localhost:3001" (Some "test")
         (λ n, {| Server.rateLimit := bool_decide (n = 0%nat);
                  Server.serverError := bool_decide (n = 2%nat);
                  Server.now := "2024-06-01T12:00:00.000Z" |})
         (λ response, Fixtures.axiosError (Server.status response))
         (λ _, {| Server.status := 404; Server.body := JNull |})
         Server.initial)
      [Fixtures.jane] []
    = (Ok out,
       [Sent (Get "http://localhost:3001/api/leads/lookup" "jane@example.com");
        Sent (Get "http://localhost:3001/api/leads/lookup" "jane@example.com");
        Sent (Post "http://localhost:3001/api/leads/create" Fixtures.jane);
        Sent (Post "http://localhost:3001/api/leads/create" Fixtures.jane)])
    ∧ LeadProcessor.action <$> LeadProcessor.results out = [Action.created].
Proof.
  eexists. split.
  - refine (proj1 (proj1 (run_outlasts_two_simulated_failures_per_call
             "http://localhost:3001" (Some "test")
             (λ n, {| Server.rateLimit := bool_decide (n = 0%nat);
                      Server.serverError := bool_decide (n = 2%nat);
                      Server.now := "2024-06-01T12:00:00.000Z" |})
             (λ response, Fixtures.axiosError (Server.status response))
             (λ _, {| Server.status := 404; Server.body := JNull |})
             Server.initial [] Server.initial 0 Fixtures.jane _ _ _ _ _)
             1%nat 1%nat _ _ _ _ _ _)).
    + discriminate.
    + intros response. split; [reflexivity|]. intros [H|H]; discriminate H.
    + reflexivity.
    + reflexivity.
    + reflexivity.
    + lia.
    + lia.
    + intros [|i] Hi; [discriminate|lia].
    + reflexivity.
    + intros [|i] Hi; [discriminate|lia].
    + reflexivity.
  - reflexivity.
Defined.

(** *** What a turn sends *)

Lemma sent_app t1 t2 : sent (t1 ++ t2) = sent t1 ++ sent t2.
Proof. induction t1 as [|[r|ms] t1 IH]; simpl; by rewrite ?IH. Qed.

Lemma sent_pause env k : sent (pause env k) = [].
Proof. unfold pause. by destruct (0 <? _). Qed.

Lemma sent_attempts env r n k : sent (attempts env r n k) = replicate n r.
Proof.
  revert k. induction n as [|n IH]; intros k; [done|].
  destruct n as [|n]; [done|].
  change (attempts env r (S (S n)) k)
    with (Sent r :: pause env k ++ attempts env r (S n) (k + 1)).
  cbn [sent]. by rewrite sent_app, sent_pause, IH.
Qed.

Lemma slept_pause env k ms :
  1 ≤ k → Slept ms ∈ pause env k → ms = 1000 * 2 ^ (k - 1).
Proof.
  intros Hk. rewrite pause_spec by done.
  case_bool_decide as Hb; [by intros ?%elem_of_nil|].
  intros [= ->]%list_elem_of_singleton.
  destruct (BASE_DELAY_cases env) as [?|Hd]; [done|]. by rewrite Hd.
Qed.

Lemma slept_attempts_from env r n k ms :
  1 ≤ k → Slept ms ∈ attempts env r n k →
  ∃ j, k ≤ j < k + Z.of_nat n - 1 ∧ ms = 1000 * 2 ^ (j - 1).
Proof.
  revert k. induction n as [|n IH]; intros k Hk; [by intros ?%elem_of_nil|].
  destruct n as [|n].
  { simpl. by intros [=]%list_elem_of_singleton. }
  change (attempts env r (S (S n)) k)
    with (Sent r :: pause env k ++ attempts env r (S n) (k + 1)).
  rewrite elem_of_cons, elem_of_app. intros [?|[Hp|Hrest]]; [done|..].
  - exists k. split; [lia|]. by apply (slept_pause env).
  - destruct (IH (k + 1) ltac:(lia) Hrest) as (j & Hj & ->).
    exists j. split; [lia|done].
Qed.

Lemma slept_attempts env r n ms :
  (n ≤ 3)%nat → Slept ms ∈ attempts env r n 1 → ms = 1000 ∨ ms = 2000.
Proof.
  intros Hn Hin.
  destruct (slept_attempts_from env r n 1 ms ltac:(lia) Hin) as (j & Hj & ->).
  assert (j = 1 ∨ j = 2) as [->| ->] by lia; [by left|by right].
Qed.

Section TrafficFacts.
Import LeadProcessor.
Variable env : Env.

(** The mutation a result speaks of has been posted: to the create URL for
    "created", to the update URL for "updated". *)
Local Abbreviation posted r url m :=
  ((action r = Action.created → url = createUrl env ∧ (1 ≤ m)%nat)
   ∧ (action r = Action.updated → url = updateUrl env ∧ (1 ≤ m)%nat)).

Lemma reconcile_traffic lead t :
  ∃ r n m url,
    (reconcile env lead t).1 = Ok r
    ∧ (reconcile env lead t).2
      = t ++ attempts env (Get (lookupUrl env) (Validator.email lead)) n 1
          ++ attempts env (Post url lead) m 1
    ∧ (1 ≤ n ≤ 3)%nat ∧ (m ≤ 3)%nat
    ∧ (url = createUrl env ∨ url = updateUrl env)
    ∧ posted r url m.
Proof.
  assert (∀ e t', ∃ r, reconcileCatch lead e t' = (Ok r, t')
                       ∧ action r ≠ Action.created
                       ∧ action r ≠ Action.updated) as Hcatch.
  { intros e t'. unfold reconcileCatch. case_bool_decide; by eexists. }
  unfold reconcile, tryCatch, reconcileTry, bind.
  destruct (lookupLead_trace env (Validator.email lead) t) as (n & Hn & Ht).
  destruct (lookupLead env (Validator.email lead) t) as [[[existing|]|e] t1];
    simpl in Ht; subst t1.
  - unfold lift. destruct (leadsMatch lead existing) as [[]|e]; simpl.
    + eexists _, n, 0%nat, (createUrl env). rewrite app_nil_r.
      split_and!; auto; try lia; by intros [=].
    + destruct (updateLead_trace env lead
                  (t ++ attempts env (Get (lookupUrl env) (Validator.email lead)) n 1))
        as (m & Hm & Hu).
      destruct (updateLead env lead _) as [[u|e] t2]; simpl in Hu; subst t2.
      * eexists _, n, m, (updateUrl env). simpl. rewrite <- app_assoc.
        split_and!; auto; try lia; [by intros [=]|]. intros _. split; [done|lia].
      * destruct (Hcatch e (((t ++ attempts env (Get (lookupUrl env) (Validator.email lead)) n 1)
                      ++ attempts env (Post (updateUrl env) lead) m 1)))
          as (r & -> & Hc & Hu).
        exists r, n, m, (updateUrl env). simpl. rewrite <- app_assoc.
        split_and!; auto; try lia; by intros ?.
    + destruct (Hcatch e (t ++ attempts env (Get (lookupUrl env) (Validator.email lead)) n 1))
        as (r & -> & Hc & Hu).
      exists r, n, 0%nat, (createUrl env). simpl. rewrite app_nil_r.
      split_and!; auto; try lia; by intros ?.
  - destruct (createLead_trace env lead
                (t ++ attempts env (Get (lookupUrl env) (Validator.email lead)) n 1))
      as (m & Hm & Hc).
    destruct (createLead env lead _) as [[u|e] t2]; simpl in Hc; subst t2.
    + eexists _, n, m, (createUrl env). simpl. rewrite <- app_assoc.
      split_and!; auto; try lia; [|by intros [=]]. intros _. split; [done|lia].
    + destruct (Hcatch e (((t ++ attempts env (Get (lookupUrl env) (Validator.email lead)) n 1)
                      ++ attempts env (Post (createUrl env) lead) m 1)))
        as (r & -> & Hcr & Hu).
      exists r, n, m, (createUrl env). simpl. rewrite <- app_assoc.
      split_and!; auto; try lia; by intros ?.
  - destruct (Hcatch e (t ++ attempts env (Get (lookupUrl env) (Validator.email lead)) n 1))
      as (r & -> & Hc & Hu).
    exists r, n, 0%nat, (createUrl env). simpl. rewrite app_nil_r.
    split_and!; auto; try lia; by intros ?.
Qed.

Lemma processLead_traffic seenEmails lead t :
  ∃ seenEmails' r added n m url,
    processLead env seenEmails lead t = (Ok (seenEmails', r), t ++ added)
    ∧ sent added
      = replicate n (Get (lookupUrl env) (Validator.email lead))
        ++ replicate m (Post url lead)
    ∧ (n ≤ 3)%nat ∧ (m ≤ 3)%nat
    ∧ (url = createUrl env ∨ url = updateUrl env)
    ∧ posted r url m
    ∧ (added ≠ [] → (1 ≤ n)%nat ∧ valid lead ∧ emailKey lead ∉ seenEmails)
    ∧ (∀ ms, Slept ms ∈ added → ms = 1000 ∨ ms = 2000).
Proof.
  unfold processLead.
  destruct (Validator.isValid (validateLead lead)) eqn:Hv; simpl.
  2:{ eexists _, _, [], 0%nat, 0%nat, (createUrl env). rewrite app_nil_r.
      split_and!; auto; try lia; try done; try (by intros [=]).
      by intros ms ?%elem_of_nil. }
  case_bool_decide as Hin.
  { eexists _, _, [], 0%nat, 0%nat, (createUrl env). rewrite app_nil_r.
    split_and!; auto; try lia; try done; try (by intros [=]).
    by intros ms ?%elem_of_nil. }
  unfold bind.
  destruct (reconcile_traffic lead t)
    as (r & n & m & url & Hr & Ht & Hn & Hm & Hurl & Hc & Hu).
  destruct (reconcile env lead t) as [r0 t1]; simpl in Hr, Ht; subst r0 t1.
  eexists _, r, _, n, m, url. unfold ret.
  rewrite sent_app, !sent_attempts.
  split_and!; auto; try lia.
  - intros _. split_and!; [lia|done|done].
  - intros ms [H|H]%elem_of_app; eapply slept_attempts; try apply H; lia.
Qed.

Lemma turns_traffic leads seenEmails t i lead r added :
  leads !! i = Some lead →
  turns env leads seenEmails t !! i = Some (r, added) →
  ∃ n m url,
    sent added
    = replicate n (Get (lookupUrl env) (Validator.email lead))
      ++ replicate m (Post url lead)
    ∧ (n ≤ 3)%nat ∧ (m ≤ 3)%nat
    ∧ (url = createUrl env ∨ url = updateUrl env)
    ∧ posted r url m
    ∧ (added ≠ [] → (1 ≤ n)%nat ∧ valid lead)
    ∧ (∀ ms, Slept ms ∈ added → ms = 1000 ∨ ms = 2000).
Proof.
  revert seenEmails t i.
  induction leads as [|first rest IH]; intros seenEmails t i; [done|].
  cbn [turns].
  destruct (processLead_traffic seenEmails first t)
    as (seenEmails' & r0 & added0 & n & m & url
        & -> & Hs & Hn & Hm & Hurl & [Hc Hu] & Hne & Hms).
  rewrite drop_app_length.
  destruct i as [|i]; simpl.
  - intros [= ->] [= -> ->]. exists n, m, url.
    split_and!; try done.
    intros Hadded. by destruct (Hne Hadded) as (? & ? & _).
  - apply IH.
Qed.

End TrafficFacts.

(** X29.  A turn sends nothing but lookups of its record's e-mail and posts
    of its record: the requests of the turn of the [i]-th record are, in
    this order, at most three GETs of the lookup URL with the record's
    e-mail and at most three POSTs of the record itself, all to the create
    URL or all to the update URL.  A record reported as created has been
    posted to the create URL and one reported as updated to the update URL.
    A turn that leaves anything in the trace is the turn of a valid record
    and begins with a lookup; and every pause of a turn lasts one or two
    seconds. *)
Theorem turn_sends_lookups_then_posts_of_its_record
    (env : Env) (leads : list Lead) (t : trace) (i : nat) (lead : Lead)
    (r : LeadProcessor.ProcessResult) (added : trace) :
  leads !! i = Some lead →
  turns env leads ∅ t !! i = Some (r, added) →
  ∃ n m url,
    sent added
    = replicate n (Get (lookupUrl env) (Validator.email lead))
      ++ replicate m (Post url lead)
    ∧ (n ≤ 3)%nat ∧ (m ≤ 3)%nat
    ∧ (url = createUrl env ∨ url = updateUrl env)
    ∧ (LeadProcessor.action r = Action.created →
       url = createUrl env ∧ (1 ≤ m)%nat)
    ∧ (LeadProcessor.action r = Action.updated →
       url = updateUrl env ∧ (1 ≤ m)%nat)
    ∧ (added ≠ [] → (1 ≤ n)%nat ∧ valid lead)
    ∧ (∀ ms, Slept ms ∈ added → ms = 1000 ∨ ms = 2000).
Proof.
  intros Hl Ht.
  destruct (turns_traffic env leads ∅ t i lead r added Hl Ht)
    as (n & m & url & Hs & Hn & Hm & Hurl & [Hc Hu] & Hne & Hms).
  by exists n, m, url.
Qed.

Lemma turn_sends_lookups_then_posts_of_its_record_witness :
  ∃ n m url,
    sent [Sent (Get (lookupUrl Fixtures.empty) "jane@example.com");
          Sent (Post (createUrl Fixtures.empty) Fixtures.jane)]
    = replicate n (Get (lookupUrl Fixtures.empty) "jane@example.com")
      ++ replicate m (Post url Fixtures.jane)
    ∧ (n ≤ 3)%nat ∧ (m ≤ 3)%nat
    ∧ (url = createUrl Fixtures.empty ∨ url = updateUrl Fixtures.empty)
    ∧ (Action.created = Action.created →
       url = createUrl Fixtures.empty ∧ (1 ≤ m)%nat)
    ∧ (Action.created = Action.updated →
       url = updateUrl Fixtures.empty ∧ (1 ≤ m)%nat)
    ∧ ([Sent (Get (lookupUrl Fixtures.empty) "jane@example.com");
        Sent (Post (createUrl Fixtures.empty) Fixtures.jane)] ≠ [] →
       (1 ≤ n)%nat ∧ valid Fixtures.jane)
    ∧ (∀ ms,
         Slept ms ∈ [Sent (Get (lookupUrl Fixtures.empty) "jane@example.com");
                     Sent (Post (createUrl Fixtures.empty) Fixtures.jane)] →
         ms = 1000 ∨ ms = 2000).
Proof.
  apply (turn_sends_lookups_then_posts_of_its_record Fixtures.empty
           [Fixtures.jane] [] 0 Fixtures.jane
           {| LeadProcessor.lead := Fixtures.jane;
              LeadProcessor.action := Action.created;
              LeadProcessor.error := None |}
           [Sent (Get (lookupUrl Fixtures.empty) "jane@example.com");
            Sent (Post (createUrl Fixtures.empty) Fixtures.jane)]);
    reflexivity.
Defined.

(** *** How many leads the remote holds *)

Section CountFacts.
Import Server.

Local Abbreviation grown answer st :=
  (leadsCount answer.2
   = leadsCount st + (if bool_decide (status answer.1 = 201) then 1 else 0)
   ∧ nextId answer.2
     = nextId st + (if bool_decide (status answer.1 = 201) then 1 else 0)).

Local Ltac unchanged :=
  cbn [fst snd status]; rewrite bool_decide_eq_false_2 by done; lia.

Lemma simulated_status chance failure :
  simulated chance = Some failure → status failure ≠ 201.
Proof.
  unfold simulated.
  destruct (rateLimit chance); [by intros [= <-]|].
  destruct (serverError chance); [by intros [= <-]|done].
Qed.

Lemma lookup_count st chance email : grown (lookup st chance email) st.
Proof.
  unfold lookup.
  destruct (simulated chance) as [failure|] eqn:Hs.
  { apply simulated_status in Hs. cbn [fst snd].
    rewrite bool_decide_eq_false_2 by done. lia. }
  destruct email as [email|]; [|unchanged].
  destruct (negb (truthy email)); [unchanged|].
  destruct (negb (validateEmail email)); [unchanged|].
  destruct (leads st !! toLowerCase email); unchanged.
Qed.

Lemma create_count st chance data : grown (create st chance data) st.
Proof.
  unfold create.
  destruct (simulated chance) as [failure|] eqn:Hs.
  { apply simulated_status in Hs. cbn [fst snd].
    rewrite bool_decide_eq_false_2 by done. lia. }
  destruct (negb (validateLeadData data).1); [unchanged|].
  case_bool_decide as Hin; [unchanged|].
  cbn [fst snd status leads nextId]. rewrite bool_decide_eq_true_2 by done.
  unfold leadsCount. cbn [leads].
  rewrite map_size_insert_None; [lia|].
  by apply eq_None_not_Some.
Qed.

Lemma update_count st chance data : grown (update st chance data) st.
Proof.
  unfold update.
  destruct (simulated chance) as [failure|] eqn:Hs.
  { apply simulated_status in Hs. cbn [fst snd].
    rewrite bool_decide_eq_false_2 by done. lia. }
  destruct (match bodyEmail data with
            | None => true
            | Some e => negb (truthy e) || negb (validateEmail e)
            end); [unchanged|].
  destruct (leads st !! toLowerCase (default "" (bodyEmail data)))
    as [existing|] eqn:Hk; [|unchanged].
  destruct (negb (validateLeadData _).1); [unchanged|].
  cbn [fst snd status leads nextId]. rewrite bool_decide_eq_false_2 by done.
  unfold leadsCount. cbn [leads].
  rewrite map_size_insert_Some; [lia|]. by eexists.
Qed.

Lemma handle_count st chance call : grown (handle st chance call) st.
Proof.
  destruct call; [apply lookup_count|apply create_count|apply update_count].
Qed.

Lemma run_count st calls :
  leadsCount st = nextId st - 1 →
  leadsCount (run st calls) = nextId (run st calls) - 1.
Proof.
  revert st. induction calls as [|[chance call] calls IH]; intros st Hst;
    [done|].
  cbn [run]. apply IH.
  destruct (handle_count st chance call) as [-> ->]. lia.
Qed.

Lemma initial_count : leadsCount initial = nextId initial - 1.
Proof. reflexivity. Qed.

End CountFacts.

(** X30.  The sample server holds [nextId - 1] leads: whatever requests it
    has served since it was started, the number of leads it holds is
    [nextId - 1], which is what the health route reports as [leadsCount];
    and a request changes the number only when it is answered with status
    201, by one. *)
Theorem server_holds_one_lead_per_id_handed_out
    (calls : list (Server.Chance * Server.Call))
    (chance : Server.Chance) (call : Server.Call) :
  Server.leadsCount (Server.run Server.initial calls)
  = Server.nextId (Server.run Server.initial calls) - 1
  ∧ Server.leadsCount
      (Server.handle (Server.run Server.initial calls) chance call).2
    = Server.leadsCount (Server.run Server.initial calls)
      + (if bool_decide
              (Server.status
                 (Server.handle (Server.run Server.initial calls) chance call).1
               = 201)
         then 1 else 0)
  ∧ Server.health (Server.run Server.initial calls) chance
    = {| Server.status := 200;
         Server.body :=
           JObj [("status", JStr "healthy");
                 ("timestamp", JStr (Server.now chance));
                 ("leadsCount",
                  JNum (pretty
                          (Server.nextId (Server.run Server.initial calls)
                           - 1)))] |}
  ∧ Server.leadsCount Server.initial = 2.
Proof.
  pose proof (run_count Server.initial calls initial_count) as Hrun.
  split_and!.
  - done.
  - apply handle_count.
  - unfold Server.health. by rewrite Hrun.
  - reflexivity.
Qed.

(** *** The reader on the files of its unit tests *)

Module ReaderTests.

Example headers_missing :
  CsvParser2.validateHeaders
    (text ["FirstName,EmailAddress,Org"; "Alice,alice@example.com,Acme"])
  = Throw (newError ("Invalid CSV: missing required header "
                     +:+ quote +:+ "Name" +:+ quote)).
Proof. reflexivity. Qed.

Example row_with_two_columns :
  CsvParser2.validateRows
    (text ["Name,Email,Company,Source"; "Alice Johnson,alice@example.com"])
  = Throw (newError "Malformed row 2: expected 4 columns, got 2").
Proof. reflexivity. Qed.

(** A comma between quotes counts as a separator. *)
Example row_with_quoted_comma :
  CsvParser2.validateRows
    (text ["Name,Email,Company,Source";
           quote +:+ "Doe, Jane" +:+ quote
           +:+ ",jane@example.com,Acme Corp,LinkedIn"])
  = Throw (newError "Malformed row 2: expected 4 columns, got 5").
Proof. reflexivity. Qed.

Example blank_lines_are_passed_over :
  CsvParser2.validateRows
    (text ["Name,Email,Company,Source"; "";
           "Alice Johnson,alice@example.com,Acme Inc,LinkedIn"; "   "; ""])
  = Ok ().
Proof. reflexivity. Qed.

Example headers_only :
  CsvParser.parseCSVFile
    (λ _, Ok (text ["Name,Email,Company,Source"; ""])) (λ _, Ok [])
    "leads.csv"
  = Ok [].
Proof. reflexivity. Qed.

Example fields_are_trimmed :
  CsvParser.parseCSVFile
    (λ _, Ok (text ["Name,Email,Company,Source";
                    "  Alice Johnson  ,  alice@example.com  ,  Acme Inc  ,  LinkedIn  "]))
    (λ _, Ok [{[ "Name" := "Alice Johnson"; "Email" := "alice@example.com";
                 "Company" := "Acme Inc"; "Source" := "LinkedIn" ]}])
    "leads.csv"
  = Ok [{| Validator.name := "Alice Johnson";
           Validator.email := "alice@example.com";
           Validator.company := "Acme Inc";
           Validator.source := "LinkedIn" |}].
Proof. reflexivity. Qed.

Example file_not_found :
  CsvParser.parseCSVFile
    (λ _, Throw {| instanceofError := true; isAxiosError := false;
                   code := Some "ENOENT"; status := None;
                   message := "ENOENT: no such file or directory";
                   shown := "Error: ENOENT: no such file or directory" |})
    (λ _, Ok []) "nonexistent.csv"
  = Throw (newError "File not found: nonexistent.csv").
Proof. reflexivity. Qed.

End ReaderTests.

(** *** The duplicate report on the batches of its unit tests *)

Module DuplicateTests.
Import Fixtures.

(** tests/validator.test.ts, [describe("detectDuplicateEmails")] *)

Example shared_email_is_reported_alone :
  Duplicates.detectDuplicateEmails
    [withEmail "dupe@example.com" jane; withEmail "unique@example.com" jane;
     withEmail "dupe@example.com" jane]
  = [("dupe@example.com", [0; 2]%nat)]
  ∧ Duplicates2.detectDuplicateEmails
      [withEmail "dupe@example.com" jane; withEmail "unique@example.com" jane;
       withEmail "dupe@example.com" jane]
    = [("dupe@example.com", [0; 2]%nat)].
Proof. split; reflexivity. Qed.

Example distinct_emails_give_empty_report :
  Duplicates.detectDuplicateEmails
    [withEmail "a@example.com" jane; withEmail "b@example.com" jane;
     withEmail "c@example.com" jane]
  = []
  ∧ Duplicates2.detectDuplicateEmails
      [withEmail "a@example.com" jane; withEmail "b@example.com" jane;
       withEmail "c@example.com" jane]
    = [].
Proof. split; reflexivity. Qed.

Example emails_are_compared_in_lower_case :
  Duplicates.detectDuplicateEmails
    [withEmail "Jane@Example.com" jane; withEmail "jane@example.com" jane]
  = [("jane@example.com", [0; 1]%nat)]
  ∧ Duplicates2.detectDuplicateEmails
      [withEmail "Jane@Example.com" jane; withEmail "jane@example.com" jane]
    = [("jane@example.com", [0; 1]%nat)].
Proof. split; reflexivity. Qed.

Example two_shared_emails_are_reported_apart :
  Duplicates.detectDuplicateEmails
    [withEmail "a@test.com" jane; withEmail "b@test.com" jane;
     withEmail "a@test.com" jane; withEmail "b@test.com" jane;
     withEmail "c@test.com" jane]
  = [("a@test.com", [0; 2]%nat); ("b@test.com", [1; 3]%nat)]
  ∧ Duplicates2.detectDuplicateEmails
      [withEmail "a@test.com" jane; withEmail "b@test.com" jane;
       withEmail "a@test.com" jane; withEmail "b@test.com" jane;
       withEmail "c@test.com" jane]
    = [("a@test.com", [0; 2]%nat); ("b@test.com", [1; 3]%nat)].
Proof. split; reflexivity. Qed.

Example empty_batch_gives_empty_report :
  Duplicates.detectDuplicateEmails [] = []
  ∧ Duplicates2.detectDuplicateEmails [] = [].
Proof. split; reflexivity. Qed.

End DuplicateTests.
